(** * A WebM muxer for still VP8 frames: EBML framing, VP8 extraction, assembly

    Shallow embedding of the muxer module ([fromImageArray] and its helpers,
    imported by the preview exporter as [@/lib/whammy]).

    Conventions of the embedding.
    - A [Uint8Array] is a [list byte]; a store converts its operand with
      [ToUint8], as the typed array does.
    - A JavaScript number that the code uses as an integer (array lengths,
      pixel sizes, loop counters) is a [Z].  The bitwise operators coerce
      their operands to 32-bit two's complement: [ToInt32] is written out at
      every [&], [|], [<<] and [>>].
    - [fps] is a double, a [spec_float], and [1000 / fps] is the binary64
      quotient of [SpecFloat].
    - The frame duration and the running timecode come out of [Math.round],
      so they are integers, a signed zero, an infinity or NaN: type [number].
      Sums and products of integers are exact there; the doubles of the code
      agree with them as long as the results stay within 2^53, and the
      statements about their values say so.
    - The stored duration is a real binary64 value, computed with the
      IEEE 754 operations of [SpecFloat].
    - [atob] is the platform's: the entry point is parameterised by it, and
      the concrete runs take the decoder of [Base64].
    - The bits that [setFloat64] writes for NaN are the platform's too:
      [nanBits] is a parameter of everything that writes a double.

    The first part gives the code, then the notions the statements use (the
    reader of a vint, the document as a tree, its reader), then the parts of
    the preview exporter that decide what the muxer is called with (the
    duration of the timeline, the frame rate, the size of the stage);
    the second part proves the facts, from the byte level up to the entry
    point and the exporter. *)

From Stdlib.Strings Require Import String Ascii Byte.
From Stdlib Require Import ZArith List Lia Bool QArith Qround.
From Stdlib.Floats Require Import SpecFloat.
Import ListNotations.

Set Warnings "-register-all".

Local Close Scope Q_scope.
Local Open Scope Z_scope.

(** ** JavaScript primitives *)

Module JS.

Definition ToInt32 (z : Z) : Z := (z + 2 ^ 31) mod 2 ^ 32 - 2 ^ 31.

(** [a & b], [a | b], [a << n], [a >> n]. *)
Definition and (a b : Z) : Z := Z.land (ToInt32 a) (ToInt32 b).
Definition or (a b : Z) : Z := Z.lor (ToInt32 a) (ToInt32 b).
Definition shl (a n : Z) : Z := ToInt32 (Z.shiftl (ToInt32 a) (n mod 32)).
Definition sar (a n : Z) : Z := Z.shiftr (ToInt32 a) (n mod 32).

Definition byte_to_Z (b : byte) : Z := Z.of_N (Byte.to_N b).

Definition ToUint8 (z : Z) : byte :=
  match Byte.of_N (Z.to_N (z mod 256)) with
  | Some b => b
  | None => x00
  end.

(** An element read [arr[i]]: [undefined] outside the array. *)
Definition load (arr : list byte) (i : Z) : option byte :=
  if i <? 0 then None else nth_error arr (Z.to_nat i).

(** The numeric value of an element read under a bitwise operator:
    [undefined] coerces to 0. *)
Definition num_of (o : option byte) : Z :=
  match o with
  | Some b => byte_to_Z b
  | None => 0
  end.

(** An element write [arr[i] = v]: ignored outside the array. *)
Fixpoint store (arr : list byte) (i : nat) (v : byte) : list byte :=
  match arr, i with
  | [], _ => []
  | _ :: t, O => v :: t
  | h :: t, S j => h :: store t j v
  end.

(** [target.set(source, offset)].  JavaScript raises a RangeError when
    [source] does not fit at [offset]; the module allocates every target with
    the exact total it then fills (see [encodeElement_fits] and
    [concatArrays_fits]), so the case does not arise, and the embedding leaves
    the target unchanged there. *)
Definition set (target source : list byte) (offset : nat) : list byte :=
  if (offset + length source <=? length target)%nat
  then firstn offset target ++ source ++ skipn (offset + length source) target
  else target.

(** [arr.subarray(begin, end)], with the clamping of relative indices. *)
Definition clampIndex (len rel : Z) : Z :=
  if rel <? 0 then Z.max (len + rel) 0 else Z.min rel len.

Definition subarray (arr : list byte) (b e : Z) : list byte :=
  let len := Z.of_nat (length arr) in
  let bi := clampIndex len b in
  let ei := clampIndex len e in
  firstn (Z.to_nat (Z.max (ei - bi) 0)) (skipn (Z.to_nat bi) arr).

End JS.

Import JS.

(** ** uintToArray *)

(** The body of [for (let i = bytes - 1; i >= 0; i--)], entered with
    [n = i + 1]. *)
Fixpoint uintToArray_loop (n : nat) (arr : list byte) (value : Z) : list byte :=
  match n with
  | O => arr
  | S i => uintToArray_loop i (store arr i (ToUint8 (JS.and value 255))) (sar value 8)
  end.

Definition uintToArray (value : Z) (bytes : nat) : list byte :=
  uintToArray_loop bytes (repeat x00 bytes) value.

(** ** encodeVint *)

(** The [while] loop that chooses the width; it leaves as soon as its
    condition fails, and seven rounds are all it can make from 1. *)
Fixpoint encodeVint_length (fuel : nat) (value length : Z) : Z :=
  match fuel with
  | O => length
  | S fuel' =>
      if (value >=? 2 ^ (7 * length) - 1) && (length <? 8)
      then encodeVint_length fuel' value (length + 1)
      else length
  end.

(** The byte loop of [encodeVint] is, word for word, the loop of
    [uintToArray]. *)
Definition encodeVint (value : Z) : list byte :=
  let length := Z.to_nat (encodeVint_length 7 value 1) in
  let buffer := uintToArray_loop length (repeat x00 length) value in
  store buffer 0
    (ToUint8 (JS.or (num_of (load buffer 0)) (shl 1 (8 - Z.of_nat length)))).

(** ** The reader of a vint (the inverse that the framing is checked against)

    The width of a vint is one more than the number of leading zero bits of
    its first byte; its value is the big-endian integer of its bytes once the
    marker bit is taken off. *)

Definition vintWidth (b0 : Z) : option nat :=
  if 128 <=? b0 then Some 1%nat
  else if 64 <=? b0 then Some 2%nat
  else if 32 <=? b0 then Some 3%nat
  else if 16 <=? b0 then Some 4%nat
  else if 8 <=? b0 then Some 5%nat
  else if 4 <=? b0 then Some 6%nat
  else if 2 <=? b0 then Some 7%nat
  else if 1 <=? b0 then Some 8%nat
  else None.

Definition beValue (bs : list byte) : Z :=
  fold_left (fun acc b => acc * 256 + byte_to_Z b) bs 0.

Definition decodeVint (bs : list byte) : option (Z * list byte) :=
  match bs with
  | [] => None
  | b0 :: _ =>
      match vintWidth (byte_to_Z b0) with
      | None => None
      | Some w =>
          if (length bs <? w)%nat then None
          else Some (beValue (firstn w bs) - 2 ^ (7 * Z.of_nat w), skipn w bs)
      end
  end.

(** ** encodeElement and concatArrays *)

Definition encodeElement (id : list Z) (data : list byte) : list byte :=
  let size := encodeVint (Z.of_nat (length data)) in
  let result := repeat x00 (length id + length size + length data) in
  let result := JS.set result (map ToUint8 id) 0 in
  let result := JS.set result size (length id) in
  JS.set result data (length id + length size).

(** The [for ... of] loop of [concatArrays], threading [result] and
    [offset]. *)
Fixpoint concatArrays_loop (arrays : list (list byte)) (result : list byte)
    (offset : nat) : list byte :=
  match arrays with
  | [] => result
  | arr :: rest =>
      concatArrays_loop rest (JS.set result arr offset) (offset + length arr)
  end.

Definition concatArrays (arrays : list (list byte)) : list byte :=
  let length := fold_left (fun sum arr => (sum + length arr)%nat) arrays 0%nat in
  concatArrays_loop arrays (repeat x00 length) 0.

(** ** extractVP8Bitstream *)

(** What the module can throw: its own [Error], and the [DOMException] of
    [atob]. *)
Inductive exn : Type :=
  | Error (message : string)
  | DOMException (name : string).

Definition signature : list Z := [0x56; 0x50; 0x38; 0x20].

(** [webp[i] === signature[k]]; [undefined] equals no number. *)
Definition strict_eq (o : option byte) (k : nat) : bool :=
  match o with
  | Some b => byte_to_Z b =? nth k signature 0
  | None => false
  end.

(** The scan [for (let i = 0; i <= webp.length - 10; i++)], with [n] the
    number of offsets still to try: [n = webp.length - 10 - i + 1].  Once
    they are used up, the loop is left and the function throws. *)
Fixpoint extractVP8Bitstream_loop (n : nat) (webp : list byte) (i : Z)
    : exn + list byte :=
  match n with
  | O => inl (Error "VP8 bitstream not found in WebP image.")
  | S n' =>
      if strict_eq (load webp i) 0
         && strict_eq (load webp (i + 1)) 1
         && strict_eq (load webp (i + 2)) 2
         && strict_eq (load webp (i + 3)) 3
      then
        let size :=
          JS.or (JS.or (JS.or (num_of (load webp (i + 4)))
                              (shl (num_of (load webp (i + 5))) 8))
                       (shl (num_of (load webp (i + 6))) 16))
                (shl (num_of (load webp (i + 7))) 24) in
        let start := i + 8 in
        inr (subarray webp start (start + size))
      else extractVP8Bitstream_loop n' webp (i + 1)
  end.

Definition extractVP8Bitstream (webp : list byte) : exn + list byte :=
  extractVP8Bitstream_loop (Z.to_nat (Z.of_nat (length webp) - 10 + 1)) webp 0.

(** ** Numbers that come out of [Math.round] *)

Inductive number : Type :=
  | Int (z : Z)
  | NegZero
  | PosInf
  | NegInf
  | NaN.

Module Num.

Definition negative (a : number) : bool :=
  match a with
  | Int z => z <? 0
  | NegZero | NegInf => true
  | PosInf | NaN => false
  end.

Definition infinite (a : number) : bool :=
  match a with
  | PosInf | NegInf => true
  | _ => false
  end.

(** [Number.isFinite]. *)
Definition finite (a : number) : bool :=
  match a with
  | Int _ | NegZero => true
  | _ => false
  end.

(** The integer that [ToInt32] starts from: 0 for NaN, the infinities and
    the negative zero. *)
Definition to_integer (a : number) : Z :=
  match a with
  | Int z => z
  | _ => 0
  end.

Definition add (a b : number) : number :=
  match a, b with
  | NaN, _ | _, NaN => NaN
  | PosInf, NegInf | NegInf, PosInf => NaN
  | PosInf, _ | _, PosInf => PosInf
  | NegInf, _ | _, NegInf => NegInf
  | NegZero, NegZero => NegZero
  | _, _ => Int (to_integer a + to_integer b)
  end.

Definition is_zero (a : number) : bool :=
  match a with
  | Int z => z =? 0
  | NegZero => true
  | _ => false
  end.

Definition mul (a b : number) : number :=
  match a, b with
  | NaN, _ | _, NaN => NaN
  | _, _ =>
      let neg := xorb (negative a) (negative b) in
      if infinite a || infinite b then
        if is_zero a || is_zero b then NaN
        else if neg then NegInf else PosInf
      else
        let p := to_integer a * to_integer b in
        if p =? 0 then (if neg then NegZero else Int 0) else Int p
  end.

(** The binary64 value of a number. *)
Definition to_double (a : number) : spec_float :=
  match a with
  | Int z => binary_normalize 53 1024 z 0 false
  | NegZero => S754_zero true
  | PosInf => S754_infinity false
  | NegInf => S754_infinity true
  | NaN => S754_nan
  end.

(** [a / b] as a double. *)
Definition div (a b : number) : spec_float :=
  SFdiv 53 1024 (to_double a) (to_double b).

(** [1000 / fps], the binary64 quotient: an infinity when [fps] is a zero
    (with the sign of the zero) or so small that the quotient overflows, NaN
    when [fps] is NaN. *)
Definition div1000 (fps : spec_float) : spec_float :=
  SFdiv 53 1024 (to_double (Int 1000)) fps.

(** [Math.round] of a double: the nearest integer, ties upwards, computed on
    the exact value [(-1)^s m 2^e]; the negative zero for -0 and for an
    argument in [-0.5, 0); NaN and the infinities are returned as they
    are. *)
Definition Math_round (x : spec_float) : number :=
  match x with
  | S754_nan => NaN
  | S754_infinity s => if s then NegInf else PosInf
  | S754_zero s => if s then NegZero else Int 0
  | S754_finite s m e =>
      let n := if s then Z.neg m else Z.pos m in
      let r := if 0 <=? e then n * 2 ^ e
               else (2 * n + 2 ^ (- e)) / 2 ^ (1 - e) in
      if (r =? 0) && s then NegZero else Int r
  end.

(** [Math.round] of a finite double given as the rational it is. *)
Definition Math_roundQ (q : Q) : number :=
  let r := Qfloor (q + (1 # 2))%Q in
  if (r =? 0) && negb (Qle_bool 0 q) then NegZero else Int r.

End Num.

(** ** float64ToArray *)

(** The 64 bits of a double.  For NaN, [view.setFloat64] may write any NaN
    encoding, at the choice of the implementation: [nanBits] is that choice,
    a parameter of the module like [atob]. *)
Definition float64_bits (nanBits : Z) (x : spec_float) : Z :=
  let sign (s : bool) := if s then 2 ^ 63 else 0 in
  match x with
  | S754_zero s => sign s
  | S754_infinity s => sign s + 2047 * 2 ^ 52
  | S754_nan => nanBits
  | S754_finite s m e =>
      if 2 ^ 52 <=? Z.pos m
      then sign s + (e + 1075) * 2 ^ 52 + (Z.pos m - 2 ^ 52)
      else sign s + Z.pos m
  end.

(** [view.setFloat64(0, value)] writes big-endian. *)
Definition float64ToArray (nanBits : Z) (value : spec_float) : list byte :=
  let bits := float64_bits nanBits value in
  map (fun k => ToUint8 (bits / 256 ^ k)) [7; 6; 5; 4; 3; 2; 1; 0].

(** ** createSimpleBlock *)

(** [new Uint8Array([...])] and [new TextEncoder().encode(s)] for an ASCII
    string. *)
Definition Uint8Array_of (l : list Z) : list byte := map ToUint8 l.

Fixpoint TextEncoder_encode (s : string) : list byte :=
  match s with
  | EmptyString => []
  | String c s' => byte_of_ascii c :: TextEncoder_encode s'
  end.

Definition createSimpleBlock (vp8Frame : list byte) (timecode : number)
    : list byte :=
  let trackNumber := Uint8Array_of [0x81] in
  let tc := repeat x00 2 in
  let tc := store tc 0 (ToUint8 (JS.and (sar (Num.to_integer timecode) 8) 0xff)) in
  let tc := store tc 1 (ToUint8 (JS.and (Num.to_integer timecode) 0xff)) in
  let flags := Uint8Array_of [0x80] in
  let payload := concatArrays [trackNumber; tc; flags; vp8Frame] in
  encodeElement [0xa3] payload.

(** ** createWebM *)

(** One round of [for (const frame of frames)]: the state is
    [(simpleBlocks, timecode)]. *)
Definition createWebM_step (frameDurationMs : number)
    (st : list (list byte) * number) (frame : list byte)
    : list (list byte) * number :=
  let '(simpleBlocks, timecode) := st in
  (simpleBlocks ++ [createSimpleBlock frame timecode],
   Num.add timecode frameDurationMs).

Definition createWebM (nanBits : Z) (frames : list (list byte))
    (frameDurationMs : number)
    (width height : Z) : list byte :=
  let frameCount := Int (Z.of_nat (length frames)) in
  let durationMs := Num.mul frameDurationMs frameCount in

  let ebml := encodeElement [0x1a; 0x45; 0xdf; 0xa3] (concatArrays [
    encodeElement [0x42; 0x86] (Uint8Array_of [0x01]);
    encodeElement [0x42; 0xf7] (Uint8Array_of [0x01]);
    encodeElement [0x42; 0xf2] (Uint8Array_of [0x04]);
    encodeElement [0x42; 0xf3] (Uint8Array_of [0x08]);
    encodeElement [0x42; 0x82] (TextEncoder_encode "webm");
    encodeElement [0x42; 0x87] (Uint8Array_of [0x02]);
    encodeElement [0x42; 0x85] (Uint8Array_of [0x02])
  ]) in

  let segmentInfo := encodeElement [0x15; 0x49; 0xa9; 0x66] (concatArrays [
    encodeElement [0x2a; 0xd7; 0xb1] (uintToArray 1000000 4);
    encodeElement [0x44; 0x89] (float64ToArray nanBits (Num.div durationMs (Int 1000)));
    encodeElement [0x4d; 0x80] (TextEncoder_encode "AnimArrange");
    encodeElement [0x57; 0x41] (TextEncoder_encode "AnimArrange")
  ]) in

  let trackEntry := encodeElement [0xae] (concatArrays [
    encodeElement [0xd7] (uintToArray 1 1);
    encodeElement [0x73; 0xc5] (uintToArray 1 1);
    encodeElement [0x9c] (Uint8Array_of [0x00]);
    encodeElement [0x83] (Uint8Array_of [0x01]);
    encodeElement [0x86] (TextEncoder_encode "V_VP8");
    encodeElement [0xe0] (concatArrays [
      encodeElement [0xb0] (uintToArray width 2);
      encodeElement [0xba] (uintToArray height 2)
    ])
  ]) in

  let tracks := encodeElement [0x16; 0x54; 0xae; 0x6b] trackEntry in

  let clusterTimecode := encodeElement [0xe7] (uintToArray 0 2) in
  let '(simpleBlocks, _) :=
    fold_left (createWebM_step frameDurationMs) frames ([], Int 0) in
  let cluster := encodeElement [0x1f; 0x43; 0xb6; 0x75]
                   (concatArrays (clusterTimecode :: simpleBlocks)) in

  let segment := encodeElement [0x18; 0x53; 0x80; 0x67]
                   (concatArrays [segmentInfo; tracks; cluster]) in

  concatArrays [ebml; segment].

(** ** dataURLToUint8Array and fromImageArray *)

Record Blob : Type := mkBlob { blobParts : list byte; type : string }.

(** A computation that may throw: [inl] carries the exception.  A call that
    throws ends the caller, and [frames.map] stops at the first throw. *)
Definition bind {A B} (m : exn + A) (k : A -> exn + B) : exn + B :=
  match m with
  | inl e => inl e
  | inr a => k a
  end.

Notation "'let*' x ':=' m 'in' k" := (bind m (fun x => k))
  (at level 10, x name, m at level 100, k at level 200).

Fixpoint Array_map {A B} (f : A -> exn + B) (l : list A) : exn + list B :=
  match l with
  | [] => inr []
  | x :: rest =>
      let* y := f x in
      let* ys := Array_map f rest in
      inr (y :: ys)
  end.

(** The loop [bytes[i] = binaryString.charCodeAt(i)] over a binary string. *)
Fixpoint charCodes (binaryString : string) : list byte :=
  match binaryString with
  | EmptyString => []
  | String c rest => byte_of_ascii c :: charCodes rest
  end.

Section Muxer.

(** The platform's base64 decoder: a binary string, or [None] where it throws
    its InvalidCharacterError. *)
Variable atob : string -> option string.

(** The NaN encoding of the platform (see [float64_bits]). *)
Variable nanBits : Z.

Definition dataURLToUint8Array (dataURL : string) : exn + list byte :=
  let index :=
    match String.index 0 "," dataURL with
    | Some k => Z.of_nat k
    | None => -1
    end in
  let b64 := substring (Z.to_nat (index + 1))
               (String.length dataURL - Z.to_nat (index + 1)) dataURL in
  match atob b64 with
  | None => inl (DOMException "InvalidCharacterError")
  | Some binaryString => inr (charCodes binaryString)
  end.

Definition fromImageArray (frames : list string) (fps : spec_float)
    (width height : Z)
    : exn + Blob :=
  let frameDurationMs := Num.Math_round (Num.div1000 fps) in
  let* vp8Frames :=
    Array_map (fun frame =>
                 let* webp := dataURLToUint8Array frame in
                 extractVP8Bitstream webp) frames in
  let webmBytes := createWebM nanBits vp8Frames frameDurationMs width height in
  inr (mkBlob webmBytes "video/webm").

End Muxer.

(** ** Reference notions used by the statements *)

(** The [n]-byte big-endian representation of [v] (its residue modulo
    [256 ^ n]). *)
Fixpoint bigEndian (n : nat) (v : Z) : list byte :=
  match n with
  | O => []
  | S k => bigEndian k (v / 256) ++ [ToUint8 v]
  end.

(** The 4-byte little-endian representation of [v]. *)
Definition littleEndian32 (v : Z) : list byte := rev (bigEndian 4 v).

(** A two-byte big-endian field read as a signed 16-bit integer. *)
Definition int16 (bs : list byte) : Z :=
  let u := beValue bs in
  if u <? 2 ^ 15 then u else u - 2 ^ 16.

(** The tag of the lossy image chunk, and its occurrence at an offset. *)
Definition vp8Tag : list byte := [x56; x50; x38; x20].

Definition occursAt (webp : list byte) (i : nat) : Prop :=
  firstn 4 (skipn i webp) = vp8Tag.

(** The one error of the extractor. *)
Definition notFound : exn := Error "VP8 bitstream not found in WebP image.".

(** The offsets the scan visits: [0 <= i <= webp.length - 10]. *)
Definition scanned (webp : list byte) (i : nat) : Prop :=
  Z.of_nat i <= Z.of_nat (length webp) - 10.

(** The chunk the scan returns for a match at [k]. *)
Definition chunkAt (webp : list byte) (k : nat) : list byte :=
  let i := Z.of_nat k in
  subarray webp (i + 8)
    (i + 8 + JS.or (JS.or (JS.or (num_of (load webp (i + 4)))
                                 (shl (num_of (load webp (i + 5))) 8))
                          (shl (num_of (load webp (i + 6))) 16))
                   (shl (num_of (load webp (i + 7))) 24)).

(** The synthetic still image: a header, the tag, the little-endian length
    and the payload. *)
Definition synthetic (header : list byte) (L : Z) (p : list byte) : list byte :=
  header ++ vp8Tag ++ littleEndian32 L ++ p.

(** Rounding to the nearest integer, ties upwards. *)
Definition roundQ (q : Q) : Z := Qfloor (q + (1 # 2))%Q.

(** The reader of a double, [DataView.getFloat64]: the sign, the 11-bit
    biased exponent and the 52-bit fraction of a big-endian field. *)
Definition float64_of_bits (bits : Z) : spec_float :=
  let s := 2 ^ 63 <=? bits in
  let e := (bits / 2 ^ 52) mod 2 ^ 11 in
  let f := bits mod 2 ^ 52 in
  if e =? 0 then
    match f with
    | Z.pos m => S754_finite s m (-1074)
    | _ => S754_zero s
    end
  else if e =? 2047 then
    if f =? 0 then S754_infinity s else S754_nan
  else
    match f + 2 ^ 52 with
    | Z.pos m => S754_finite s m (e - 1075)
    | _ => S754_nan
    end.

Definition getFloat64 (bs : list byte) : spec_float :=
  float64_of_bits (beValue bs).

(** *** The document as a tree (the layout of the container assembler)

    An element is a leaf with a payload or a master with child elements; it
    is written as [id || vint(length payload) || payload]. *)
Inductive ebml : Type :=
  | Elem (id : list Z) (payload : list byte)
  | Master (id : list Z) (children : list ebml).

Definition framed (id : list Z) (payload : list byte) : list byte :=
  map ToUint8 id ++ encodeVint (Z.of_nat (length payload)) ++ payload.

Fixpoint serialize (e : ebml) : list byte :=
  match e with
  | Elem id payload => framed id payload
  | Master id children => framed id (concat (map serialize children))
  end.

Definition serializeAll (es : list ebml) : list byte :=
  concat (map serialize es).

Definition idOf (e : ebml) : list Z :=
  match e with
  | Elem id _ | Master id _ => id
  end.

Definition childrenOf (e : ebml) : list ebml :=
  match e with
  | Elem _ _ => []
  | Master _ children => children
  end.

Definition payloadOf (e : ebml) : list byte :=
  match e with
  | Elem _ payload => payload
  | Master _ children => serializeAll children
  end.

Fixpoint id_eqb (a b : list Z) : bool :=
  match a, b with
  | [], [] => true
  | x :: a', y :: b' => (x =? y) && id_eqb a' b'
  | _, _ => false
  end.

Definition sameId (id : list Z) (e : ebml) : bool := id_eqb id (idOf e).

(** The elements below a path of master ids. *)
Fixpoint descend (path : list (list Z)) (es : list ebml) : list ebml :=
  match path with
  | [] => es
  | id :: path' =>
      descend path' (flat_map childrenOf (filter (sameId id) es))
  end.

Module Id.
Definition EBML : list Z := [0x1a; 0x45; 0xdf; 0xa3].
Definition Segment : list Z := [0x18; 0x53; 0x80; 0x67].
Definition Info : list Z := [0x15; 0x49; 0xa9; 0x66].
Definition Duration : list Z := [0x44; 0x89].
Definition Tracks : list Z := [0x16; 0x54; 0xae; 0x6b].
Definition TrackEntry : list Z := [0xae].
Definition Video : list Z := [0xe0].
Definition PixelWidth : list Z := [0xb0].
Definition PixelHeight : list Z := [0xba].
Definition Cluster : list Z := [0x1f; 0x43; 0xb6; 0x75].
Definition Timecode : list Z := [0xe7].
Definition SimpleBlock : list Z := [0xa3].
(** Elements that the assembler does not write: the date of the file, the
    random identifier of the segment, the checksum, and padding. *)
Definition DateUTC : list Z := [0x44; 0x61].
Definition SegmentUID : list Z := [0x73; 0xa4].
Definition CRC32 : list Z := [0xbf].
Definition Void : list Z := [0xec].
End Id.

(** The payload of a SimpleBlock: track number as a one-byte vint, the
    relative timecode on two big-endian bytes, the flags, the frame. *)
Definition simpleBlockPayload (track timecode : Z) (flags : byte)
    (frame : list byte) : list byte :=
  [ToUint8 (128 + track)] ++ bigEndian 2 timecode ++ [flags] ++ frame.

(** The blocks of the frames from a running timecode [t] on. *)
Fixpoint blocksFrom (t d : number) (frames : list (list byte)) : list ebml :=
  match frames with
  | [] => []
  | frame :: rest =>
      Elem Id.SimpleBlock (simpleBlockPayload 1 (Num.to_integer t) x80 frame)
      :: blocksFrom (Num.add t d) d rest
  end.

Definition ebmlHeader : ebml :=
  Master Id.EBML [
    Elem [0x42; 0x86] [x01];
    Elem [0x42; 0xf7] [x01];
    Elem [0x42; 0xf2] [x04];
    Elem [0x42; 0xf3] [x08];
    Elem [0x42; 0x82] (TextEncoder_encode "webm");
    Elem [0x42; 0x87] [x02];
    Elem [0x42; 0x85] [x02]
  ].

Definition segmentInfo (nanBits : Z) (durationSeconds : spec_float) : ebml :=
  Master Id.Info [
    Elem [0x2a; 0xd7; 0xb1] (bigEndian 4 1000000);
    Elem Id.Duration (float64ToArray nanBits durationSeconds);
    Elem [0x4d; 0x80] (TextEncoder_encode "AnimArrange");
    Elem [0x57; 0x41] (TextEncoder_encode "AnimArrange")
  ].

Definition tracks (width height : Z) : ebml :=
  Master Id.Tracks [
    Master Id.TrackEntry [
      Elem [0xd7] [x01];
      Elem [0x73; 0xc5] [x01];
      Elem [0x9c] [x00];
      Elem [0x83] [x01];
      Elem [0x86] (TextEncoder_encode "V_VP8");
      Master Id.Video [
        Elem Id.PixelWidth (bigEndian 2 width);
        Elem Id.PixelHeight (bigEndian 2 height)
      ]
    ]
  ].

Definition cluster (frames : list (list byte)) (d : number) : ebml :=
  Master Id.Cluster (Elem Id.Timecode [x00; x00] :: blocksFrom (Int 0) d frames).

(** [EBMLHeader || Segment(SegmentInfo || Tracks || Cluster)]. *)
Definition document (nanBits : Z) (frames : list (list byte)) (d : number)
    (width height : Z) : list ebml :=
  [ ebmlHeader;
    Master Id.Segment [
      segmentInfo nanBits (Num.div (Num.mul d (Int (Z.of_nat (length frames)))) (Int 1000));
      tracks width height;
      cluster frames d
    ] ].

(** The ids of all the elements of a tree, the ids of the layout, and the
    ids of the elements whose content would differ from one run to the
    next. *)
Fixpoint idsOf (e : ebml) : list (list Z) :=
  match e with
  | Elem id _ => [id]
  | Master id children => id :: flat_map idsOf children
  end.

Definition layoutIds : list (list Z) :=
  [ Id.EBML; [0x42; 0x86]; [0x42; 0xf7]; [0x42; 0xf2]; [0x42; 0xf3];
    [0x42; 0x82]; [0x42; 0x87]; [0x42; 0x85];
    Id.Segment;
    Id.Info; [0x2a; 0xd7; 0xb1]; Id.Duration; [0x4d; 0x80]; [0x57; 0x41];
    Id.Tracks; Id.TrackEntry; [0xd7]; [0x73; 0xc5]; [0x9c]; [0x83]; [0x86];
    Id.Video; Id.PixelWidth; Id.PixelHeight;
    Id.Cluster; Id.Timecode; Id.SimpleBlock ].

Definition volatileIds : list (list Z) :=
  [Id.DateUTC; Id.SegmentUID; Id.CRC32; Id.Void].

(** The payloads of the SimpleBlocks of a document, in order. *)
Definition simpleBlocksOf (doc : list ebml) : list (list byte) :=
  map payloadOf
    (filter (sameId Id.SimpleBlock) (descend [Id.Segment; Id.Cluster] doc)).

(** The fields of a SimpleBlock payload. *)
Definition blockTrack (payload : list byte) : option (Z * list byte) :=
  decodeVint (firstn 1 payload).
Definition blockTimecodeField (payload : list byte) : list byte :=
  firstn 2 (skipn 1 payload).
Definition blockFlags (payload : list byte) : option byte :=
  nth_error payload 3.
Definition blockFrame (payload : list byte) : list byte :=
  skipn 4 payload.

(** *** A reader of documents

    An element id carries its own width in its first byte, like a vint, and
    keeps its marker; the size that follows is a vint; the ids of the layout
    that hold child elements are read recursively.  The fuel bounds the
    depth and the number of elements: the length of the input is enough. *)
Definition masters : list (list Z) :=
  [Id.EBML; Id.Segment; Id.Info; Id.Tracks; Id.TrackEntry; Id.Video; Id.Cluster].

Definition isMaster (id : list Z) : bool := existsb (id_eqb id) masters.

Definition readId (bs : list byte) : option (list Z * list byte) :=
  match bs with
  | [] => None
  | b0 :: _ =>
      match vintWidth (byte_to_Z b0) with
      | Some w =>
          if (w <=? 4)%nat && (w <=? length bs)%nat
          then Some (map byte_to_Z (firstn w bs), skipn w bs)
          else None
      | None => None
      end
  end.

Definition readElement (bs : list byte)
    : option (list Z * list byte * list byte) :=
  match readId bs with
  | Some (id, afterId) =>
      match decodeVint afterId with
      | Some (n, afterSize) =>
          if n <=? Z.of_nat (length afterSize)
          then Some (id, firstn (Z.to_nat n) afterSize,
                     skipn (Z.to_nat n) afterSize)
          else None
      | None => None
      end
  | None => None
  end.

Fixpoint readElements (fuel : nat) (bs : list byte) : option (list ebml) :=
  match bs with
  | [] => Some []
  | _ :: _ =>
      match fuel with
      | O => None
      | S fuel' =>
          match readElement bs with
          | Some (id, payload, rest) =>
              let element :=
                if isMaster id
                then option_map (Master id) (readElements fuel' payload)
                else Some (Elem id payload) in
              match element, readElements fuel' rest with
              | Some e, Some es => Some (e :: es)
              | _, _ => None
              end
          | None => None
          end
      end
  end.

Definition readDocument (bs : list byte) : option (list ebml) :=
  readElements (length bs) bs.

(** *** Well-formed trees

    An id is well formed when its first byte announces its width, of at most
    four bytes; a tree is well formed when its ids are, its masters are
    those of the layout, and every payload is shorter than 2^31 bytes. *)
Definition wfId (id : list Z) : Prop :=
  match id with
  | [] => False
  | b0 :: _ =>
      vintWidth b0 = Some (length id) /\ (length id <= 4)%nat
      /\ Forall (fun b => 0 <= b < 256) id
  end.

Fixpoint wf (e : ebml) : Prop :=
  match e with
  | Elem id payload =>
      wfId id /\ isMaster id = false /\ Z.of_nat (length payload) < 2 ^ 31
  | Master id children =>
      wfId id /\ isMaster id = true
      /\ Z.of_nat (length (concat (map serialize children))) < 2 ^ 31
      /\ (fix all (l : list ebml) : Prop :=
            match l with
            | [] => True
            | c :: l' => wf c /\ all l'
            end) children
  end.

Fixpoint nodes (e : ebml) : nat :=
  match e with
  | Elem _ _ => 1
  | Master _ children =>
      S ((fix sum (l : list ebml) : nat :=
            match l with
            | [] => 0%nat
            | c :: l' => (nodes c + sum l')%nat
            end) children)
  end.

Definition nodesAll (es : list ebml) : nat :=
  fold_right (fun e n => (nodes e + n)%nat) 0%nat es.

(** The document of no frames: no block, and a duration that is the quotient
    of [frameDurationMs * 0] by 1000. *)
Definition emptyDocument (nanBits : Z) (duration : spec_float)
    (width height : Z) : list ebml :=
  [ ebmlHeader;
    Master Id.Segment [
      segmentInfo nanBits duration;
      tracks width height;
      Master Id.Cluster [Elem Id.Timecode [x00; x00]]
    ] ].

(** *** The platform's decoder, for the concrete runs

    [atob] as browsers implement it (forgiving base64 decoding): ASCII
    whitespace is dropped, one or two padding characters are accepted at the
    end of a text whose length is a multiple of four, a length of 1 modulo 4
    or a character outside the alphabet is an error, and the bits left over
    after the last whole byte are discarded. *)
Module Base64.

Definition isWhitespace (c : ascii) : bool :=
  let n := N_of_ascii c in
  ((n =? 9) || (n =? 10) || (n =? 12) || (n =? 13) || (n =? 32))%N.

Definition sextet (c : ascii) : option N :=
  let n := N_of_ascii c in
  (if (65 <=? n) && (n <=? 90) then Some (n - 65)
   else if (97 <=? n) && (n <=? 122) then Some (n - 71)
   else if (48 <=? n) && (n <=? 57) then Some (n + 4)
   else if n =? 43 then Some 62
   else if n =? 47 then Some 63
   else None)%N.

Fixpoint sextets (cs : list ascii) : option (list N) :=
  match cs with
  | [] => Some []
  | c :: rest =>
      match sextet c, sextets rest with
      | Some v, Some vs => Some (v :: vs)
      | _, _ => None
      end
  end.

Fixpoint octets (vs : list N) : list ascii :=
  match vs with
  | a :: b :: c :: d :: rest =>
      let w := (((a * 64 + b) * 64 + c) * 64 + d)%N in
      ascii_of_N (w / 65536) :: ascii_of_N ((w / 256) mod 256)
        :: ascii_of_N (w mod 256) :: octets rest
  | [a; b; c] =>
      let w := ((a * 64 + b) * 64 + c)%N in
      [ascii_of_N (w / 1024); ascii_of_N ((w / 4) mod 256)]
  | [a; b] => [ascii_of_N ((a * 64 + b) / 16)]
  | _ => []
  end.

Definition isPadding (c : ascii) : bool := (N_of_ascii c =? 61)%N.

Definition stripPadding (cs : list ascii) : list ascii :=
  match rev cs with
  | p :: q :: rest =>
      if isPadding p then (if isPadding q then rev rest else rev (q :: rest))
      else cs
  | [p] => if isPadding p then [] else cs
  | [] => cs
  end.

Definition atob (data : string) : option string :=
  let cs := filter (fun c => negb (isWhitespace c)) (list_ascii_of_string data) in
  let cs := if (length cs mod 4 =? 0)%nat then stripPadding cs else cs in
  if (length cs mod 4 =? 1)%nat then None
  else option_map (fun vs => string_of_list_ascii (octets vs)) (sextets cs).

End Base64.

(** A still image that the extractor accepts: 13 zero bytes, the tag, the
    length 2 and the payload [9d 01]; and its data URL. *)
Definition stillImage : list byte := synthetic (repeat x00 13) 2 [x9d; x01].

Definition stillImageURL : string :=
  "data:image/webp;base64,AAAAAAAAAAAAAAAAAFZQOCACAAAAnQE=".

(** The same image without a media type and with white space in the
    text. *)
Definition stillImageURL' : string :=
  "data:;base64,AAAA AAAA AAAA AAAA AFZQ OCAC AAAA nQE=".

(** The data URL of three zero bytes: an image without the tag. *)
Definition blankImageURL : string := "data:image/webp;base64,AAAA".

(** The twelve bytes that open a WebP file of 16 bytes after them: "RIFF",
    the little-endian size, "WEBP". *)
Definition riffHeader : list byte :=
  [x52; x49; x46; x46; x10; x00; x00; x00; x57; x45; x42; x50].

(** ** The preview exporter: timeline duration, frame rate, frame size

    The caller of [fromImageArray] computes the duration of the timeline and
    the even pixel size of the stage, and passes the frame rate 24.

    Times are seconds.  They are rationals here, and the sum
    [st + c.duration] is exact, where the double of the code is rounded to
    53 bits; the statements take the end of an object as it is and rest on
    the comparisons and on [Math.max] and [Math.round], which are exact in
    both. *)

Module Exporter.

(** [a > b]. *)
Definition Qgtb (a b : Q) : bool := negb (Qle_bool a b).

(** What the duration computation reads of an object of the timeline: a
    field is [Some] when [typeof] finds a number there.  The numbers are
    finite (a NaN or an infinity has no counterpart here), and the elements
    of the arrays are objects (the code raises a TypeError on [null]). *)
Record clip : Type := mkClip {
  startTime : option Q;
  start : option Q;
  endTime : option Q;
  duration : option Q
}.

(** A track or a background: its own timing fields, and its array of clips
    when it has one. *)
Record layer : Type := mkLayer {
  own : clip;
  clips : option (list clip)
}.

(** The locals [st] and [en] of the loop of [_maxEndFromArray]. *)
Definition st (c : clip) : Q :=
  match startTime c with
  | Some x => x
  | None => match start c with
            | Some x => x
            | None => 0%Q
            end
  end.

Definition en (c : clip) : Q :=
  match endTime c with
  | Some x => x
  | None => match duration c with
            | Some d => (st c + d)%Q
            | None => st c
            end
  end.

(** [arr] is [None] for an argument left undefined, which the default
    parameter replaces by the empty array. *)
Definition _maxEndFromArray (arr : option (list clip)) : Q :=
  let arr := match arr with Some a => a | None => [] end in
  fold_left (fun max c => if Qgtb (en c) max then en c else max) arr 0%Q.

(** [Math.max(x, ...xs)]. *)
Definition Math_max (x : Q) (xs : list Q) : Q :=
  fold_left (fun m y => if Qgtb y m then y else m) xs x.

Record timeline : Type := mkTimeline {
  tracks : option (list layer);
  audioTracks : option (list clip);
  backgroundTracks : option (list layer);
  graphics : option (list clip)
}.

(** [x || []]. *)
Definition orEmpty {A} (x : option (list A)) : list A :=
  match x with
  | Some l => l
  | None => []
  end.

(** The call of [console.table] has no part in the result. *)
Definition computeTimelineDurationSec (t : timeline) : Q :=
  let fromTracks :=
    Math_max 0%Q (map (fun t => _maxEndFromArray (Some (orEmpty (clips t))))
                    (orEmpty (tracks t))) in
  let fromAudio := _maxEndFromArray (audioTracks t) in
  let fromBg :=
    _maxEndFromArray
      (Some (flat_map (fun b => match clips b with
                                | Some cs => cs
                                | None => [own b]
                                end)
                      (orEmpty (backgroundTracks t)))) in
  let fromGraphics := _maxEndFromArray (graphics t) in
  Math_max fromTracks [fromAudio; fromBg; fromGraphics; (1 # 2)%Q].

Definition FPS : Z := 24.

(** [Math.max(2, Math.round(rect.width)) & ~1], and the same for the
    height. *)
Definition W (rect_width : Q) : Z :=
  JS.and (Z.max 2 (Num.to_integer (Num.Math_roundQ rect_width)))
         (Z.lnot 1).

Definition H (rect_height : Q) : Z :=
  JS.and (Z.max 2 (Num.to_integer (Num.Math_roundQ rect_height)))
         (Z.lnot 1).

(** The guard [W < 2 || H < 2] that ends the export with "Stage too
    small". *)
Definition stageTooSmall (w h : Z) : bool := (w <? 2) || (h <? 2).

(** Every object whose end the duration computation looks at. *)
Definition timedObjects (t : timeline) : list clip :=
  flat_map (fun l => orEmpty (clips l)) (orEmpty (tracks t))
  ++ orEmpty (audioTracks t)
  ++ flat_map (fun b => match clips b with
                        | Some cs => cs
                        | None => [own b]
                        end)
              (orEmpty (backgroundTracks t))
  ++ orEmpty (graphics t).

End Exporter.

(** A NaN encoding has all the exponent bits set and a fraction that is not
    zero.  Two of them for the concrete runs: the quiet NaN 7ff8..., and the
    quiet NaN with the sign bit set, fff8..., which x86-64 produces for an
    invalid operation such as Infinity * 0. *)
Definition isNaN64 (bits : Z) : bool :=
  (0 <=? bits) && (bits <? 2 ^ 64)
  && ((bits / 2 ^ 52) mod 2 ^ 11 =? 2047) && negb (bits mod 2 ^ 52 =? 0).

Definition quietNaN : Z := 0x7ff8000000000000.

Definition indefiniteNaN : Z := 0xfff8000000000000.

(** Two doubles for the concrete runs: 3.2 (0x400999999999999a) and
    2^-1022, the smallest positive normal number. *)
Definition double_3_2 : spec_float := S754_finite false 7205759403792794 (-51).

Definition double_2p_1022 : spec_float :=
  S754_finite false 4503599627370496 (-1074).

(** ** Tactics *)

(** Evaluate the closed powers in the goal and in the hypotheses. *)
Ltac closed_pos p :=
  lazymatch p with
  | xH => idtac
  | xO ?q => closed_pos q
  | xI ?q => closed_pos q
  end.

Ltac closed_nat n :=
  lazymatch n with
  | O => idtac
  | S ?m => closed_nat m
  | (?a + ?b)%nat => closed_nat a; closed_nat b
  | (?a - ?b)%nat => closed_nat a; closed_nat b
  end.

Ltac closed_Z z :=
  lazymatch z with
  | Z0 => idtac
  | Zpos ?p => closed_pos p
  | Zneg ?p => closed_pos p
  | Z.of_nat ?n => closed_nat n
  | ?a + ?b => closed_Z a; closed_Z b
  | ?a - ?b => closed_Z a; closed_Z b
  | ?a * ?b => closed_Z a; closed_Z b
  | ?a ^ ?b => closed_Z a; closed_Z b
  end.

Ltac eval_pows :=
  repeat match goal with
         | |- context [Z.pow ?a ?b] =>
             closed_Z a; closed_Z b;
             let v := eval vm_compute in (Z.pow a b) in
             progress change (Z.pow a b) with v
         | H : context [Z.pow ?a ?b] |- _ =>
             closed_Z a; closed_Z b;
             let v := eval vm_compute in (Z.pow a b) in
             progress change (Z.pow a b) with v in H
         end.

(** * Concrete runs *)

Example atob_stillImage :
  dataURLToUint8Array Base64.atob stillImageURL = inr stillImage
  /\ dataURLToUint8Array Base64.atob blankImageURL = inr [x00; x00; x00]
  /\ dataURLToUint8Array Base64.atob "data:image/webp;base64,A"
     = inl (DOMException "InvalidCharacterError")
  /\ Base64.atob "TWFu" = Some "Man"%string
  /\ Base64.atob "TWE=" = Some "Ma"%string
  /\ Base64.atob " T Q = = " = Some "M"%string
  /\ Base64.atob "TQ" = Some "M"%string
  /\ Base64.atob "TQ=" = None
  /\ Base64.atob "T!==" = None.
Proof. vm_compute. repeat split. Qed.

Example encodeVint_0 : encodeVint 0 = [x80].
Proof. reflexivity. Qed.
Example encodeVint_127 : encodeVint 127 = [x40; x7f].
Proof. reflexivity. Qed.
Example encodeVint_2p31 : encodeVint 2147483648 = [xff; x80; x00; x00; x00].
Proof. vm_compute. reflexivity. Qed.

(** * Bytes and 32-bit coercions *)

Lemma byte_to_Z_range (b : byte) : 0 <= byte_to_Z b < 256.
Proof.
  unfold byte_to_Z. pose proof (Byte.to_N_bounded b). lia.
Qed.

Lemma byte_to_Z_ToUint8 (z : Z) : byte_to_Z (ToUint8 z) = z mod 256.
Proof.
  unfold ToUint8, byte_to_Z.
  pose proof (Z.mod_pos_bound z 256 ltac:(lia)) as Hr.
  destruct (Byte.of_N (Z.to_N (z mod 256))) as [b|] eqn:E.
  - apply Byte.to_of_N in E. rewrite E. lia.
  - apply Byte.of_N_None_iff in E. lia.
Qed.

Lemma ToUint8_byte_to_Z (b : byte) : ToUint8 (byte_to_Z b) = b.
Proof.
  unfold ToUint8. pose proof (byte_to_Z_range b) as Hr.
  rewrite Z.mod_small by lia. unfold byte_to_Z.
  rewrite N2Z.id, Byte.of_to_N. reflexivity.
Qed.

Lemma byte_to_Z_inj (a b : byte) : byte_to_Z a = byte_to_Z b -> a = b.
Proof.
  intros H. rewrite <- (ToUint8_byte_to_Z a), <- (ToUint8_byte_to_Z b), H.
  reflexivity.
Qed.

Lemma ToInt32_small (v : Z) : - 2 ^ 31 <= v < 2 ^ 31 -> ToInt32 v = v.
Proof.
  intros H. unfold ToInt32. rewrite Z.mod_small; lia.
Qed.

Lemma ToInt32_range (v : Z) : - 2 ^ 31 <= ToInt32 v < 2 ^ 31.
Proof.
  unfold ToInt32. pose proof (Z.mod_pos_bound (v + 2 ^ 31) (2 ^ 32) ltac:(lia)).
  lia.
Qed.

Lemma ToInt32_mod (v m : Z) : (m | 2 ^ 32) -> 0 < m -> ToInt32 v mod m = v mod m.
Proof.
  intros [k Hk] Hm. unfold ToInt32.
  assert (E : (v + 2 ^ 31) mod 2 ^ 32 - 2 ^ 31
              = v + - ((v + 2 ^ 31) / 2 ^ 32 * k) * m).
  { pose proof (Z.div_mod (v + 2 ^ 31) (2 ^ 32) ltac:(lia)) as H.
    remember ((v + 2 ^ 31) mod 2 ^ 32) as r. remember ((v + 2 ^ 31) / 2 ^ 32) as q.
    rewrite Hk in H.
    replace (- (q * k) * m) with (- (k * m * q)) by ring. lia. }
  rewrite E. apply Z.mod_add. lia.
Qed.

Lemma and_255 (v : Z) : JS.and v 255 = v mod 256.
Proof.
  unfold JS.and. rewrite (ToInt32_small 255) by lia.
  change 255 with (Z.ones 8). rewrite Z.land_ones by lia.
  change (2 ^ 8) with 256. apply ToInt32_mod; [exists (2 ^ 24); reflexivity | lia].
Qed.

Lemma sar_8 (v : Z) : sar v 8 = ToInt32 v / 256.
Proof.
  unfold sar. change (8 mod 32) with 8. rewrite Z.shiftr_div_pow2 by lia.
  reflexivity.
Qed.

(** * Typed-array writes *)

Lemma store_length (arr : list byte) (i : nat) (v : byte) :
  length (store arr i v) = length arr.
Proof.
  revert i; induction arr as [|h t IH]; intros [|j]; simpl; auto.
Qed.

Lemma store_app_r (pre : list byte) (x : byte) (post : list byte) (v : byte) :
  store (pre ++ x :: post) (length pre) v = pre ++ v :: post.
Proof.
  induction pre as [|h t IH]; simpl; [reflexivity | now rewrite IH].
Qed.

Lemma skipn_two_app {A} (l1 l2 post : list A) :
  skipn (length l1 + length l2) (l1 ++ l2 ++ post) = post.
Proof.
  rewrite <- length_app, app_assoc, skipn_app, skipn_all, Nat.sub_diag.
  reflexivity.
Qed.

Lemma set_app (pre mid post source : list byte) (offset : nat) :
  length pre = offset -> length mid = length source ->
  JS.set (pre ++ mid ++ post) source offset = pre ++ source ++ post.
Proof.
  intros Hp Hm. unfold JS.set.
  assert (Hfit : (offset + length source <=? length (pre ++ mid ++ post))%nat = true).
  { apply Nat.leb_le. rewrite !length_app. lia. }
  rewrite Hfit. subst offset.
  rewrite firstn_app, firstn_all, Nat.sub_diag, firstn_O, app_nil_r.
  rewrite <- Hm, skipn_two_app. reflexivity.
Qed.

Lemma fold_left_sum_length (arrays : list (list byte)) (n : nat) :
  fold_left (fun sum arr => (sum + length arr)%nat) arrays n
  = (n + length (concat arrays))%nat.
Proof.
  revert n; induction arrays as [|a rest IH]; intros n; simpl.
  - lia.
  - rewrite IH, length_app. lia.
Qed.

Lemma concatArrays_loop_spec (arrays : list (list byte)) (pre : list byte) :
  concatArrays_loop arrays (pre ++ repeat x00 (length (concat arrays))) (length pre)
  = pre ++ concat arrays.
Proof.
  revert pre; induction arrays as [|a rest IH]; intros pre; simpl.
  - reflexivity.
  - rewrite length_app, repeat_app.
    rewrite (set_app pre (repeat x00 (length a)))
      by (rewrite ?repeat_length; reflexivity).
    rewrite <- length_app, app_assoc, IH, <- app_assoc. reflexivity.
Qed.

(** [concatArrays] is the concatenation of its arguments, in order. *)
Lemma concatArrays_concat (arrays : list (list byte)) :
  concatArrays arrays = concat arrays.
Proof.
  unfold concatArrays. rewrite fold_left_sum_length. simpl.
  apply (concatArrays_loop_spec arrays []).
Qed.

(** No [set] of [concatArrays] is out of range: the buffer has the length of
    the concatenation. *)
Lemma concatArrays_fits (arrays : list (list byte)) :
  fold_left (fun sum arr => (sum + length arr)%nat) arrays 0%nat
  = length (concat arrays).
Proof. apply fold_left_sum_length. Qed.

Lemma set_three (a b c : list byte) :
  JS.set (JS.set (JS.set (repeat x00 (length a + length b + length c)) a 0)
                 b (length a))
         c (length a + length b)
  = a ++ b ++ c.
Proof.
  rewrite !repeat_app, <- app_assoc.
  pose proof (set_app [] (repeat x00 (length a))
                (repeat x00 (length b) ++ repeat x00 (length c)) a 0
                eq_refl (repeat_length _ _)) as H1.
  simpl in H1. rewrite H1.
  rewrite (set_app a (repeat x00 (length b)) (repeat x00 (length c)) b
             (length a) eq_refl (repeat_length _ _)).
  pose proof (set_app (a ++ b) (repeat x00 (length c)) [] c
                (length a + length b) (length_app a b) (repeat_length _ _)) as H3.
  rewrite app_nil_r, <- !app_assoc in H3. rewrite app_nil_r in H3. exact H3.
Qed.

(** [encodeElement] is [id ++ size ++ data]. *)
Lemma encodeElement_app (id : list Z) (data : list byte) :
  encodeElement id data
  = map ToUint8 id ++ encodeVint (Z.of_nat (length data)) ++ data.
Proof.
  unfold encodeElement.
  pose proof (set_three (map ToUint8 id)
                (encodeVint (Z.of_nat (length data))) data) as H.
  rewrite length_map in H. exact H.
Qed.

(** The three writes of [encodeElement] fit the buffer it allocates. *)
Lemma encodeElement_fits (id : list Z) (data size : list byte) :
  (0 + length (map ToUint8 id) <= length id + length size + length data
   /\ length id + length size <= length id + length size + length data
   /\ length id + length size + length data
      <= length (repeat x00 (length id + length size + length data)))%nat.
Proof.
  rewrite length_map, repeat_length. lia.
Qed.

(** * Big-endian digits *)

Lemma bigEndian_length (n : nat) (v : Z) : length (bigEndian n v) = n.
Proof.
  revert v; induction n as [|k IH]; intros v; simpl; [reflexivity|].
  rewrite length_app, IH. simpl. lia.
Qed.

Lemma beValue_snoc (l : list byte) (b : byte) :
  beValue (l ++ [b]) = beValue l * 256 + byte_to_Z b.
Proof.
  unfold beValue. rewrite fold_left_app. reflexivity.
Qed.

Lemma beValue_range (l : list byte) : 0 <= beValue l < 256 ^ Z.of_nat (length l).
Proof.
  induction l as [|b l IH] using rev_ind.
  - simpl. unfold beValue. simpl. lia.
  - rewrite beValue_snoc, length_app, Nat.add_comm. cbn [length Nat.add].
    rewrite Nat2Z.inj_succ, Z.pow_succ_r by lia.
    pose proof (byte_to_Z_range b). lia.
Qed.

Lemma beValue_cons (h : byte) (t : list byte) :
  beValue (h :: t) = byte_to_Z h * 256 ^ Z.of_nat (length t) + beValue t.
Proof.
  induction t as [|b t IH] using rev_ind.
  - unfold beValue. simpl. lia.
  - rewrite app_comm_cons, !beValue_snoc, IH, length_app, Nat.add_comm.
    cbn [length Nat.add]. rewrite Nat2Z.inj_succ, Z.pow_succ_r by lia. ring.
Qed.

Lemma beValue_bigEndian (n : nat) (v : Z) :
  beValue (bigEndian n v) = v mod 256 ^ Z.of_nat n.
Proof.
  revert v; induction n as [|k IH]; intros v.
  - simpl. rewrite Z.mod_1_r. reflexivity.
  - cbn [bigEndian]. rewrite beValue_snoc, IH, byte_to_Z_ToUint8.
    rewrite Nat2Z.inj_succ, Z.pow_succ_r by lia.
    rewrite Z.rem_mul_r by lia. lia.
Qed.

(** The loop of [uintToArray] writes the big-endian digits of the 32-bit
    value it shifts. *)
Lemma uintToArray_loop_int32 (n : nat) (arr : list byte) (v : Z) :
  - 2 ^ 31 <= v < 2 ^ 31 -> (n <= length arr)%nat ->
  uintToArray_loop n arr v = bigEndian n v ++ skipn n arr.
Proof.
  revert arr v; induction n as [|i IH]; intros arr v Hv Hn.
  - reflexivity.
  - cbn [uintToArray_loop bigEndian].
    assert (Hs : sar v 8 = v / 256 /\ - 2 ^ 31 <= v / 256 < 2 ^ 31).
    { rewrite sar_8, ToInt32_small by lia. split; [reflexivity|].
      pose proof (Z.div_mod v 256 ltac:(lia)).
      pose proof (Z.mod_pos_bound v 256 ltac:(lia)). lia. }
    destruct Hs as [Hs Hr]. rewrite Hs.
    rewrite IH by (rewrite ?store_length; lia).
    rewrite <- app_assoc. f_equal.
    rewrite <- (firstn_skipn i arr) at 1.
    assert (Hi : length (firstn i arr) = i) by (apply firstn_length_le; lia).
    destruct (skipn i arr) as [|x post] eqn:E.
    { apply (f_equal (@length byte)) in E. rewrite length_skipn in E.
      simpl in E. lia. }
    replace (skipn (S i) arr) with post.
    2:{ change (S i) with (1 + i)%nat. rewrite <- skipn_skipn, E. reflexivity. }
    remember (firstn i arr) as pre eqn:Hpre. clear Hpre E IH Hn.
    rewrite <- Hi, store_app_r, skipn_app, skipn_all, Nat.sub_diag. simpl.
    f_equal. apply byte_to_Z_inj.
    rewrite !byte_to_Z_ToUint8, and_255, Z.mod_mod by lia. reflexivity.
Qed.

Lemma bigEndian_ToInt32 (n : nat) (v : Z) :
  (n <= 4)%nat -> bigEndian n (ToInt32 v) = bigEndian n v.
Proof.
  intros Hn.
  assert (H : forall k a b, (k <= 4)%nat ->
                a mod 256 ^ Z.of_nat k = b mod 256 ^ Z.of_nat k ->
                bigEndian k a = bigEndian k b).
  { induction k as [|k IH]; intros a b Hk Hab; [reflexivity|].
    cbn [bigEndian].
    rewrite Nat2Z.inj_succ, Z.pow_succ_r in Hab by lia.
    rewrite !Z.rem_mul_r in Hab by lia.
    pose proof (Z.mod_pos_bound a 256 ltac:(lia)).
    pose proof (Z.mod_pos_bound b 256 ltac:(lia)).
    pose proof (Z.mod_pos_bound (a / 256) (256 ^ Z.of_nat k) ltac:(lia)).
    pose proof (Z.mod_pos_bound (b / 256) (256 ^ Z.of_nat k) ltac:(lia)).
    f_equal.
    - apply IH; lia.
    - f_equal. apply byte_to_Z_inj. rewrite !byte_to_Z_ToUint8. lia. }
  apply H; [exact Hn|].
  apply ToInt32_mod; [|lia].
  exists (256 ^ (4 - Z.of_nat n)). rewrite <- Z.pow_add_r by lia.
  replace (4 - Z.of_nat n + Z.of_nat n) with 4 by lia. reflexivity.
Qed.

Lemma uintToArray_loop_ToInt32 (n : nat) (arr : list byte) (v : Z) :
  uintToArray_loop n arr v = uintToArray_loop n arr (ToInt32 v).
Proof.
  destruct n as [|i]; [reflexivity|]. cbn [uintToArray_loop].
  rewrite !sar_8, (ToInt32_small (ToInt32 v)) by apply ToInt32_range.
  f_equal. f_equal. apply byte_to_Z_inj.
  rewrite !byte_to_Z_ToUint8, !and_255, !Z.mod_mod by lia.
  symmetry. apply ToInt32_mod; [exists (2 ^ 24); reflexivity | lia].
Qed.

(** [uintToArray value bytes], for at most four bytes, is the big-endian
    representation of [value] modulo [256 ^ bytes], whatever the value. *)
Lemma uintToArray_bigEndian (value : Z) (bytes : nat) :
  (bytes <= 4)%nat -> uintToArray value bytes = bigEndian bytes value.
Proof.
  intros Hb. unfold uintToArray.
  rewrite uintToArray_loop_ToInt32, uintToArray_loop_int32
    by (rewrite ?repeat_length; auto using ToInt32_range).
  rewrite <- (repeat_length x00 bytes) at 2. rewrite skipn_all, app_nil_r.
  apply bigEndian_ToInt32, Hb.
Qed.

(** * The vint codec *)

(** The width loop has fuel to spare: it stops because its condition fails,
    at a width between 1 and 8. *)
Lemma encodeVint_length_exit (fuel : nat) (value len : Z) :
  1 <= len <= 8 -> 8 - len <= Z.of_nat fuel ->
  let L := encodeVint_length fuel value len in
  len <= L <= 8 /\ (value >=? 2 ^ (7 * L) - 1) && (L <? 8) = false.
Proof.
  revert len; induction fuel as [|f IH]; intros len Hl Hf; cbn [encodeVint_length].
  - split; [lia|]. replace (len <? 8) with false by (symmetry; apply Z.ltb_ge; lia).
    apply andb_false_r.
  - destruct ((value >=? 2 ^ (7 * len) - 1) && (len <? 8)) eqn:E.
    + apply andb_prop in E. destruct E as [_ E]. apply Z.ltb_lt in E.
      specialize (IH (len + 1) ltac:(lia) ltac:(lia)). cbv zeta in IH. lia.
    + split; [lia | exact E].
Qed.

Lemma encodeVint_length_bound (value : Z) :
  let L := encodeVint_length 7 value 1 in
  1 <= L <= 8 /\ (L < 8 -> value < 2 ^ (7 * L) - 1).
Proof.
  pose proof (encodeVint_length_exit 7 value 1 ltac:(lia) ltac:(simpl; lia)) as H.
  cbv zeta in *. destruct H as [Hr Hc]. split; [exact Hr|]. intros HL.
  apply andb_false_iff in Hc. destruct Hc as [Hc|Hc].
  - rewrite Z.geb_leb in Hc. apply Z.leb_gt in Hc. exact Hc.
  - apply Z.ltb_ge in Hc. lia.
Qed.

(** Setting the marker bit on a leading byte that leaves it free adds its
    weight. *)
Lemma marker_or (h : byte) (L : nat) :
  (1 <= L <= 8)%nat -> byte_to_Z h < 2 ^ (8 - Z.of_nat L) ->
  byte_to_Z (ToUint8 (JS.or (byte_to_Z h) (shl 1 (8 - Z.of_nat L))))
  = byte_to_Z h + 2 ^ (8 - Z.of_nat L).
Proof.
  intros HL.
  assert (E : In L [1; 2; 3; 4; 5; 6; 7; 8]%nat) by (simpl; lia).
  simpl in E.
  repeat (destruct E as [E|E]; [subst L; clear HL; destruct h; vm_compute;
                                 intros; (reflexivity || discriminate)|]).
  destruct E.
Qed.

Lemma vintWidth_marked (h : Z) (L : nat) :
  (1 <= L <= 8)%nat -> 0 <= h < 2 ^ (8 - Z.of_nat L) ->
  vintWidth (h + 2 ^ (8 - Z.of_nat L)) = Some L.
Proof.
  intros HL.
  assert (E : In L [1; 2; 3; 4; 5; 6; 7; 8]%nat) by (simpl; lia).
  simpl in E.
  repeat (destruct E as [E|E];
          [subst L; clear HL; cbn [Z.of_nat Pos.of_succ_nat Pos.succ Z.sub Z.add
                                   Z.opp Z.pos_sub Pos.pred_double Z.succ_double
                                   Z.pred_double Z.double Z.pow Z.pow_pos Pos.iter
                                   Z.mul Pos.mul Pos.add];
           intros Hh; unfold vintWidth;
           repeat match goal with
                  | |- context [?a <=? ?b] =>
                      destruct (Z.leb_spec a b); try lia
                  end; reflexivity|]).
  destruct E.
Qed.

(** A width-[L] field holding a value below [2 ^ (7 L)], with its marker set,
    reads back as that value, and the reader stops right after it. *)
Lemma decodeVint_marked (L : nat) (x : Z) (tl : list byte) :
  (1 <= L <= 8)%nat -> 0 <= x < 2 ^ (7 * Z.of_nat L) ->
  let buffer := bigEndian L x in
  decodeVint
    (store buffer 0
       (ToUint8 (JS.or (num_of (load buffer 0)) (shl 1 (8 - Z.of_nat L)))) ++ tl)
  = Some (x, tl).
Proof.
  intros HL Hx. cbv zeta.
  pose proof (bigEndian_length L x) as Hlen.
  pose proof (beValue_bigEndian L x) as Hval.
  destruct (bigEndian L x) as [|h t]; simpl in Hlen; [lia|].
  rewrite beValue_cons in Hval.
  pose proof (beValue_range t) as Hrt. pose proof (byte_to_Z_range h) as Hrh.
  assert (Ht : length t = (L - 1)%nat) by lia.
  assert (Hxs : x mod 256 ^ Z.of_nat L = x /\ byte_to_Z h < 2 ^ (8 - Z.of_nat L)
                /\ (byte_to_Z h + 2 ^ (8 - Z.of_nat L)) * 256 ^ Z.of_nat (length t)
                   + beValue t - 2 ^ (7 * Z.of_nat L) = x).
  { rewrite Ht in *.
    assert (E : In L [1; 2; 3; 4; 5; 6; 7; 8]%nat) by (simpl; lia).
    simpl in E.
    repeat (destruct E as [E|E];
            [subst L; clear HL Hlen Ht; eval_pows;
             rewrite Z.mod_small in Hval by lia;
             rewrite Z.mod_small by lia; lia|]).
    destruct E. }
  destruct Hxs as (_ & Hh & Hx').
  change (load (h :: t) 0) with (Some h). cbn [store num_of app].
  unfold decodeVint.
  rewrite marker_or, vintWidth_marked by (auto; lia).
  replace (length (ToUint8 (JS.or (byte_to_Z h) (shl 1 (8 - Z.of_nat L)))
                   :: t ++ tl) <? L)%nat
    with false by (symmetry; apply Nat.ltb_ge; cbn [length]; rewrite length_app; lia).
  assert (HL' : L = S (length t)) by lia.
  assert (Hf : forall b, firstn L (b :: t ++ tl) = b :: t).
  { intros b. rewrite HL'. cbn [firstn].
    now rewrite firstn_app, firstn_all, Nat.sub_diag, firstn_O, app_nil_r. }
  assert (Hs : forall b, skipn L (b :: t ++ tl) = tl).
  { intros b. rewrite HL'. cbn [skipn].
    now rewrite skipn_app, skipn_all, Nat.sub_diag. }
  rewrite Hf, Hs.
  rewrite beValue_cons, marker_or by (auto; lia).
  rewrite Hx'. reflexivity.
Qed.

(** The encoder on the values that survive the 32-bit shifts. *)
Lemma encodeVint_int31 (value : Z) :
  0 <= value < 2 ^ 31 ->
  let L := Z.to_nat (encodeVint_length 7 value 1) in
  (1 <= L <= 8)%nat /\ value < 2 ^ (7 * Z.of_nat L) /\
  encodeVint value
  = store (bigEndian L value) 0
      (ToUint8 (JS.or (num_of (load (bigEndian L value) 0))
                      (shl 1 (8 - Z.of_nat L)))).
Proof.
  intros Hv. cbv zeta.
  pose proof (encodeVint_length_bound value) as [Hr Hb]. cbv zeta in Hr, Hb.
  unfold encodeVint.
  set (L := encodeVint_length 7 value 1) in *.
  split; [lia|]. rewrite Z2Nat.id by lia. split.
  - assert (E : L = 1 \/ L = 2 \/ L = 3 \/ L = 4 \/ L = 5 \/ L = 6 \/ L = 7 \/ L = 8)
      by lia.
    repeat (destruct E as [E|E]; [rewrite E in *; eval_pows; lia|]).
    rewrite E in *; eval_pows; lia.
  - rewrite uintToArray_loop_int32 by (rewrite ?repeat_length; lia).
    rewrite (skipn_all2 (repeat x00 (Z.to_nat L)))
      by (rewrite repeat_length; lia).
    rewrite app_nil_r. reflexivity.
Qed.

(** Reading back the size field: below 2^31 the reader recovers the value and
    leaves exactly what follows the field. *)
Lemma decodeVint_encodeVint (value : Z) (tl : list byte) :
  0 <= value < 2 ^ 31 ->
  decodeVint (encodeVint value ++ tl) = Some (value, tl).
Proof.
  intros Hv. destruct (encodeVint_int31 value Hv) as (HL & Hb & E).
  rewrite E. apply decodeVint_marked; [exact HL | lia].
Qed.

(** C2, at the first value the 32-bit shifts do not survive: the encoder chooses
    five bytes for 2^31, fills them from the sign-extended 32-bit value, and the
    result [ff 80 00 00 00] reads back as the one-byte vint 127. *)
Theorem encodeVint_misread_at_2p31 :
  encodeVint_length 7 (2 ^ 31) 1 = 5
  /\ encodeVint (2 ^ 31) = [xff; x80; x00; x00; x00]
  /\ decodeVint (encodeVint (2 ^ 31)) = Some (127, [x80; x00; x00; x00]).
Proof. vm_compute. repeat split. Qed.

(** The boundary values of the width classes all read back. *)
Example decodeVint_boundaries :
  map (fun n => decodeVint (encodeVint n))
      [0; 1; 126; 127; 128; 16383; 16384; 2000000]
  = map (fun n => Some (n, []))
      [0; 1; 126; 127; 128; 16383; 16384; 2000000].
Proof. vm_compute. reflexivity. Qed.

(** * Element framing *)

(** What holds of every element: the layout and the total length; and, for a
    payload shorter than 2^31 bytes, the size field reads back as the payload
    length and is followed by the payload. *)
Lemma encodeElement_framing (id : list Z) (data : list byte) :
  encodeElement id data
  = map ToUint8 id ++ encodeVint (Z.of_nat (length data)) ++ data
  /\ length (encodeElement id data)
     = (length id + length (encodeVint (Z.of_nat (length data))) + length data)%nat
  /\ (Z.of_nat (length data) < 2 ^ 31 ->
      decodeVint (skipn (length id) (encodeElement id data))
      = Some (Z.of_nat (length data), data)).
Proof.
  rewrite encodeElement_app. split; [reflexivity|]. split.
  - rewrite !length_app, length_map. lia.
  - intros Hn. rewrite <- (length_map ToUint8 id) at 1.
    rewrite skipn_app, skipn_all, Nat.sub_diag. cbn [skipn app].
    apply decodeVint_encodeVint. lia.
Qed.

(** C1, at a payload of 2^31 bytes: the element is still
    [id || size || data], but its size field is the misencoded vint of C2 and
    reads back as 127, followed by four stray bytes before the payload. *)
Theorem encodeElement_size_misread_at_2GiB :
  let data := repeat x00 (Z.to_nat (2 ^ 31)) in
  encodeElement [0xa3] data = [xa3] ++ [xff; x80; x00; x00; x00] ++ data
  /\ decodeVint (skipn 1 (encodeElement [0xa3] data))
     = Some (127, [x80; x00; x00; x00] ++ data)
  /\ Z.of_nat (length data) = 2 ^ 31.
Proof.
  cbv zeta.
  assert (Hlen : Z.of_nat (length (repeat x00 (Z.to_nat (2 ^ 31)))) = 2 ^ 31).
  { rewrite repeat_length. apply Z2Nat.id. apply Z.pow_nonneg. discriminate. }
  remember (repeat x00 (Z.to_nat (2 ^ 31))) as data eqn:Hdata. clear Hdata.
  rewrite encodeElement_app, Hlen.
  change (2 ^ 31) with 2147483648. rewrite encodeVint_2p31.
  repeat split; try assumption.
Qed.

(** * The scan for the image chunk *)

Lemma load_nat (webp : list byte) (i j : nat) :
  load webp (Z.of_nat i + Z.of_nat j) = nth_error (skipn i webp) j.
Proof.
  unfold load. rewrite <- Nat2Z.inj_add.
  replace (Z.of_nat (i + j) <? 0) with false by (symmetry; apply Z.ltb_ge; lia).
  rewrite Nat2Z.id, nth_error_skipn. reflexivity.
Qed.

Lemma load_nat_0 (webp : list byte) (i : nat) :
  load webp (Z.of_nat i) = nth_error (skipn i webp) 0.
Proof.
  rewrite <- (load_nat webp i 0). f_equal. simpl. lia.
Qed.

Lemma strict_eq_true (o : option byte) (k : nat) (b : byte) :
  nth k signature 0 = byte_to_Z b ->
  strict_eq o k = true <-> o = Some b.
Proof.
  intros Hk. unfold strict_eq. destruct o as [c|]; [|split; discriminate].
  rewrite Hk, Z.eqb_eq. split.
  - intros H. f_equal. apply byte_to_Z_inj, H.
  - intros H. injection H as ->. reflexivity.
Qed.

(** The four comparisons of the scan hold at [i] exactly when the tag occurs
    there. *)
Lemma signature_test (webp : list byte) (i : nat) :
  strict_eq (load webp (Z.of_nat i)) 0
  && strict_eq (load webp (Z.of_nat i + 1)) 1
  && strict_eq (load webp (Z.of_nat i + 2)) 2
  && strict_eq (load webp (Z.of_nat i + 3)) 3 = true
  <-> occursAt webp i.
Proof.
  rewrite load_nat_0.
  change 1 with (Z.of_nat 1). change 2 with (Z.of_nat 2). change 3 with (Z.of_nat 3).
  rewrite !load_nat. unfold occursAt, vp8Tag.
  rewrite !andb_true_iff.
  rewrite (strict_eq_true _ 0 x56), (strict_eq_true _ 1 x50),
          (strict_eq_true _ 2 x38), (strict_eq_true _ 3 x20) by reflexivity.
  split.
  - intros [[[H1 H2] H3] H4].
    destruct (skipn i webp) as [|a [|b [|c [|d r]]]]; cbn [nth_error firstn] in *;
      try discriminate; congruence.
  - intros H.
    destruct (skipn i webp) as [|a [|b [|c [|d r]]]]; cbn [nth_error firstn] in *;
      try discriminate.
    injection H as -> -> -> ->. auto.
Qed.

Lemma extract_loop_error (n : nat) (webp : list byte) (i0 : nat) :
  (forall i, (i0 <= i < i0 + n)%nat -> ~ occursAt webp i) ->
  extractVP8Bitstream_loop n webp (Z.of_nat i0) = inl notFound.
Proof.
  revert i0; induction n as [|n IH]; intros i0 H; cbn [extractVP8Bitstream_loop].
  - reflexivity.
  - destruct (strict_eq (load webp (Z.of_nat i0)) 0 && _ && _ && _) eqn:M.
    + apply signature_test in M. exfalso. apply (H i0); [lia | exact M].
    + replace (Z.of_nat i0 + 1) with (Z.of_nat (S i0)) by lia.
      apply IH. intros i Hi. apply H. lia.
Qed.

Lemma extract_loop_first (n : nat) (webp : list byte) (i0 k : nat) :
  (i0 <= k < i0 + n)%nat -> occursAt webp k ->
  (forall i, (i0 <= i < k)%nat -> ~ occursAt webp i) ->
  extractVP8Bitstream_loop n webp (Z.of_nat i0) = inr (chunkAt webp k).
Proof.
  revert i0; induction n as [|n IH]; intros i0 Hk Hocc Hno; [lia|].
  cbn [extractVP8Bitstream_loop].
  destruct (strict_eq (load webp (Z.of_nat i0)) 0 && _ && _ && _) eqn:M.
  - apply signature_test in M.
    destruct (Nat.eq_dec i0 k) as [->|Hne]; [reflexivity|].
    exfalso. apply (Hno i0); [lia | exact M].
  - assert (i0 <> k).
    { intros ->. apply signature_test in Hocc. congruence. }
    replace (Z.of_nat i0 + 1) with (Z.of_nat (S i0)) by lia.
    apply IH; [lia | exact Hocc |]. intros i Hi. apply Hno. lia.
Qed.

(** Among the offsets of a range, either the tag occurs nowhere or there is a
    first occurrence. *)
Lemma first_occurrence (webp : list byte) (n i0 : nat) :
  (forall i, (i0 <= i < i0 + n)%nat -> ~ occursAt webp i)
  \/ exists k, (i0 <= k < i0 + n)%nat /\ occursAt webp k
               /\ forall i, (i0 <= i < k)%nat -> ~ occursAt webp i.
Proof.
  revert i0; induction n as [|n IH]; intros i0.
  - left. intros i Hi. lia.
  - destruct (list_eq_dec Byte.byte_eq_dec (firstn 4 (skipn i0 webp)) vp8Tag)
      as [Hocc|Hno].
    + right. exists i0. split; [lia|]. split; [exact Hocc|]. intros i Hi. lia.
    + destruct (IH (S i0)) as [Hnone|(k & Hk & Hocc & Hfirst)].
      * left. intros i Hi. destruct (Nat.eq_dec i i0) as [->|]; [exact Hno|].
        apply Hnone. lia.
      * right. exists k. split; [lia|]. split; [exact Hocc|].
        intros i Hi. destruct (Nat.eq_dec i i0) as [->|]; [exact Hno|].
        apply Hfirst. lia.
Qed.

Lemma scanned_range (webp : list byte) (i : nat) :
  scanned webp i
  <-> (0 <= i < 0 + Z.to_nat (Z.of_nat (length webp) - 10 + 1))%nat.
Proof. unfold scanned. lia. Qed.

(** The two outcomes of the scan. *)
Lemma extractVP8Bitstream_cases (webp : list byte) :
  (extractVP8Bitstream webp = inl notFound
   /\ forall i, scanned webp i -> ~ occursAt webp i)
  \/ (exists k, scanned webp k /\ occursAt webp k
                /\ (forall i, (i < k)%nat -> ~ occursAt webp i)
                /\ extractVP8Bitstream webp = inr (chunkAt webp k)).
Proof.
  unfold extractVP8Bitstream.
  set (n := Z.to_nat (Z.of_nat (length webp) - 10 + 1)).
  destruct (first_occurrence webp n 0) as [Hnone|(k & Hk & Hocc & Hfirst)].
  - left. pose proof (extract_loop_error n webp 0 Hnone) as E.
    change (Z.of_nat 0) with 0 in E. split; [exact E|].
    intros i Hi. apply Hnone, scanned_range, Hi.
  - right. exists k.
    pose proof (extract_loop_first n webp 0 k Hk Hocc Hfirst) as E.
    change (Z.of_nat 0) with 0 in E.
    split; [apply scanned_range, Hk|]. split; [exact Hocc|].
    split; [|exact E]. intros i Hi. apply Hfirst. lia.
Qed.

Lemma extractVP8Bitstream_error (webp : list byte) (e : exn) :
  extractVP8Bitstream webp = inl e -> e = notFound.
Proof.
  intros He.
  destruct (extractVP8Bitstream_cases webp) as [[E _]|(k & _ & _ & _ & E)];
    congruence.
Qed.

(** C5. The extractor throws (its one error) exactly when the tag ["VP8 "]
    occurs at no scanned offset, that is at no [i] with
    [0 <= i <= length - 10]; when the tag occurs at a scanned offset it
    returns a bitstream and does not throw. *)
Theorem extractVP8Bitstream_error_iff (webp : list byte) :
  ((exists e, extractVP8Bitstream webp = inl e)
   <-> (forall i, scanned webp i -> ~ occursAt webp i))
  /\ (forall e, extractVP8Bitstream webp = inl e -> e = notFound)
  /\ ((exists i, scanned webp i /\ occursAt webp i)
      <-> (exists bitstream, extractVP8Bitstream webp = inr bitstream)).
Proof.
  destruct (extractVP8Bitstream_cases webp)
    as [[E Hnone]|(k & Hk & Hocc & _ & E)]; rewrite E; repeat split.
  - intros _. exact Hnone.
  - intros _. exists notFound. reflexivity.
  - intros e He. congruence.
  - intros (i & Hi & Hocc). exfalso. exact (Hnone i Hi Hocc).
  - intros (b & Hb). discriminate.
  - intros (e & He). discriminate.
  - intros Hnone. exfalso. exact (Hnone k Hk Hocc).
  - intros e He. discriminate.
  - intros _. exists (chunkAt webp k). reflexivity.
  - intros _. exists k. split; [exact Hk | exact Hocc].
Qed.

(** * Reading the chunk size *)

Lemma land_disjoint (a b k : Z) :
  0 <= k -> 0 <= a < 2 ^ k -> Z.land a (b * 2 ^ k) = 0.
Proof.
  intros Hk Ha. apply Z.bits_inj'. intros n Hn.
  rewrite Z.land_spec, Z.bits_0.
  destruct (Z.lt_ge_cases n k) as [Hlt|Hge].
  - rewrite Z.mul_pow2_bits_low by lia. apply andb_false_r.
  - destruct (Z.eq_dec a 0) as [->|Hne]; [now rewrite Z.bits_0|].
    rewrite (Z.bits_above_log2 a n); [reflexivity | lia |].
    apply Z.log2_lt_pow2; [lia|].
    apply Z.lt_le_trans with (2 ^ k); [lia|].
    apply Z.pow_le_mono_r; lia.
Qed.

Lemma or_disjoint (a b k : Z) :
  0 <= k -> 0 <= a < 2 ^ k -> 0 <= b -> a + b * 2 ^ k < 2 ^ 31 ->
  JS.or a (b * 2 ^ k) = a + b * 2 ^ k.
Proof.
  intros Hk Ha Hb Hs. unfold JS.or.
  assert (0 <= b * 2 ^ k) by (apply Z.mul_nonneg_nonneg; lia).
  rewrite !ToInt32_small by lia.
  rewrite <- Z.lxor_lor, <- Z.add_nocarry_lxor by (apply land_disjoint; lia).
  reflexivity.
Qed.

Lemma shl_small (a k : Z) :
  0 <= k < 32 -> 0 <= a -> a * 2 ^ k < 2 ^ 31 -> shl a k = a * 2 ^ k.
Proof.
  intros Hk Ha Hs. unfold shl.
  assert (a <= a * 2 ^ k).
  { assert (1 <= 2 ^ k) by (apply (Z.pow_le_mono_r 2 0 k); lia). nia. }
  rewrite (ToInt32_small a) by lia.
  rewrite Z.mod_small by lia. rewrite Z.shiftl_mul_pow2 by lia.
  apply ToInt32_small. nia.
Qed.

(** The four bytes after the tag, combined as the scan combines them, give the
    chunk size back as long as it is below 2^31. *)
Lemma littleEndian32_read (L : Z) :
  0 <= L < 2 ^ 31 ->
  JS.or (JS.or (JS.or (L mod 256) (shl (L / 256 mod 256) 8))
               (shl (L / 256 / 256 mod 256) 16))
        (shl (L / 256 / 256 / 256 mod 256) 24)
  = L.
Proof.
  intros HL.
  pose proof (Z.div_mod L 256 ltac:(lia)) as E0.
  pose proof (Z.mod_pos_bound L 256 ltac:(lia)) as B0.
  pose proof (Z.div_mod (L / 256) 256 ltac:(lia)) as E1.
  pose proof (Z.mod_pos_bound (L / 256) 256 ltac:(lia)) as B1.
  pose proof (Z.div_mod (L / 256 / 256) 256 ltac:(lia)) as E2.
  pose proof (Z.mod_pos_bound (L / 256 / 256) 256 ltac:(lia)) as B2.
  pose proof (Z.div_mod (L / 256 / 256 / 256) 256 ltac:(lia)) as E3.
  pose proof (Z.mod_pos_bound (L / 256 / 256 / 256) 256 ltac:(lia)) as B3.
  set (b0 := L mod 256) in *. set (b1 := L / 256 mod 256) in *.
  set (b2 := L / 256 / 256 mod 256) in *.
  set (b3 := L / 256 / 256 / 256 mod 256) in *.
  assert (H3 : 0 <= L / 256 / 256 / 256 / 256) by lia.
  assert (Hsum : L = b0 + b1 * 2 ^ 8 + b2 * 2 ^ 16 + b3 * 2 ^ 24
                 /\ b3 < 128).
  { eval_pows. lia. }
  destruct Hsum as [Hsum Hb3].
  rewrite (shl_small b1 8), (shl_small b2 16), (shl_small b3 24)
    by (eval_pows; lia).
  rewrite (or_disjoint b0 b1 8) by (eval_pows; lia).
  replace (b0 + b1 * 2 ^ 8 + b2 * 2 ^ 16) with ((b0 + b1 * 2 ^ 8) + b2 * 2 ^ 16)
    in Hsum by lia.
  rewrite (or_disjoint (b0 + b1 * 2 ^ 8) b2 16) by (eval_pows; lia).
  rewrite (or_disjoint (b0 + b1 * 2 ^ 8 + b2 * 2 ^ 16) b3 24) by (eval_pows; lia).
  lia.
Qed.

Lemma subarray_exact (pre p : list byte) :
  subarray (pre ++ p) (Z.of_nat (length pre))
    (Z.of_nat (length pre) + Z.of_nat (length p)) = p.
Proof.
  unfold subarray, clampIndex. rewrite length_app, Nat2Z.inj_add.
  replace (Z.of_nat (length pre) <? 0) with false by (symmetry; apply Z.ltb_ge; lia).
  replace (Z.of_nat (length pre) + Z.of_nat (length p) <? 0) with false
    by (symmetry; apply Z.ltb_ge; lia).
  rewrite !Z.min_l by lia.
  replace (Z.max (Z.of_nat (length pre) + Z.of_nat (length p)
                  - Z.of_nat (length pre)) 0) with (Z.of_nat (length p)) by lia.
  rewrite !Nat2Z.id, skipn_app, skipn_all, Nat.sub_diag. cbn [skipn app].
  apply firstn_all.
Qed.

(** * The synthetic still image: header, tag, size, payload *)

Lemma window_inside (header rest : list byte) (i : nat) :
  (i + 4 <= length header)%nat ->
  firstn 4 (skipn i (header ++ rest)) = firstn 4 (skipn i header).
Proof.
  intros Hi. rewrite skipn_app, firstn_app, length_skipn.
  replace (4 - (length header - i))%nat with 0%nat by lia.
  rewrite firstn_O. apply app_nil_r.
Qed.

(** No occurrence of the tag starts inside a header that does not contain it:
    one that straddles the end of the header would have the first byte of the
    tag at the place of its second, third or fourth. *)
Lemma synthetic_no_early_match (header rest : list byte) (i : nat) :
  (forall j, ~ occursAt header j) ->
  (i < length header)%nat -> ~ occursAt (header ++ vp8Tag ++ rest) i.
Proof.
  intros Hno Hi H. unfold occursAt in H.
  destruct (Nat.le_gt_cases (i + 4) (length header)) as [Hin|Hout].
  - rewrite window_inside in H by exact Hin. exact (Hno i H).
  - apply (f_equal (fun l => nth_error l (length header - i))) in H.
    rewrite nth_error_firstn, nth_error_skipn in H.
    replace (length header - i <? 4)%nat with true in H
      by (symmetry; apply Nat.ltb_lt; lia).
    replace (i + (length header - i))%nat with (length header) in H by lia.
    rewrite nth_error_app2, Nat.sub_diag in H by lia.
    assert (E : (length header - i = 1 \/ length header - i = 2
                 \/ length header - i = 3)%nat) by lia.
    destruct E as [E|[E|E]]; rewrite E in H; discriminate H.
Qed.

Lemma zeros_no_tag (n j : nat) : ~ occursAt (repeat x00 n) j.
Proof.
  unfold occursAt. intros H.
  apply (f_equal (fun l => nth_error l 0)) in H.
  rewrite nth_error_firstn, nth_error_skipn in H. cbn in H.
  apply nth_error_In, repeat_spec in H. discriminate H.
Qed.

Lemma littleEndian32_length (L : Z) : length (littleEndian32 L) = 4%nat.
Proof.
  unfold littleEndian32. rewrite length_rev. apply bigEndian_length.
Qed.

Create Rewrite HintDb lengths.

#[local] Hint Rewrite @length_app @length_map repeat_length bigEndian_length
  littleEndian32_length : lengths.

Section Synthetic.

(** A header of 13 bytes in which the tag does not occur. *)
Variable header : list byte.
Hypothesis header_length : length header = 13%nat.
Hypothesis header_clean : forall j, ~ occursAt header j.

(** With a payload of at least two bytes, the scan stops at the tag
    (offset 13). *)
Lemma extract_synthetic_chunk (p : list byte) (L : Z) :
  (2 <= length p)%nat ->
  extractVP8Bitstream (synthetic header L p)
  = inr (chunkAt (synthetic header L p) 13).
Proof.
  intros Hp. unfold extractVP8Bitstream, synthetic.
  pose proof (extract_loop_first
                (Z.to_nat (Z.of_nat (length (header ++ vp8Tag ++ littleEndian32 L ++ p))
                           - 10 + 1))
                (header ++ vp8Tag ++ littleEndian32 L ++ p) 0 13) as E.
  change (Z.of_nat 0) with 0 in E. apply E; clear E.
  - autorewrite with lengths. rewrite header_length. cbn [length vp8Tag]. lia.
  - unfold occursAt.
    rewrite <- header_length, skipn_app, skipn_all, Nat.sub_diag.
    reflexivity.
  - intros i Hi. apply synthetic_no_early_match; [exact header_clean | lia].
Qed.

Lemma synthetic_size_bytes (p : list byte) (L : Z) (j : nat) :
  load (synthetic header L p) (Z.of_nat 13 + Z.of_nat (4 + j))
  = nth_error (littleEndian32 L ++ p) j.
Proof.
  rewrite load_nat. unfold synthetic.
  rewrite <- header_length, skipn_app, skipn_all, Nat.sub_diag. reflexivity.
Qed.

(** The size that the scan reads at the tag. *)
Lemma synthetic_chunk (p : list byte) (L : Z) :
  chunkAt (synthetic header L p) 13
  = subarray (synthetic header L p) 21
      (21 + JS.or (JS.or (JS.or (L mod 256) (shl (L / 256 mod 256) 8))
                         (shl (L / 256 / 256 mod 256) 16))
                  (shl (L / 256 / 256 / 256 mod 256) 24)).
Proof.
  unfold chunkAt.
  change (Z.of_nat 13 + 4) with (Z.of_nat 13 + Z.of_nat (4 + 0)).
  change (Z.of_nat 13 + 5) with (Z.of_nat 13 + Z.of_nat (4 + 1)).
  change (Z.of_nat 13 + 6) with (Z.of_nat 13 + Z.of_nat (4 + 2)).
  change (Z.of_nat 13 + 7) with (Z.of_nat 13 + Z.of_nat (4 + 3)).
  rewrite !synthetic_size_bytes.
  cbn [littleEndian32 bigEndian app rev nth_error num_of].
  rewrite !byte_to_Z_ToUint8. reflexivity.
Qed.

Lemma synthetic_split (p : list byte) (L : Z) :
  synthetic header L p = (header ++ vp8Tag ++ littleEndian32 L) ++ p
  /\ length (header ++ vp8Tag ++ littleEndian32 L) = 21%nat.
Proof.
  unfold synthetic. split; [now rewrite <- !app_assoc|].
  autorewrite with lengths. rewrite header_length. reflexivity.
Qed.

(** C4, as amended: for a payload of at least 2 and fewer than 2^31 bytes, the
    extractor applied to [13 bytes without the tag] + ["VP8 "] + [little-endian
    length] + [payload] returns exactly the payload. *)
Theorem extractVP8Bitstream_synthetic (p : list byte) :
  2 <= Z.of_nat (length p) < 2 ^ 31 ->
  extractVP8Bitstream (synthetic header (Z.of_nat (length p)) p) = inr p.
Proof.
  intros HL.
  rewrite extract_synthetic_chunk by lia. f_equal.
  rewrite synthetic_chunk, littleEndian32_read by lia.
  destruct (synthetic_split p (Z.of_nat (length p))) as [E Hpre].
  rewrite E. change 21 with (Z.of_nat 21). rewrite <- Hpre.
  apply subarray_exact.
Qed.

(** The declared length 2^31 is read as the 32-bit value -2^31, the end of the
    slice is then counted from the end of the buffer, and the extractor
    returns 21 bytes of a payload of 2^31. *)
Lemma extractVP8Bitstream_synthetic_2GiB (p : list byte) :
  Z.of_nat (length p) = 2 ^ 31 ->
  extractVP8Bitstream (synthetic header (2 ^ 31) p) = inr (firstn 21 p)
  /\ length (firstn 21 p) = 21%nat.
Proof.
  intros Hlen.
  split; [|apply firstn_length_le; lia].
  rewrite extract_synthetic_chunk by lia. f_equal.
  rewrite synthetic_chunk.
  replace (JS.or (JS.or (JS.or (2 ^ 31 mod 256) (shl (2 ^ 31 / 256 mod 256) 8))
                        (shl (2 ^ 31 / 256 / 256 mod 256) 16))
                 (shl (2 ^ 31 / 256 / 256 / 256 mod 256) 24))
    with (- 2 ^ 31) by (vm_compute; reflexivity).
  destruct (synthetic_split p (2 ^ 31)) as [E Hpre]. rewrite E.
  unfold subarray, clampIndex.
  rewrite length_app, Hpre, Nat2Z.inj_add, Hlen.
  replace (21 <? 0) with false by reflexivity.
  replace (21 + - 2 ^ 31 <? 0) with true by reflexivity.
  replace (Z.min 21 (Z.of_nat 21 + 2 ^ 31)) with 21 by reflexivity.
  replace (Z.max (Z.of_nat 21 + 2 ^ 31 + (21 + - 2 ^ 31)) 0) with 42 by reflexivity.
  change (Z.to_nat (Z.max (42 - 21) 0)) with 21%nat.
  change (Z.to_nat 21) with 21%nat. rewrite <- Hpre at 2.
  rewrite skipn_app, skipn_all, Nat.sub_diag. reflexivity.
Qed.

End Synthetic.

(** A 13-byte header of zeros, the tag, the length and the payload
    [9d 01]: the extractor returns the payload. *)
Lemma extractVP8Bitstream_synthetic_witness :
  extractVP8Bitstream (synthetic (repeat x00 13) 2 [x9d; x01]) = inr [x9d; x01].
Proof.
  apply (extractVP8Bitstream_synthetic (repeat x00 13) eq_refl
           (zeros_no_tag 13) [x9d; x01]).
  simpl. lia.
Defined.

(** C4 as stated fails for the payloads of length 0 and 1: the tag sits at
    offset 13, past the last scanned offset ([length - 10], that is 11 and 12),
    and the extractor throws instead of returning the payload. *)
Lemma extractVP8Bitstream_synthetic_short :
  (forall j, ~ occursAt (repeat x00 13) j)
  /\ extractVP8Bitstream (synthetic (repeat x00 13) 0 []) = inl notFound
  /\ extractVP8Bitstream (synthetic (repeat x00 13) 1 [x9d]) = inl notFound.
Proof.
  split; [apply zeros_no_tag|]. split; vm_compute; reflexivity.
Qed.

(** * The assembler writes the document tree *)

Lemma encodeElement_framed (id : list Z) (data : list byte) :
  encodeElement id data = framed id data.
Proof. apply encodeElement_app. Qed.

Lemma createSimpleBlock_serialize (vp8Frame : list byte) (timecode : number) :
  createSimpleBlock vp8Frame timecode
  = serialize (Elem Id.SimpleBlock
                 (simpleBlockPayload 1 (Num.to_integer timecode) x80 vp8Frame)).
Proof.
  unfold createSimpleBlock. rewrite encodeElement_framed, concatArrays_concat.
  cbn [serialize]. f_equal. unfold simpleBlockPayload.
  cbn [concat repeat store Uint8Array_of map app].
  rewrite app_nil_r. set (t := Num.to_integer timecode).
  pose proof (uintToArray_bigEndian t 2 ltac:(lia)) as H.
  unfold uintToArray in H. cbn [uintToArray_loop repeat store] in H.
  rewrite <- H. reflexivity.
Qed.

Lemma createWebM_loop_blocks (frames : list (list byte)) (d t : number)
    (acc : list (list byte)) :
  fst (fold_left (createWebM_step d) frames (acc, t))
  = acc ++ map serialize (blocksFrom t d frames).
Proof.
  revert acc t; induction frames as [|frame rest IH]; intros acc t.
  - simpl. now rewrite app_nil_r.
  - cbn [fold_left createWebM_step blocksFrom map].
    rewrite IH, createSimpleBlock_serialize, <- app_assoc. reflexivity.
Qed.

(** [createWebM] writes exactly the document tree, element by element. *)
Lemma createWebM_document (nanBits : Z) (frames : list (list byte)) (d : number)
    (width height : Z) :
  createWebM nanBits frames d width height
  = serializeAll (document nanBits frames d width height).
Proof.
  unfold createWebM.
  pose proof (createWebM_loop_blocks frames d (Int 0) []) as Hb.
  destruct (fold_left (createWebM_step d) frames ([], Int 0)) as [simpleBlocks t'].
  cbn [fst app] in Hb. subst simpleBlocks.
  rewrite !encodeElement_framed, !concatArrays_concat.
  rewrite !uintToArray_bigEndian by lia.
  unfold document, serializeAll, ebmlHeader, segmentInfo, tracks, cluster.
  cbn [map serialize concat]. rewrite !app_nil_r. reflexivity.
Qed.

(** * Reading a document back *)

Lemma wf_Master_iff (id : list Z) (children : list ebml) :
  wf (Master id children)
  <-> wfId id /\ isMaster id = true
      /\ Z.of_nat (length (serializeAll children)) < 2 ^ 31
      /\ Forall wf children.
Proof.
  cbn [wf]. unfold serializeAll.
  assert (H : (fix all (l : list ebml) : Prop :=
                 match l with
                 | [] => True
                 | c :: l' => wf c /\ all l'
                 end) children <-> Forall wf children).
  { induction children as [|c l IH]; split; intros H.
    - constructor.
    - exact I.
    - destruct H as [Hc Hl]. constructor; [exact Hc | apply IH, Hl].
    - inversion H; subst. split; [assumption | apply IH; assumption]. }
  rewrite H. reflexivity.
Qed.

Lemma nodes_Master (id : list Z) (children : list ebml) :
  nodes (Master id children) = S (nodesAll children).
Proof.
  reflexivity.
Qed.

Lemma readId_framed (id : list Z) (rest : list byte) :
  wfId id -> readId (map ToUint8 id ++ rest) = Some (id, rest).
Proof.
  intros Hwf. destruct id as [|b0 id']; [destruct Hwf|].
  destruct Hwf as (Hw & H4 & Hrange).
  assert (Hback : map byte_to_Z (map ToUint8 (b0 :: id')) = b0 :: id').
  { clear Hw H4. induction Hrange as [|b l Hb _ IH]; [reflexivity|].
    cbn [map]. rewrite IH, byte_to_Z_ToUint8, Z.mod_small by exact Hb.
    reflexivity. }
  unfold readId. cbn [map app].
  assert (Hb0 : byte_to_Z (ToUint8 b0) = b0).
  { inversion Hrange; subst. rewrite byte_to_Z_ToUint8. apply Z.mod_small.
    assumption. }
  rewrite Hb0, Hw.
  replace (length (b0 :: id') <=? 4)%nat with true
    by (symmetry; apply Nat.leb_le; exact H4).
  replace (length (b0 :: id') <=? length (ToUint8 b0 :: map ToUint8 id' ++ rest))%nat
    with true
    by (symmetry; apply Nat.leb_le; cbn [length];
        rewrite length_app, length_map; lia).
  cbn [andb].
  change (ToUint8 b0 :: map ToUint8 id' ++ rest)
    with (map ToUint8 (b0 :: id') ++ rest).
  rewrite <- (length_map ToUint8 (b0 :: id')).
  rewrite firstn_app, firstn_all, Nat.sub_diag, firstn_O, app_nil_r.
  rewrite skipn_app, skipn_all, Nat.sub_diag. cbn [skipn app].
  rewrite Hback. reflexivity.
Qed.

Lemma readElement_framed (id : list Z) (payload rest : list byte) :
  wfId id -> Z.of_nat (length payload) < 2 ^ 31 ->
  readElement (framed id payload ++ rest) = Some (id, payload, rest).
Proof.
  intros Hid Hlen. unfold readElement, framed.
  rewrite <- !app_assoc, readId_framed by exact Hid.
  rewrite decodeVint_encodeVint by lia.
  replace (Z.of_nat (length payload) <=? Z.of_nat (length (payload ++ rest)))
    with true by (symmetry; apply Z.leb_le; rewrite length_app; lia).
  rewrite Nat2Z.id.
  rewrite firstn_app, firstn_all, Nat.sub_diag, firstn_O, app_nil_r.
  rewrite skipn_app, skipn_all, Nat.sub_diag. reflexivity.
Qed.

Lemma framed_cons (id : list Z) (payload : list byte) :
  wfId id -> exists b bs, framed id payload = b :: bs.
Proof.
  intros Hid. destruct id as [|b0 id']; [destruct Hid|].
  unfold framed. cbn [map app]. eauto.
Qed.

Lemma readElements_step (fuel : nat) (bs : list byte) :
  bs <> [] ->
  readElements (S fuel) bs
  = match readElement bs with
    | Some (id, payload, rest) =>
        match (if isMaster id
               then option_map (Master id) (readElements fuel payload)
               else Some (Elem id payload)),
              readElements fuel rest with
        | Some e, Some es => Some (e :: es)
        | _, _ => None
        end
    | None => None
    end.
Proof.
  intros Hne. destruct bs; [congruence | reflexivity].
Qed.

Lemma framed_app_nonempty (id : list Z) (payload rest : list byte) :
  wfId id -> framed id payload ++ rest <> [].
Proof.
  intros Hid. destruct (framed_cons id payload Hid) as (b & bs & E).
  rewrite E. discriminate.
Qed.

(** The reader inverts the writer on well-formed trees, with one unit of fuel
    per element. *)
Lemma readElements_serializeAll (fuel : nat) (es : list ebml) :
  Forall wf es -> (nodesAll es <= fuel)%nat ->
  readElements fuel (serializeAll es) = Some es.
Proof.
  revert es; induction fuel as [|fuel IH]; intros es Hwf Hfuel.
  - destruct es as [|e es]; [reflexivity|].
    cbn [nodesAll fold_right] in Hfuel. destruct e; cbn [nodes] in Hfuel; lia.
  - destruct es as [|e es]; [reflexivity|].
    inversion Hwf as [|? ? He Hes]; subst.
    cbn [nodesAll fold_right] in Hfuel. fold (nodesAll es) in Hfuel.
    unfold serializeAll. cbn [map concat]. fold (serializeAll es).
    destruct e as [id payload|id children].
    + destruct He as (Hid & Hm & Hlen). cbn [serialize nodes] in *.
      rewrite readElements_step by (apply framed_app_nonempty, Hid).
      rewrite readElement_framed by assumption.
      rewrite Hm, (IH es Hes) by lia. reflexivity.
    + apply wf_Master_iff in He. destruct He as (Hid & Hm & Hlen & Hch).
      rewrite nodes_Master in Hfuel. cbn [serialize].
      fold (serializeAll children).
      rewrite readElements_step by (apply framed_app_nonempty, Hid).
      rewrite readElement_framed by assumption.
      rewrite Hm, (IH children Hch) by lia. cbn [option_map].
      rewrite (IH es Hes) by lia. reflexivity.
Qed.

Lemma ebml_nested_ind (P : ebml -> Prop) :
  (forall id payload, P (Elem id payload)) ->
  (forall id children, Forall P children -> P (Master id children)) ->
  forall e, P e.
Proof.
  intros HE HM. fix IH 1. intros [id payload|id children].
  - apply HE.
  - apply HM. revert children. fix IHl 1. intros [|c l].
    + constructor.
    + constructor; [apply IH | apply IHl].
Qed.

Lemma length_framed (id : list Z) (payload : list byte) :
  length (framed id payload)
  = (length id + length (encodeVint (Z.of_nat (length payload))) + length payload)%nat.
Proof.
  unfold framed. rewrite !length_app, length_map. lia.
Qed.

Lemma wfId_nonempty (id : list Z) : wfId id -> (1 <= length id)%nat.
Proof.
  destruct id; [intros [] | intros _; simpl; lia].
Qed.

Lemma nodesAll_le_length (es : list ebml) :
  Forall wf es -> (nodesAll es <= length (serializeAll es))%nat.
Proof.
  assert (H : forall e, wf e -> (nodes e <= length (serialize e))%nat).
  { induction e as [id payload|id children IH] using ebml_nested_ind; intros Hwf.
    - destruct Hwf as (Hid & _). cbn [nodes serialize].
      rewrite length_framed. apply wfId_nonempty in Hid. lia.
    - apply wf_Master_iff in Hwf. destruct Hwf as (Hid & _ & _ & Hch).
      rewrite nodes_Master. cbn [serialize]. fold (serializeAll children).
      rewrite length_framed. apply wfId_nonempty in Hid.
      assert (nodesAll children <= length (serializeAll children))%nat; [|lia].
      clear Hid. induction children as [|c l IHl]; [simpl; lia|].
      inversion IH; subst. inversion Hch; subst.
      unfold serializeAll. cbn [nodesAll fold_right map concat].
      fold (nodesAll l). fold (serializeAll l). rewrite length_app.
      specialize (IHl ltac:(assumption) ltac:(assumption)).
      assert (nodes c <= length (serialize c))%nat by auto. lia. }
  intros Hwf. induction Hwf as [|e l He _ IHl]; [simpl; lia|].
  unfold serializeAll. cbn [nodesAll fold_right map concat].
  fold (nodesAll l). fold (serializeAll l). rewrite length_app.
  specialize (H e He). lia.
Qed.

(** A well-formed list of elements reads back from its bytes. *)
Lemma readDocument_serializeAll (es : list ebml) :
  Forall wf es -> readDocument (serializeAll es) = Some es.
Proof.
  intros Hwf. unfold readDocument.
  apply readElements_serializeAll; [exact Hwf | apply nodesAll_le_length, Hwf].
Qed.

(** * The document of the assembler is well formed *)

Lemma length_concat_In {A} (x : list A) (l : list (list A)) :
  In x l -> (length x <= length (concat l))%nat.
Proof.
  induction l as [|y l IH]; intros Hin; [destruct Hin|].
  cbn [concat]. rewrite length_app. destruct Hin as [->|Hin]; [lia|].
  specialize (IH Hin). lia.
Qed.

Lemma wfId_closed (id : list Z) (w : nat) :
  vintWidth (hd 0 id) = Some w -> length id = w -> (w <= 4)%nat ->
  forallb (fun b => (0 <=? b) && (b <? 256)) id = true -> wfId id.
Proof.
  intros Hw Hl H4 Hr. destruct id as [|b0 id']; [simpl in Hl; subst; discriminate|].
  cbn [hd] in Hw. unfold wfId. rewrite Hl. split; [exact Hw|]. split; [exact H4|].
  apply Forall_forall. intros b Hb.
  rewrite forallb_forall in Hr. specialize (Hr b Hb).
  apply andb_prop in Hr. destruct Hr as [H0 H1].
  apply Z.leb_le in H0. apply Z.ltb_lt in H1. lia.
Qed.

(** Discharge [wfId] of a literal id. *)
Ltac wf_id :=
  eapply wfId_closed;
  [reflexivity | reflexivity | repeat constructor | reflexivity].

Lemma wf_leaf (id : list Z) (payload : list byte) :
  wfId id -> isMaster id = false -> Z.of_nat (length payload) < 2 ^ 31 ->
  wf (Elem id payload).
Proof. intros; cbn [wf]; auto. Qed.

Lemma wf_blocksFrom (t d : number) (frames : list (list byte)) :
  (forall e, In e (blocksFrom t d frames) ->
             Z.of_nat (length (serialize e)) < 2 ^ 31) ->
  Forall wf (blocksFrom t d frames).
Proof.
  revert t; induction frames as [|f rest IH]; intros t Hlen; [constructor|].
  cbn [blocksFrom] in *. constructor.
  - apply wf_leaf; [wf_id | reflexivity |].
    specialize (Hlen _ (or_introl eq_refl)). cbn [serialize] in Hlen.
    rewrite length_framed in Hlen. lia.
  - apply IH. intros e He. apply Hlen. right. exact He.
Qed.

Lemma wf_ebmlHeader : wf ebmlHeader.
Proof.
  apply wf_Master_iff. split; [wf_id|]. split; [reflexivity|].
  split; [vm_compute; reflexivity|].
  repeat (constructor; [apply wf_leaf; [wf_id | reflexivity | vm_compute; reflexivity]|]).
  constructor.
Qed.

Lemma wf_segmentInfo (nanBits : Z) (duration : spec_float) : wf (segmentInfo nanBits duration).
Proof.
  unfold segmentInfo, float64ToArray. cbn [map].
  generalize (float64_bits nanBits duration). intros bits.
  generalize (ToUint8 (bits / 256 ^ 7)) (ToUint8 (bits / 256 ^ 6))
             (ToUint8 (bits / 256 ^ 5)) (ToUint8 (bits / 256 ^ 4))
             (ToUint8 (bits / 256 ^ 3)) (ToUint8 (bits / 256 ^ 2))
             (ToUint8 (bits / 256 ^ 1)) (ToUint8 (bits / 256 ^ 0)).
  intros. apply wf_Master_iff. split; [wf_id|]. split; [reflexivity|].
  split; [vm_compute; reflexivity|].
  repeat (constructor; [apply wf_leaf; [wf_id | reflexivity | vm_compute; reflexivity]|]).
  constructor.
Qed.

Lemma wf_tracks (width height : Z) : wf (tracks width height).
Proof.
  unfold tracks. cbn [bigEndian app].
  generalize (ToUint8 (width / 256)) (ToUint8 width)
             (ToUint8 (height / 256)) (ToUint8 height).
  intros. apply wf_Master_iff. split; [wf_id|]. split; [reflexivity|].
  split; [vm_compute; reflexivity|].
  constructor; [|constructor].
  apply wf_Master_iff. split; [wf_id|]. split; [reflexivity|].
  split; [vm_compute; reflexivity|].
  repeat (constructor; [apply wf_leaf; [wf_id | reflexivity | vm_compute; reflexivity]|]).
  constructor; [|constructor].
  apply wf_Master_iff. split; [wf_id|]. split; [reflexivity|].
  split; [vm_compute; reflexivity|].
  repeat (constructor; [apply wf_leaf; [wf_id | reflexivity | vm_compute; reflexivity]|]).
  constructor.
Qed.

(** Below 2 GiB in total, every size field of the document is below 2^31 and
    the document is well formed. *)
Lemma wf_document (nanBits : Z) (frames : list (list byte)) (d : number) (width height : Z) :
  Z.of_nat (length (serializeAll (document nanBits frames d width height))) < 2 ^ 31 ->
  Forall wf (document nanBits frames d width height).
Proof.
  unfold document. intros Htotal.
  set (info := segmentInfo nanBits _) in *.
  set (blocks := blocksFrom (Int 0) d frames) in *.
  unfold serializeAll in Htotal. cbn [map concat] in Htotal.
  rewrite app_nil_r, length_app in Htotal.
  change (serialize (Master Id.Segment [info; tracks width height; cluster frames d]))
    with (framed Id.Segment
            (serializeAll [info; tracks width height; cluster frames d])) in Htotal.
  rewrite length_framed in Htotal.
  assert (Hseg : Z.of_nat (length (serializeAll
                   [info; tracks width height; cluster frames d])) < 2 ^ 31) by lia.
  clear Htotal.
  constructor; [apply wf_ebmlHeader|]. constructor; [|constructor].
  apply wf_Master_iff. split; [wf_id|]. split; [reflexivity|].
  split; [exact Hseg|].
  constructor; [apply wf_segmentInfo|]. constructor; [apply wf_tracks|].
  constructor; [|constructor].
  unfold serializeAll in Hseg. cbn [map concat] in Hseg.
  rewrite app_nil_r, !length_app in Hseg.
  unfold cluster in *. fold blocks in Hseg |- *.
  change (serialize (Master Id.Cluster (Elem Id.Timecode [x00; x00] :: blocks)))
    with (framed Id.Cluster
            (serializeAll (Elem Id.Timecode [x00; x00] :: blocks))) in Hseg.
  rewrite length_framed in Hseg.
  assert (Hcl : Z.of_nat (length (serializeAll
                  (Elem Id.Timecode [x00; x00] :: blocks))) < 2 ^ 31) by lia.
  clear Hseg.
  apply wf_Master_iff. split; [wf_id|]. split; [reflexivity|].
  split; [exact Hcl|].
  constructor; [apply wf_leaf; [wf_id | reflexivity | vm_compute; reflexivity]|].
  apply wf_blocksFrom. intros e He.
  unfold serializeAll in Hcl. cbn [map concat] in Hcl.
  rewrite length_app in Hcl.
  pose proof (length_concat_In (serialize e) (map serialize blocks)
                (in_map serialize _ _ He)).
  lia.
Qed.

(** Below 2 GiB, the bytes that [createWebM] returns read back as the
    document tree. *)
Lemma createWebM_readable (nanBits : Z) (frames : list (list byte)) (d : number)
    (width height : Z) :
  Z.of_nat (length (createWebM nanBits frames d width height)) < 2 ^ 31 ->
  readDocument (createWebM nanBits frames d width height)
  = Some (document nanBits frames d width height).
Proof.
  rewrite createWebM_document. intros Htotal.
  apply readDocument_serializeAll, wf_document, Htotal.
Qed.

(** * Frame duration and running timecode *)

(** The frame durations of some frame rates, as the code computes them.
    The binary64 quotient 1000 / 3.2 is exactly 312.5 and rounds to 313,
    where the quotient of the real numbers is below 312.5; a zero gives an
    infinity of its sign, and so does a rate so small that the quotient
    overflows. *)
Example frame_durations :
  map (fun fps => Num.Math_round (Num.div1000 fps))
      [Num.to_double (Int 10); Num.to_double (Int 24); Num.to_double (Int 30);
       double_3_2; S754_zero false; S754_zero true; double_2p_1022; S754_nan]
  = [Int 100; Int 42; Int 33; Int 313; PosInf; NegInf; PosInf; NaN]
  /\ Num.div1000 double_3_2 = S754_finite false 5497558138880000 (-44).
Proof. vm_compute. split; reflexivity. Qed.

Lemma running_timecode_Int (r a : Z) (k : nat) :
  Nat.iter k (fun t => Num.add t (Int r)) (Int a) = Int (a + Z.of_nat k * r).
Proof.
  induction k as [|k IH].
  - simpl. f_equal. lia.
  - rewrite Nat.iter_succ, IH. cbn [Num.add Num.to_integer]. f_equal. lia.
Qed.

Lemma blocksFrom_nth (t d : number) (frames : list (list byte)) (k : nat) :
  nth_error (blocksFrom t d frames) k
  = option_map
      (fun frame =>
         Elem Id.SimpleBlock
           (simpleBlockPayload 1
              (Num.to_integer (Nat.iter k (fun t' => Num.add t' d) t)) x80 frame))
      (nth_error frames k).
Proof.
  revert t k; induction frames as [|f rest IH]; intros t k.
  - destruct k; reflexivity.
  - destruct k as [|k]; [reflexivity|].
    cbn [blocksFrom nth_error]. rewrite IH, Nat.iter_succ_r. reflexivity.
Qed.

Lemma blocksFrom_filter (t d : number) (frames : list (list byte)) :
  filter (sameId Id.SimpleBlock) (blocksFrom t d frames) = blocksFrom t d frames.
Proof.
  revert t; induction frames as [|f rest IH]; intros t; [reflexivity|].
  cbn [blocksFrom filter]. change (sameId Id.SimpleBlock (Elem Id.SimpleBlock _))
    with true. cbv iota. now rewrite IH.
Qed.

Lemma descend_cluster (nanBits : Z) (frames : list (list byte)) (d : number)
    (width height : Z) :
  descend [Id.Segment; Id.Cluster] (document nanBits frames d width height)
  = Elem Id.Timecode [x00; x00] :: blocksFrom (Int 0) d frames.
Proof.
  cbv [descend document filter flat_map childrenOf sameId idOf id_eqb
       Id.Segment Id.Cluster Id.EBML Id.Info Id.Tracks ebmlHeader segmentInfo
       tracks cluster Z.eqb Pos.eqb andb app].
  f_equal. apply app_nil_r.
Qed.

Lemma simpleBlocksOf_document (nanBits : Z) (frames : list (list byte)) (d : number)
    (width height : Z) :
  simpleBlocksOf (document nanBits frames d width height)
  = map payloadOf (blocksFrom (Int 0) d frames).
Proof.
  unfold simpleBlocksOf. rewrite descend_cluster. cbn [filter].
  change (sameId Id.SimpleBlock (Elem Id.Timecode [x00; x00])) with false.
  cbv iota. now rewrite blocksFrom_filter.
Qed.

Lemma simpleBlocksOf_nth (nanBits : Z) (frames : list (list byte)) (d : number)
    (width height : Z) (k : nat) :
  nth_error (simpleBlocksOf (document nanBits frames d width height)) k
  = option_map
      (fun frame =>
         simpleBlockPayload 1
           (Num.to_integer (Nat.iter k (fun t => Num.add t d) (Int 0))) x80 frame)
      (nth_error frames k).
Proof.
  rewrite simpleBlocksOf_document, nth_error_map, blocksFrom_nth.
  destruct (nth_error frames k); reflexivity.
Qed.

(** The fields of a block payload. *)
Lemma simpleBlockPayload_fields (track timecode : Z) (flags : byte)
    (frame : list byte) :
  let payload := simpleBlockPayload track timecode flags frame in
  firstn 1 payload = [ToUint8 (128 + track)]
  /\ blockTimecodeField payload = bigEndian 2 timecode
  /\ blockFlags payload = Some flags
  /\ blockFrame payload = frame.
Proof. repeat split. Qed.

Lemma int16_range (bs : list byte) :
  (length bs <= 2)%nat -> - 2 ^ 15 <= int16 bs < 2 ^ 15.
Proof.
  intros Hl. unfold int16. pose proof (beValue_range bs) as Hr.
  assert (256 ^ Z.of_nat (length bs) <= 2 ^ 16).
  { change (2 ^ 16) with (256 ^ 2). apply Z.pow_le_mono_r; lia. }
  destruct (Z.ltb_spec (beValue bs) (2 ^ 15)); lia.
Qed.

Lemma int16_bigEndian (t : Z) :
  beValue (bigEndian 2 t) = t mod 2 ^ 16
  /\ (0 <= t < 2 ^ 15 -> int16 (bigEndian 2 t) = t).
Proof.
  assert (E : beValue (bigEndian 2 t) = t mod 2 ^ 16) by apply beValue_bigEndian.
  split; [exact E|]. intros Ht. unfold int16. rewrite E.
  rewrite Z.mod_small by lia.
  destruct (Z.ltb_spec t (2 ^ 15)); lia.
Qed.

Lemma int16_bigEndian_signed (t : Z) :
  - 2 ^ 15 <= t < 2 ^ 15 -> int16 (bigEndian 2 t) = t.
Proof.
  intros Ht. unfold int16. destruct (int16_bigEndian t) as [E _]. rewrite E.
  destruct (Z.lt_ge_cases t 0) as [Hneg|Hpos].
  - replace (t mod 2 ^ 16) with (t + 2 ^ 16).
    + destruct (Z.ltb_spec (t + 2 ^ 16) (2 ^ 15)); lia.
    + apply Z.mod_unique with (q := -1); lia.
  - rewrite Z.mod_small by lia. destruct (Z.ltb_spec t (2 ^ 15)); lia.
Qed.

(** * Timecodes of the SimpleBlocks *)

(** C3, as amended: when the frame duration that the entry point computes,
    [Math.round(1000 / fps)] on doubles, is the integer r, the k-th
    SimpleBlock of the document that [createWebM] writes carries the k-th
    frame and stores, on its two timecode bytes, k * r modulo 2^16, which is
    k * r itself as long as that fits a signed 16-bit field: the frame
    duration is rounded once and then accumulated.  (The running timecode is
    a double; it is k * r as long as that stays within 2^53.) *)
Theorem timecode_of_kth_block (nanBits : Z) (frames : list (list byte)) (fps : spec_float)
    (width height : Z) (k : nat) (frame : list byte) (r : Z) :
  Num.Math_round (Num.div1000 fps) = Int r ->
  - 2 ^ 53 <= Z.of_nat k * r <= 2 ^ 53 ->
  nth_error frames k = Some frame ->
  let frameDurationMs := Num.Math_round (Num.div1000 fps) in
  let doc := document nanBits frames frameDurationMs width height in
  createWebM nanBits frames frameDurationMs width height = serializeAll doc
  /\ (Z.of_nat (length (createWebM nanBits frames frameDurationMs width height)) < 2 ^ 31 ->
      readDocument (createWebM nanBits frames frameDurationMs width height) = Some doc)
  /\ exists payload,
       nth_error (simpleBlocksOf doc) k = Some payload
       /\ blockFrame payload = frame
       /\ beValue (blockTimecodeField payload) = (Z.of_nat k * r) mod 2 ^ 16
       /\ (- 2 ^ 15 <= Z.of_nat k * r < 2 ^ 15 ->
           int16 (blockTimecodeField payload) = Z.of_nat k * r).
Proof.
  intros Er _ Hk. cbv zeta.
  split; [apply createWebM_document|].
  split; [apply createWebM_readable|].
  rewrite Er, simpleBlocksOf_nth, Hk, running_timecode_Int. cbn [option_map].
  eexists. split; [reflexivity|].
  cbn [Num.to_integer Z.add].
  destruct (simpleBlockPayload_fields 1 (Z.of_nat k * r) x80 frame)
    as (_ & Etc & _ & Efr).
  cbv zeta in Etc, Efr. rewrite Etc, Efr.
  split; [reflexivity|]. split; [apply int16_bigEndian|].
  apply int16_bigEndian_signed.
Qed.

(** Three frames at 3.2 frames per second: the frame duration is 313 and
    the third block stores 626. *)
Lemma timecode_of_kth_block_witness :
  exists payload,
    nth_error (simpleBlocksOf
                 (document quietNaN [[x9d]; [x9d]; [x9d]]
                    (Num.Math_round (Num.div1000 double_3_2)) 2 2)) 2
    = Some payload
    /\ beValue (blockTimecodeField payload) = (2 * 313) mod 2 ^ 16
    /\ int16 (blockTimecodeField payload) = 626.
Proof.
  destruct (timecode_of_kth_block quietNaN [[x9d]; [x9d]; [x9d]] double_3_2 2 2 2 [x9d]
              313 eq_refl) as (_ & _ & payload & Hn & _ & Hu & Hs).
  - split; discriminate.
  - reflexivity.
  - exists payload. split; [exact Hn|]. split; [exact Hu|].
    apply Hs. split; [discriminate | reflexivity].
Defined.

(** C3 as stated fails at 30 frames per second: the frame duration is
    round(1000 / 30) = 33, the third block (k = 2) stores 66, and
    round(2 * 1000 / 30) is 67. *)
Lemma timecode_round_counterexample :
  let frames := [[x9d]; [x9d]; [x9d]] in
  let frameDurationMs := Num.Math_round (Num.div1000 (Num.to_double (Int 30))) in
  let doc := document quietNaN frames frameDurationMs 2 2 in
  frameDurationMs = Int 33
  /\ createWebM quietNaN frames frameDurationMs 2 2 = serializeAll doc
  /\ option_map (fun payload => int16 (blockTimecodeField payload))
       (nth_error (simpleBlocksOf doc) 2) = Some 66
  /\ roundQ (2 * 1000 / 30) = 67.
Proof.
  cbv zeta. split; [reflexivity|]. split; [apply createWebM_document|].
  split; vm_compute; reflexivity.
Qed.

(** C9, as amended: every SimpleBlock has track number 1 and the flag byte
    0x80, its timecode field is two bytes (so it reads as a signed 16-bit
    value), and the first one stores 0, for every frame sequence and frame
    rate; the stored timecodes are non-decreasing in frame order, the k-th
    being k * r, when the frame duration that the entry point computes,
    [Math.round(1000 / fps)] on doubles, is an integer r >= 0 and the last
    timecode, (N - 1) * r, is below 2^15. *)
Theorem simpleBlock_invariants (nanBits : Z) (frames : list (list byte)) (fps : spec_float)
    (width height : Z) :
  let frameDurationMs := Num.Math_round (Num.div1000 fps) in
  let doc := document nanBits frames frameDurationMs width height in
  let stored := map (fun payload => int16 (blockTimecodeField payload))
                    (simpleBlocksOf doc) in
  createWebM nanBits frames frameDurationMs width height = serializeAll doc
  /\ (Z.of_nat (length (createWebM nanBits frames frameDurationMs width height)) < 2 ^ 31 ->
      readDocument (createWebM nanBits frames frameDurationMs width height) = Some doc)
  /\ length stored = length frames
  /\ (forall payload, In payload (simpleBlocksOf doc) ->
        blockTrack payload = Some (1, [])
        /\ blockFlags payload = Some x80
        /\ length (blockTimecodeField payload) = 2%nat
        /\ - 2 ^ 15 <= int16 (blockTimecodeField payload) < 2 ^ 15)
  /\ (forall t, nth_error stored 0 = Some t -> t = 0)
  /\ (forall r, frameDurationMs = Int r -> 0 <= r ->
      (Z.of_nat (length frames) - 1) * r < 2 ^ 15 ->
      forall j k tj tk, (j <= k)%nat ->
        nth_error stored j = Some tj -> nth_error stored k = Some tk ->
        tj = Z.of_nat j * r /\ tk = Z.of_nat k * r /\ tj <= tk).
Proof.
  cbv zeta. split; [apply createWebM_document|].
  split; [apply createWebM_readable|].
  set (d := Num.Math_round (Num.div1000 fps)).
  split.
  { rewrite length_map, simpleBlocksOf_document, length_map.
    generalize (Int 0). induction frames as [|f rest IH]; intros t;
      [reflexivity|]. cbn [blocksFrom length]. now rewrite IH. }
  split.
  { intros payload Hin. apply In_nth_error in Hin. destruct Hin as [k Hk].
    rewrite simpleBlocksOf_nth in Hk.
    destruct (nth_error frames k) as [frame|]; [|discriminate Hk].
    injection Hk as <-.
    set (t := Num.to_integer _).
    split; [reflexivity|]. split; [reflexivity|]. split; [reflexivity|].
    apply int16_range. simpl. lia. }
  split.
  { intros t Ht. rewrite nth_error_map, simpleBlocksOf_nth in Ht.
    destruct (nth_error frames 0) as [frame|]; [|discriminate Ht].
    injection Ht as <-. reflexivity. }
  intros r Er Hr Hbound.
  assert (Hnth : forall k t,
            nth_error (map (fun payload => int16 (blockTimecodeField payload))
                         (simpleBlocksOf (document nanBits frames d width height))) k
            = Some t ->
            t = Z.of_nat k * r).
  { intros k t Ht. rewrite nth_error_map, simpleBlocksOf_nth in Ht.
    destruct (nth_error frames k) as [frame|] eqn:Ek; [|discriminate Ht].
    injection Ht as <-.
    rewrite Er, running_timecode_Int. cbn [Num.to_integer Z.add].
    assert (Hk : (k < length frames)%nat).
    { apply nth_error_Some. rewrite Ek. discriminate. }
    destruct (simpleBlockPayload_fields 1 (Z.of_nat k * r) x80 frame)
      as (_ & Etc & _).
    cbv zeta in Etc. rewrite Etc.
    apply int16_bigEndian. split; [apply Z.mul_nonneg_nonneg; lia|].
    apply Z.le_lt_trans with ((Z.of_nat (length frames) - 1) * r); [|exact Hbound].
    apply Z.mul_le_mono_nonneg_r; lia. }
  intros j k tj tk Hjk Hj Hk.
  apply Hnth in Hj, Hk. subst tj tk. repeat split.
  apply Z.mul_le_mono_nonneg_r; lia.
Qed.

(** C9 as stated fails on 994 frames at 30 frames per second (33 seconds):
    the block of frame 992 stores 32736, and the next one, whose timecode
    32769 no longer fits, stores -32767. *)
Lemma timecode_wraps_counterexample :
  let frames := repeat [x9d] 994 in
  let frameDurationMs := Num.Math_round (Num.div1000 (Num.to_double (Int 30))) in
  let doc := document quietNaN frames frameDurationMs 2 2 in
  let stored := map (fun payload => int16 (blockTimecodeField payload))
                    (simpleBlocksOf doc) in
  createWebM quietNaN frames frameDurationMs 2 2 = serializeAll doc
  /\ nth_error stored 992 = Some 32736
  /\ nth_error stored 993 = Some (-32767).
Proof.
  cbv zeta. split; [apply createWebM_document|].
  split; vm_compute; reflexivity.
Qed.

(** 105 frames at 3.2 frames per second, where the frame duration is 313:
    the stored timecodes of the second and the last frame are 313 and
    104 * 313 = 32552, in order. *)
Lemma simpleBlock_invariants_witness :
  let stored :=
    map (fun payload => int16 (blockTimecodeField payload))
        (simpleBlocksOf (document quietNaN (repeat [x9d] 105)
                           (Num.Math_round (Num.div1000 double_3_2)) 2 2)) in
  nth_error stored 1 = Some 313 /\ nth_error stored 104 = Some 32552
  /\ (313 = Z.of_nat 1 * 313 /\ 32552 = Z.of_nat 104 * 313 /\ 313 <= 32552).
Proof.
  cbv zeta. split; [reflexivity|]. split; [reflexivity|].
  destruct (simpleBlock_invariants quietNaN (repeat [x9d] 105) double_3_2 2 2)
    as (_ & _ & _ & _ & _ & Hmono).
  apply (Hmono 313 eq_refl ltac:(discriminate) eq_refl 1%nat 104%nat 313 32552);
    [|reflexivity|reflexivity].
  apply Nat.leb_le. reflexivity.
Defined.

(** * Pixel dimensions *)

(** C10. The pixel width and pixel height are stored on two big-endian bytes
    each: the stored value is the dimension modulo 65536, hence the dimension
    itself when it is below 65536; the dimensions never make the muxer fail. *)
Theorem pixel_dimensions_stored (nanBits : Z) (frames : list (list byte)) (d : number)
    (width height : Z) :
  let doc := document nanBits frames d width height in
  createWebM nanBits frames d width height = serializeAll doc
  /\ (Z.of_nat (length (createWebM nanBits frames d width height)) < 2 ^ 31 ->
      readDocument (createWebM nanBits frames d width height) = Some doc)
  /\ (exists pw ph,
        descend [Id.Segment; Id.Tracks; Id.TrackEntry; Id.Video] doc
        = [Elem Id.PixelWidth pw; Elem Id.PixelHeight ph]
        /\ length pw = 2%nat /\ length ph = 2%nat
        /\ beValue pw = width mod 65536 /\ beValue ph = height mod 65536
        /\ (0 <= width < 65536 -> beValue pw = width)
        /\ (0 <= height < 65536 -> beValue ph = height))
  /\ (forall atob urls fps e width' height',
        fromImageArray atob nanBits urls fps width height = inl e ->
        fromImageArray atob nanBits urls fps width' height' = inl e).
Proof.
  cbv zeta. split; [apply createWebM_document|].
  split; [apply createWebM_readable|]. split.
  - exists (bigEndian 2 width), (bigEndian 2 height).
    split.
    { cbv [descend document filter flat_map childrenOf sameId idOf id_eqb
           Id.Segment Id.Cluster Id.EBML Id.Info Id.Tracks Id.TrackEntry Id.Video
           ebmlHeader segmentInfo tracks cluster Z.eqb Pos.eqb andb app].
      reflexivity. }
    rewrite !bigEndian_length, !beValue_bigEndian.
    change (256 ^ Z.of_nat 2) with 65536.
    repeat split; intros; apply Z.mod_small; assumption.
  - intros atob urls fps e width' height'. unfold fromImageArray.
    destruct (Array_map _ urls) as [e'|vp8Frames]; cbn [bind]; [auto|].
    discriminate.
Qed.

(** * The entry point *)

Section EntryPoint.

Variable atob : string -> option string.
Variable nanBits : Z.

Lemma Array_map_map {A B C} (f : A -> B) (g : B -> exn + C) (l : list A) :
  Array_map (fun x => g (f x)) l = Array_map g (map f l).
Proof.
  induction l as [|x rest IH]; [reflexivity|].
  cbn [Array_map map]. now rewrite IH.
Qed.

(** [frames.map] throws the error of the first element that throws. *)
Lemma Array_map_first_error {A B} (f : A -> exn + B) (l : list A) (k : nat)
    (x : A) (e : exn) :
  nth_error l k = Some x -> f x = inl e ->
  (forall y, In y (firstn k l) -> exists b, f y = inr b) ->
  Array_map f l = inl e.
Proof.
  revert k; induction l as [|y rest IH]; intros k Hk He Hbefore.
  - destruct k; discriminate Hk.
  - destruct k as [|k].
    + injection Hk as ->. cbn [Array_map]. rewrite He. reflexivity.
    + cbn [Array_map].
      destruct (Hbefore y (or_introl eq_refl)) as [b Hb]. rewrite Hb.
      cbn [bind]. rewrite (IH k Hk He); [reflexivity|].
      intros z Hz. apply Hbefore. right. exact Hz.
Qed.

Lemma Array_map_some_error {A B} (f : A -> exn + B) (l : list A) (x : A)
    (e : exn) :
  In x l -> f x = inl e -> exists e', Array_map f l = inl e'.
Proof.
  induction l as [|y rest IH]; intros Hin He; [destruct Hin|].
  cbn [Array_map]. destruct (f y) as [e'|b] eqn:Ey; [exists e'; reflexivity|].
  cbn [bind]. destruct Hin as [->|Hin]; [congruence|].
  destruct (IH Hin He) as [e' E]. rewrite E. exists e'. reflexivity.
Qed.

(** C6. If the extraction fails for some frame, whatever its position and
    whatever the other frames are, the entry point ends with an error and
    returns no file; the error is that of the extraction as soon as the frames
    before it decode from base64. *)
Theorem fromImageArray_aborts (frames : list string) (fps : spec_float)
    (width height : Z)
    (k : nat) (frame : string) (webp : list byte) (e : exn) :
  nth_error frames k = Some frame ->
  dataURLToUint8Array atob frame = inr webp ->
  extractVP8Bitstream webp = inl e ->
  (exists e', fromImageArray atob nanBits frames fps width height = inl e')
  /\ (forall blob, fromImageArray atob nanBits frames fps width height <> inr blob)
  /\ ((forall f, In f (firstn k frames) ->
         exists bytes, dataURLToUint8Array atob f = inr bytes) ->
      fromImageArray atob nanBits frames fps width height = inl e).
Proof.
  intros Hk Hdec Hext.
  set (step := fun f => bind (dataURLToUint8Array atob f)
                          (fun webp => extractVP8Bitstream webp)).
  assert (Hstep : step frame = inl e).
  { unfold step. rewrite Hdec. exact Hext. }
  assert (Herr : exists e', fromImageArray atob nanBits frames fps width height = inl e').
  { destruct (Array_map_some_error step frames frame e
                (nth_error_In _ _ Hk) Hstep) as [e' E].
    exists e'. unfold fromImageArray. fold step. rewrite E. reflexivity. }
  split; [exact Herr|]. split.
  { intros blob Hb. destruct Herr as [e' E]. congruence. }
  intros Hbefore. unfold fromImageArray. fold step.
  assert (Hfirst : exists j x e0, nth_error frames j = Some x /\ step x = inl e0
                     /\ e0 = e
                     /\ forall y, In y (firstn j frames) -> exists b, step y = inr b).
  { clear Herr. revert k Hk Hbefore.
    induction frames as [|y rest IH]; intros k Hk Hbefore.
    - destruct k; discriminate Hk.
    - destruct (step y) as [e0|b] eqn:Ey.
      + exists 0%nat, y, e0. split; [reflexivity|]. split; [exact Ey|].
        split; [|intros z []].
        destruct k as [|k].
        * injection Hk as ->. congruence.
        * destruct (Hbefore y (or_introl eq_refl)) as [bytes Hy].
          unfold step in Ey. rewrite Hy in Ey. cbn [bind] in Ey.
          rewrite (extractVP8Bitstream_error _ _ Ey).
          symmetry. exact (extractVP8Bitstream_error _ _ Hext).
      + destruct k as [|k]; [injection Hk as ->; congruence|].
        destruct (IH k Hk) as (j & x & e0 & Hj & Hx & He0 & Hb).
        { intros f Hf. apply Hbefore. right. exact Hf. }
        exists (S j), x, e0. split; [exact Hj|]. split; [exact Hx|].
        split; [exact He0|]. intros z [<-|Hz]; [exists b; exact Ey|].
        apply Hb, Hz. }
  destruct Hfirst as (j & x & e0 & Hj & Hx & -> & Hb).
  rewrite (Array_map_first_error step frames j x e Hj Hx Hb). reflexivity.
Qed.

(** The ids of the document are those of the layout. *)
Lemma idsOf_blocksFrom (t d : number) (frames : list (list byte)) (id : list Z) :
  In id (flat_map idsOf (blocksFrom t d frames)) -> id = Id.SimpleBlock.
Proof.
  revert t; induction frames as [|f rest IH]; intros t; cbn [blocksFrom flat_map].
  - intros [].
  - cbn [idsOf app]. intros [<-|H]; [reflexivity | exact (IH _ H)].
Qed.

Lemma idsOf_document (frames : list (list byte)) (d : number)
    (width height : Z) (id : list Z) :
  In id (flat_map idsOf (document nanBits frames d width height)) -> In id layoutIds.
Proof.
  unfold document, ebmlHeader, segmentInfo, tracks, cluster.
  cbn [flat_map idsOf app]. rewrite !app_nil_r.
  intros H.
  repeat (destruct H as [<-|H]; [unfold layoutIds; simpl; tauto|]).
  apply idsOf_blocksFrom in H. subst id. unfold layoutIds. simpl. tauto.
Qed.

(** The encoding of NaN shows in the output only when the duration is NaN. *)
Lemma createWebM_nanBits (nanBits' : Z) (frames : list (list byte)) (d : number)
    (width height : Z) :
  Num.div (Num.mul d (Int (Z.of_nat (length frames)))) (Int 1000) <> S754_nan ->
  createWebM nanBits' frames d width height
  = createWebM nanBits frames d width height.
Proof.
  intros Hd. rewrite !createWebM_document. unfold document, segmentInfo.
  destruct (Num.div (Num.mul d (Int (Z.of_nat (length frames)))) (Int 1000))
    as [s|s| |s m e]; [reflexivity | reflexivity | | reflexivity].
  now destruct Hd.
Qed.

(** C7.  The file that the muxer returns is built from the frame bytes, the
    frame rate and the dimensions and from nothing else.  Two calls whose
    frames decode to the same bytes end alike, with the same bytes when they
    return a file.  That file is, byte for byte, the serialisation of the
    document of the chunks extracted from the frames: no byte lies outside
    an element, no element holds a date, a random identifier, a checksum or
    padding (DateUTC, SegmentUID, CRC-32, Void), and the one identifier of
    the layout, the TrackUID, is the constant 1.  The one value that the
    platform chooses, the encoding of NaN, reaches the file only when the
    stored duration is NaN: in every other case the bytes are the same under
    every encoding. *)
Theorem fromImageArray_deterministic (frames1 frames2 : list string)
    (fps : spec_float) (width height : Z) :
  map (dataURLToUint8Array atob) frames1 = map (dataURLToUint8Array atob) frames2 ->
  fromImageArray atob nanBits frames1 fps width height
  = fromImageArray atob nanBits frames2 fps width height
  /\ (forall blob, fromImageArray atob nanBits frames1 fps width height = inr blob ->
      exists vp8Frames,
        let doc := document nanBits vp8Frames (Num.Math_round (Num.div1000 fps))
                     width height in
        Array_map (fun frame => let* webp := dataURLToUint8Array atob frame in
                                extractVP8Bitstream webp) frames1
        = inr vp8Frames
        /\ blob = mkBlob (serializeAll doc) "video/webm"
        /\ (forall id, In id (flat_map idsOf doc) ->
              existsb (id_eqb id) volatileIds = false)
        /\ In (Elem [0x73; 0xc5] [x01])
              (descend [Id.Segment; Id.Tracks; Id.TrackEntry] doc)
        /\ (Num.div (Num.mul (Num.Math_round (Num.div1000 fps))
                             (Int (Z.of_nat (length vp8Frames)))) (Int 1000)
            <> S754_nan ->
            forall nanBits',
              fromImageArray atob nanBits' frames1 fps width height = inr blob)).
Proof.
  intros Hframes. split.
  - unfold fromImageArray.
    rewrite (Array_map_map (dataURLToUint8Array atob)
               (fun r => bind r (fun webp => extractVP8Bitstream webp)) frames1).
    rewrite (Array_map_map (dataURLToUint8Array atob)
               (fun r => bind r (fun webp => extractVP8Bitstream webp)) frames2).
    rewrite Hframes. reflexivity.
  - intros blob H. unfold fromImageArray in H. unfold bind at 1 in H.
    destruct (Array_map _ frames1) as [e|vp8Frames] eqn:E; [discriminate H|].
    injection H as <-. exists vp8Frames. cbv zeta.
    split; [reflexivity|]. split; [now rewrite createWebM_document|].
    split.
    + intros id Hid. apply idsOf_document in Hid.
      unfold layoutIds in Hid. simpl in Hid.
      repeat (destruct Hid as [<-|Hid]; [reflexivity|]). destruct Hid.
    + cbv [descend document filter flat_map childrenOf sameId idOf id_eqb
           Id.Segment Id.Tracks Id.TrackEntry Id.EBML Id.Info ebmlHeader
           segmentInfo tracks cluster Z.eqb Pos.eqb andb app].
      split; [right; left; reflexivity|].
      intros Hd nanBits'. unfold fromImageArray. rewrite E. cbn [bind].
      rewrite (createWebM_nanBits nanBits') by exact Hd. reflexivity.
Qed.

(** ** The empty frame list *)

Lemma emptyDocument_read (duration : spec_float) (width height : Z) :
  readDocument (serializeAll (emptyDocument nanBits duration width height))
  = Some (emptyDocument nanBits duration width height).
Proof.
  unfold emptyDocument, segmentInfo, tracks, float64ToArray.
  cbn [bigEndian app map].
  generalize (ToUint8 (width / 256)) (ToUint8 width)
             (ToUint8 (height / 256)) (ToUint8 height).
  generalize (float64_bits nanBits duration). intros bits w1 w0 h1 h0.
  generalize (ToUint8 (bits / 256 ^ 7)) (ToUint8 (bits / 256 ^ 6))
             (ToUint8 (bits / 256 ^ 5)) (ToUint8 (bits / 256 ^ 4))
             (ToUint8 (bits / 256 ^ 3)) (ToUint8 (bits / 256 ^ 2))
             (ToUint8 (bits / 256 ^ 1)) (ToUint8 (bits / 256 ^ 0)).
  intros. vm_compute. reflexivity.
Qed.

Lemma duration_of_no_frames (d : number) :
  Num.finite d = true ->
  Num.div (Num.mul d (Int (Z.of_nat 0))) (Int 1000) = S754_zero (Num.negative d).
Proof.
  intros Hfin. destruct d as [r| | | |]; try discriminate Hfin.
  - cbn [Num.mul Num.infinite Num.to_integer orb Z.of_nat].
    rewrite Z.mul_0_r. cbn [Z.eqb Num.negative xorb].
    change (0 <? 0) with false. rewrite xorb_false_r.
    destruct (r <? 0); vm_compute; reflexivity.
  - vm_compute. reflexivity.
Qed.

(** C8, as amended: for the empty frame list and any frame rate for which
    the frame duration that the entry point computes, [Math.round(1000 / fps)]
    on doubles, is finite, the muxer returns, without an error, the EBML
    header followed by a Segment with SegmentInfo, Tracks and a Cluster that
    holds only the zero cluster timecode; the document reads back as that
    tree, it has no SimpleBlock, and its stored duration is a zero (the
    positive zero when the frame duration is not negative). *)
Theorem empty_frame_list (fps : spec_float) (width height : Z) :
  Num.finite (Num.Math_round (Num.div1000 fps)) = true ->
  let frameDurationMs := Num.Math_round (Num.div1000 fps) in
  let duration := S754_zero (Num.negative frameDurationMs) in
  let doc := emptyDocument nanBits duration width height in
  fromImageArray atob nanBits [] fps width height
  = inr (mkBlob (serializeAll doc) "video/webm")
  /\ readDocument (serializeAll doc) = Some doc
  /\ simpleBlocksOf doc = []
  /\ descend [Id.Segment; Id.Cluster] doc = [Elem Id.Timecode [x00; x00]]
  /\ In (Elem Id.Duration (float64ToArray nanBits duration))
        (descend [Id.Segment; Id.Info] doc)
  /\ (Num.negative frameDurationMs = false ->
      float64ToArray nanBits duration = repeat x00 8).
Proof.
  intros Hfin. cbv zeta.
  split.
  { unfold fromImageArray. cbn [Array_map bind].
    rewrite createWebM_document. unfold document, emptyDocument.
    cbn [length]. rewrite duration_of_no_frames by assumption. reflexivity. }
  split; [apply emptyDocument_read|].
  split; [reflexivity|]. split; [reflexivity|].
  split; [right; left; reflexivity|].
  intros ->. vm_compute. reflexivity.
Qed.

End EntryPoint.

(** No frame at 10 frames per second. *)
Lemma empty_frame_list_witness :
  fromImageArray Base64.atob quietNaN [] (Num.to_double (Int 10)) 2 2
  = inr (mkBlob (serializeAll (emptyDocument quietNaN (S754_zero false) 2 2)) "video/webm").
Proof.
  destruct (empty_frame_list Base64.atob quietNaN (Num.to_double (Int 10)) 2 2) as [E _].
  - reflexivity.
  - exact E.
Defined.

(** C8 as stated fails at the frame rate 0, and at the finite frame rate
    2^-1022: the frame duration is round(1000 / fps) = Infinity, the
    duration Infinity * 0 is NaN, and the stored duration is a NaN, not a
    zero.  With the NaN that x86-64 gives for Infinity * 0, the eight bytes
    are ff f8 00 00 00 00 00 00. *)
Lemma empty_frame_list_fps0 :
  map (fun fps => Num.Math_round (Num.div1000 fps))
      [S754_zero false; double_2p_1022] = [PosInf; PosInf]
  /\ Num.div (Num.mul PosInf (Int 0)) (Int 1000) = S754_nan
  /\ map (fun fps => fromImageArray Base64.atob indefiniteNaN [] fps 2 2)
         [S754_zero false; double_2p_1022]
     = repeat (inr (mkBlob (serializeAll (emptyDocument indefiniteNaN S754_nan 2 2))
                      "video/webm")) 2
  /\ In (Elem Id.Duration (float64ToArray indefiniteNaN S754_nan))
        (descend [Id.Segment; Id.Info] (emptyDocument indefiniteNaN S754_nan 2 2))
  /\ float64ToArray indefiniteNaN S754_nan
     = [xff; xf8; x00; x00; x00; x00; x00; x00]
  /\ getFloat64 (float64ToArray indefiniteNaN S754_nan) = S754_nan.
Proof.
  split; [reflexivity|]. split; [reflexivity|]. split.
  - unfold fromImageArray. cbn [map Array_map bind repeat].
    rewrite !createWebM_document. reflexivity.
  - split; [right; left; reflexivity|]. split; reflexivity.
Qed.

(** Two frames, the second without the tag: the entry point ends with the
    error of the extractor. *)
Lemma fromImageArray_aborts_witness :
  fromImageArray Base64.atob quietNaN [stillImageURL; blankImageURL]
    (Num.to_double (Int 10)) 2 2
  = inl notFound.
Proof.
  refine (proj2 (proj2 (fromImageArray_aborts Base64.atob quietNaN
            [stillImageURL; blankImageURL] (Num.to_double (Int 10)) 2 2
            1 blankImageURL [x00; x00; x00] notFound eq_refl eq_refl eq_refl)) _).
  intros f [<-|[]]. eexists. reflexivity.
Defined.

(** The same image under two data URLs, with and without a media type and
    white space in the text. *)
Lemma fromImageArray_deterministic_witness :
  fromImageArray Base64.atob quietNaN [stillImageURL] (Num.to_double (Int 10)) 2 2
  = fromImageArray Base64.atob quietNaN [stillImageURL'] (Num.to_double (Int 10)) 2 2.
Proof.
  exact (proj1 (fromImageArray_deterministic Base64.atob quietNaN
                  [stillImageURL] [stillImageURL'] (Num.to_double (Int 10))
                  2 2 eq_refl)).
Defined.

(** The end-to-end scenario: three frames at 10 frames per second give three
    SimpleBlocks with the timecodes 0, 100 and 200, track number 1 and the
    keyframe flag, and a stored duration of 0.3 seconds. *)
Example end_to_end :
  let doc := document quietNaN [[x9d; x01]; [x9d; x01]; [x9d; x01]]
               (Num.Math_round (Num.div1000 (Num.to_double (Int 10)))) 2 2 in
  fromImageArray Base64.atob quietNaN (repeat stillImageURL 3)
    (Num.to_double (Int 10)) 2 2
  = inr (mkBlob (serializeAll doc) "video/webm")
  /\ readDocument (serializeAll doc) = Some doc
  /\ map (fun p => (blockTrack p, int16 (blockTimecodeField p), blockFlags p))
       (simpleBlocksOf doc)
     = [(Some (1, []), 0, Some x80); (Some (1, []), 100, Some x80);
        (Some (1, []), 200, Some x80)]
  /\ In (Elem Id.Duration [x3f; xd3; x33; x33; x33; x33; x33; x33])
        (descend [Id.Segment; Id.Info] doc).
Proof.
  cbv zeta. split; [vm_compute; reflexivity|].
  split; [vm_compute; reflexivity|]. split; [vm_compute; reflexivity|].
  right. left. vm_compute. reflexivity.
Qed.

(** * Further properties of the muxer *)

(** ** Fixed-width integers *)

Lemma uintToArray_loop_length (n : nat) (arr : list byte) (v : Z) :
  length (uintToArray_loop n arr v) = length arr.
Proof.
  revert arr v. induction n as [|n IH]; intros arr v; cbn [uintToArray_loop].
  - reflexivity.
  - rewrite IH. apply store_length.
Qed.

(** X1.  [uintToArray] writes the big-endian two's complement of the 32-bit
    coercion of its argument on the requested number of bytes.  Up to four
    bytes that is the residue of the value modulo 256^bytes, whatever the
    value; from the fifth byte on the leading bytes repeat the sign of the
    32-bit value, and adding 2^32 to the value changes no byte. *)
Theorem uintToArray_twos_complement (value : Z) (bytes : nat) :
  uintToArray value bytes = bigEndian bytes (ToInt32 value)
  /\ length (uintToArray value bytes) = bytes
  /\ beValue (uintToArray value bytes) = ToInt32 value mod 256 ^ Z.of_nat bytes
  /\ ((bytes <= 4)%nat ->
      beValue (uintToArray value bytes) = value mod 256 ^ Z.of_nat bytes)
  /\ ((4 <= bytes)%nat -> 0 <= value < 2 ^ 31 ->
      beValue (uintToArray value bytes) = value)
  /\ uintToArray (value + 2 ^ 32) bytes = uintToArray value bytes.
Proof.
  assert (E : forall v, uintToArray v bytes = bigEndian bytes (ToInt32 v)).
  { intros v. unfold uintToArray.
    rewrite uintToArray_loop_ToInt32, uintToArray_loop_int32.
    - rewrite <- (repeat_length x00 bytes) at 2.
      rewrite skipn_all. apply app_nil_r.
    - apply ToInt32_range.
    - rewrite repeat_length. lia. }
  rewrite !E. repeat split.
  - apply bigEndian_length.
  - apply beValue_bigEndian.
  - intros Hb. rewrite bigEndian_ToInt32 by exact Hb. apply beValue_bigEndian.
  - intros Hb Hv. rewrite beValue_bigEndian, ToInt32_small by lia.
    apply Z.mod_small. split; [lia|].
    apply Z.lt_le_trans with (256 ^ 4); [eval_pows; lia|].
    apply Z.pow_le_mono_r; lia.
  - f_equal. unfold ToInt32.
    replace (value + 2 ^ 32 + 2 ^ 31) with (value + 2 ^ 31 + 1 * 2 ^ 32) by ring.
    now rewrite Z.mod_add by (eval_pows; lia).
Qed.

(** ** The width and the range of a vint *)

(** Every width the loop has passed was too narrow for the value. *)
Lemma encodeVint_length_minimal (fuel : nat) (value len l : Z) :
  len <= l < encodeVint_length fuel value len -> 2 ^ (7 * l) - 1 <= value.
Proof.
  revert len; induction fuel as [|f IH]; intros len Hl; cbn [encodeVint_length] in Hl.
  - lia.
  - destruct ((value >=? 2 ^ (7 * len) - 1) && (len <? 8)) eqn:E; [|lia].
    apply andb_prop in E. destruct E as [E _].
    rewrite Z.geb_leb in E. apply Z.leb_le in E.
    destruct (Z.eq_dec l len) as [->|Hne]; [exact E|].
    apply (IH (len + 1)). lia.
Qed.

Lemma encodeVint_length_eq (value : Z) :
  length (encodeVint value) = Z.to_nat (encodeVint_length 7 value 1).
Proof.
  unfold encodeVint.
  now rewrite store_length, uintToArray_loop_length, repeat_length.
Qed.

(** X2.  The width loop of [encodeVint] chooses the least width [L] between 1
    and 8 such that the value is below [2^(7L) - 1]: the value whose payload
    bits would all be ones (127, 16383, ...) is moved to the next width, and
    no input, negative or huge, gets fewer than one or more than eight
    bytes. *)
Theorem encodeVint_width (value : Z) :
  let L := Z.of_nat (length (encodeVint value)) in
  1 <= L <= 8
  /\ (L < 8 -> value < 2 ^ (7 * L) - 1)
  /\ (forall l, 1 <= l < L -> 2 ^ (7 * l) - 1 <= value).
Proof.
  cbv zeta. rewrite encodeVint_length_eq.
  pose proof (encodeVint_length_bound value) as [Hr Hb]. cbv zeta in Hr, Hb.
  rewrite Z2Nat.id by lia. split; [exact Hr|]. split; [exact Hb|].
  intros l Hl. apply (encodeVint_length_minimal 7 value 1 l). exact Hl.
Qed.

Lemma encodeVint_short (value : Z) :
  0 <= value < 2 ^ 31 ->
  (1 <= length (encodeVint value) <= 5)%nat
  /\ value < 2 ^ (7 * Z.of_nat (length (encodeVint value))) - 1.
Proof.
  intros Hv. rewrite encodeVint_length_eq.
  pose proof (encodeVint_length_bound value) as [Hr Hb]. cbv zeta in Hr, Hb.
  assert (H5 : encodeVint_length 7 value 1 <= 5).
  { destruct (Z.le_gt_cases (encodeVint_length 7 value 1) 5) as [H|H]; [exact H|].
    pose proof (encodeVint_length_minimal 7 value 1 5 ltac:(lia)) as Hm.
    revert Hm. eval_pows. lia. }
  split; [lia|]. rewrite Z2Nat.id by lia. apply Hb. lia.
Qed.

(** X3.  Below 2^31 a vint reads back as the value it was written from, and
    the reader stops exactly at its end; it takes at most five bytes, and its
    payload bits are never all ones, the pattern that stands for an unknown
    size. *)
Theorem vint_round_trip (value : Z) (tl : list byte) :
  0 <= value < 2 ^ 31 ->
  decodeVint (encodeVint value ++ tl) = Some (value, tl)
  /\ (length (encodeVint value) <= 5)%nat
  /\ value < 2 ^ (7 * Z.of_nat (length (encodeVint value))) - 1.
Proof.
  intros Hv. split; [apply decodeVint_encodeVint; exact Hv|].
  destruct (encodeVint_short value Hv) as [H5 Hb]. split; [lia | exact Hb].
Qed.

Lemma vint_round_trip_witness :
  decodeVint (encodeVint 127 ++ [x2a]) = Some (127, [x2a])
  /\ (length (encodeVint 127) <= 5)%nat
  /\ 127 < 2 ^ (7 * Z.of_nat (length (encodeVint 127))) - 1.
Proof. apply (vint_round_trip 127 [x2a]). lia. Defined.

(** The leading byte of a field of five bytes or more that is filled from a
    32-bit value is its sign. *)
Lemma bigEndian_sign_fill (L : nat) (x : Z) :
  (5 <= L <= 8)%nat -> - 2 ^ 31 <= x < 0 ->
  exists t, bigEndian L x = xff :: t /\ length t = (L - 1)%nat.
Proof.
  intros HL Hx.
  assert (Hd : forall y, -1 <= y < 0 -> y / 256 = -1).
  { intros y Hy. assert (y = -1) by lia. subst y. reflexivity. }
  assert (H4 : x / 256 / 256 / 256 / 256 = -1).
  { rewrite !Z.div_div by lia. symmetry.
    apply Z.div_unique with (r := x + 256 * 256 * 256 * 256).
    - left. eval_pows. lia.
    - ring. }
  pose proof (bigEndian_length L x) as Hlen.
  assert (E : In L [5; 6; 7; 8]%nat) by (simpl; lia).
  simpl in E.
  repeat (destruct E as [E|E];
          [subst L; cbn [bigEndian app] in *; rewrite ?H4, ?Hd by lia;
           rewrite ?Hd by lia; rewrite ?Hd by lia; rewrite ?Hd by lia;
           change (ToUint8 (-1)) with xff; eexists; split; [reflexivity|];
           reflexivity|]).
  destruct E.
Qed.

(** X4.  From 2^31 on no vint reads back as the value it was written from:
    the width loop counts on the full value and provides five bytes or more,
    the byte loop fills them from the 32-bit coercion, and the reader finds
    either the one-byte vint 127 (when that coercion is negative) or the
    coercion itself; both are below 2^31. *)
Theorem vint_round_trip_fails (value : Z) (tl : list byte) :
  2 ^ 31 <= value ->
  exists v rest,
    decodeVint (encodeVint value ++ tl) = Some (v, rest)
    /\ (5 <= length (encodeVint value))%nat
    /\ (v = 127 \/ v = ToInt32 value /\ rest = tl)
    /\ v < value.
Proof.
  intros Hv.
  pose proof (encodeVint_length_eq value) as Hlen.
  pose proof (encodeVint_length_bound value) as [Hr Hb]. cbv zeta in Hr, Hb.
  assert (H5 : 5 <= encodeVint_length 7 value 1).
  { destruct (Z.le_gt_cases 5 (encodeVint_length 7 value 1)) as [H|H]; [exact H|].
    specialize (Hb ltac:(lia)).
    assert (2 ^ (7 * encodeVint_length 7 value 1) <= 2 ^ 28)
      by (apply Z.pow_le_mono_r; lia).
    revert Hb H0 Hv. eval_pows. lia. }
  pose proof (ToInt32_range value) as Hx.
  assert (E : encodeVint value
              = let L := Z.to_nat (encodeVint_length 7 value 1) in
                let buffer := bigEndian L (ToInt32 value) in
                store buffer 0
                  (ToUint8 (JS.or (num_of (load buffer 0)) (shl 1 (8 - Z.of_nat L))))).
  { unfold encodeVint. cbv zeta.
    rewrite uintToArray_loop_ToInt32, uintToArray_loop_int32
      by (rewrite ?repeat_length; lia).
    rewrite (skipn_all2 (repeat x00 _)) by (rewrite repeat_length; lia).
    rewrite app_nil_r. reflexivity. }
  cbv zeta in E.
  set (L := Z.to_nat (encodeVint_length 7 value 1)) in *.
  assert (HL : (5 <= L <= 8)%nat) by lia.
  assert (Hlen5 : (5 <= length (encodeVint value))%nat) by (rewrite Hlen; lia).
  destruct (Z.lt_ge_cases (ToInt32 value) 0) as [Hneg|Hpos].
  - destruct (bigEndian_sign_fill L (ToInt32 value) HL ltac:(lia)) as (t & Et & Ht).
    exists 127, (t ++ tl). split; [|split; [exact Hlen5|]].
    + rewrite E, Et.
      change (load (xff :: t) 0) with (Some xff). cbn [store num_of].
      assert (Hm : ToUint8 (JS.or (byte_to_Z xff) (shl 1 (8 - Z.of_nat L))) = xff).
      { assert (EL : In L [5; 6; 7; 8]%nat) by (simpl; lia).
        simpl in EL.
        repeat (destruct EL as [EL|EL]; [rewrite <- EL; reflexivity|]).
        destruct EL. }
      rewrite Hm. reflexivity.
    + split; [left; reflexivity|]. revert Hv. eval_pows. lia.
  - exists (ToInt32 value), tl. split; [|split; [exact Hlen5|]].
    + rewrite E. apply decodeVint_marked; [lia|]. split; [lia|].
      apply Z.lt_le_trans with (2 ^ 31); [lia|].
      apply Z.pow_le_mono_r; lia.
    + split; [right; split; reflexivity|]. lia.
Qed.

Lemma vint_round_trip_fails_witness :
  exists v rest,
    decodeVint (encodeVint (2 ^ 32 + 5) ++ [x2a]) = Some (v, rest)
    /\ (5 <= length (encodeVint (2 ^ 32 + 5)))%nat
    /\ (v = 127 \/ v = ToInt32 (2 ^ 32 + 5) /\ rest = [x2a])
    /\ v < 2 ^ 32 + 5.
Proof. apply (vint_round_trip_fails (2 ^ 32 + 5) [x2a]). vm_compute. discriminate. Defined.

(** ** Elements in sequence *)

(** X5.  An element whose payload is shorter than 2^31 bytes delimits itself:
    a reader at its first byte recovers the id and the payload and is left
    at the first byte after it, whatever follows; the frame adds the id and
    at most five bytes. *)
Theorem encodeElement_read_back (id : list Z) (data rest : list byte) :
  wfId id -> Z.of_nat (length data) < 2 ^ 31 ->
  readElement (encodeElement id data ++ rest) = Some (id, data, rest)
  /\ (length id + 1 + length data <= length (encodeElement id data)
      <= length id + 5 + length data)%nat.
Proof.
  intros Hid Hlen. rewrite encodeElement_framed. split.
  - apply readElement_framed; assumption.
  - rewrite length_framed.
    destruct (encodeVint_short (Z.of_nat (length data)) ltac:(lia)) as [H5 _].
    lia.
Qed.

Lemma encodeElement_read_back_witness :
  readElement (encodeElement [0x42; 0x86] [x01] ++ [xa3; x80])
  = Some ([0x42; 0x86], [x01], [xa3; x80])
  /\ (2 + 1 + 1 <= length (encodeElement [0x42; 0x86]%Z [x01]) <= 2 + 5 + 1)%nat.
Proof.
  apply (encodeElement_read_back [0x42; 0x86] [x01] [xa3; x80]).
  - wf_id.
  - reflexivity.
Defined.

(** ** The bytes of a double *)

Lemma float64ToArray_bigEndian (nanBits : Z) (value : spec_float) :
  float64ToArray nanBits value = bigEndian 8 (float64_bits nanBits value).
Proof.
  unfold float64ToArray. generalize (float64_bits nanBits value). intros b.
  cbn [map bigEndian app]. rewrite !Z.div_div by lia.
  change (256 ^ 0) with 1. rewrite Z.div_1_r. reflexivity.
Qed.

Lemma digits2_pos_size (m : positive) : digits2_pos m = Pos.size m.
Proof. induction m as [m IH|m IH|]; cbn; now rewrite ?IH. Qed.

(** A mantissa of [d] digits lies in [2^(d-1), 2^d). *)
Lemma digits2_pos_bounds (m : positive) :
  2 ^ Z.pos (digits2_pos m) <= 2 * Z.pos m < 2 * 2 ^ Z.pos (digits2_pos m).
Proof.
  rewrite digits2_pos_size.
  pose proof (Pos.size_gt m) as Hgt. pose proof (Pos.size_le m) as Hle.
  apply Pos2Z.pos_lt_pos in Hgt. apply Pos2Z.pos_le_pos in Hle.
  rewrite Pos2Z.inj_pow in Hgt, Hle. rewrite (Pos2Z.inj_xO m) in Hle. lia.
Qed.

(** What [valid_binary] says of a finite double: a normal number has 53
    digits and an exponent from -1074 to 971, a subnormal one has fewer and
    the exponent -1074. *)
Lemma bounded_cases (m : positive) (e : Z) :
  bounded 53 1024 m e = true ->
  (2 ^ 52 <= Z.pos m < 2 ^ 53 /\ -1074 <= e <= 971)
  \/ (Z.pos m < 2 ^ 52 /\ e = -1074).
Proof.
  unfold bounded, canonical_mantissa, fexp, emin. intros H.
  apply andb_prop in H. destruct H as [Hc He].
  apply Z.eqb_eq in Hc. apply Z.leb_le in He.
  pose proof (digits2_pos_bounds m) as Hd.
  set (d := Z.pos (digits2_pos m)) in *.
  assert (Hd0 : 0 < d) by (unfold d; lia).
  destruct (Z.lt_ge_cases (Z.pos m) (2 ^ 52)) as [Hsub|Hnorm].
  - right. split; [exact Hsub|].
    assert (d <= 52).
    { destruct (Z.le_gt_cases d 52) as [Hle|Hgt]; [exact Hle|].
      assert (2 ^ 53 <= 2 ^ d) by (apply Z.pow_le_mono_r; lia).
      revert Hsub H. eval_pows. lia. }
    lia.
  - left.
    assert (53 <= d).
    { destruct (Z.le_gt_cases 53 d) as [Hle|Hgt]; [exact Hle|].
      assert (2 ^ d <= 2 ^ 52) by (apply Z.pow_le_mono_r; lia). lia. }
    assert (d = 53) by lia.
    replace d with 53 in Hd. revert Hd Hnorm. eval_pows. lia.
Qed.

Lemma float64_bits_range (nanBits : Z) (x : spec_float) :
  isNaN64 nanBits = true ->
  valid_binary 53 1024 x = true -> 0 <= float64_bits nanBits x < 2 ^ 64.
Proof.
  intros Hn.
  destruct x as [s|s| |s m e]; cbn [valid_binary float64_bits].
  - intros _. destruct s; eval_pows; lia.
  - intros _. destruct s; eval_pows; lia.
  - intros _. unfold isNaN64 in Hn.
    apply andb_prop in Hn as [Hn _]. apply andb_prop in Hn as [Hn _].
    apply andb_prop in Hn as [H0 H64].
    apply Z.leb_le in H0. apply Z.ltb_lt in H64. lia.
  - intros H. apply bounded_cases in H. revert H. eval_pows. intros H.
    destruct (Z.leb_spec 4503599627370496 (Z.pos m)); destruct s; lia.
Qed.

Lemma float64_of_bits_float64_bits (nanBits : Z) (x : spec_float) :
  isNaN64 nanBits = true ->
  valid_binary 53 1024 x = true -> float64_of_bits (float64_bits nanBits x) = x.
Proof.
  intros Hnan.
  destruct x as [s|s| |s m e]; cbn [valid_binary].
  - intros _. destruct s; reflexivity.
  - intros _. destruct s; reflexivity.
  - intros _. cbn [float64_bits]. unfold isNaN64 in Hnan.
    apply andb_prop in Hnan as [Hnan Hf]. apply andb_prop in Hnan as [_ He].
    apply Z.eqb_eq in He. apply negb_true_iff in Hf.
    unfold float64_of_bits. rewrite He, Hf. reflexivity.
  - intros H. apply bounded_cases in H. unfold float64_bits, float64_of_bits.
    set (sign := if s then 2 ^ 63 else 0).
    assert (Hs : sign = 0 /\ s = false \/ sign = 2 ^ 63 /\ s = true)
      by (destruct s; auto).
    revert H Hs. eval_pows. intros H Hs.
    destruct (Z.leb_spec 4503599627370496 (Z.pos m)) as [Hn|Hsn].
    + assert (Hr : -1074 <= e <= 971 /\ Z.pos m < 9007199254740992) by lia.
      clear H. destruct Hr as [He Hm].
      set (bits := sign + (e + 1075) * 4503599627370496
                   + (Z.pos m - 4503599627370496)).
      assert (Hq : bits / 4503599627370496 = sign / 4503599627370496 + (e + 1075)
                   /\ bits mod 4503599627370496 = Z.pos m - 4503599627370496).
      { unfold bits. destruct Hs as [[-> _]|[-> _]].
        - change (0 / 4503599627370496) with 0. split; symmetry.
          + apply Z.div_unique with (r := Z.pos m - 4503599627370496); lia.
          + apply Z.mod_unique with (q := e + 1075); lia.
        - change (9223372036854775808 / 4503599627370496) with 2048.
          split; symmetry.
          + apply Z.div_unique with (r := Z.pos m - 4503599627370496); lia.
          + apply Z.mod_unique with (q := 2048 + (e + 1075)); lia. }
      destruct Hq as [Hq Hf]. rewrite Hq, Hf.
      assert (Hm11 : (sign / 4503599627370496 + (e + 1075)) mod 2048 = e + 1075).
      { destruct Hs as [[-> _]|[-> _]].
        - change (0 / 4503599627370496) with 0. apply Z.mod_small. lia.
        - change (9223372036854775808 / 4503599627370496) with (1 * 2048).
          rewrite Z.add_comm, Z.mod_add by lia. apply Z.mod_small. lia. }
      rewrite Hm11.
      replace (e + 1075 =? 0) with false by (symmetry; apply Z.eqb_neq; lia).
      replace (e + 1075 =? 2047) with false by (symmetry; apply Z.eqb_neq; lia).
      replace (Z.pos m - 4503599627370496 + 4503599627370496) with (Z.pos m) by ring.
      replace (9223372036854775808 <=? bits) with s.
      * f_equal. ring.
      * unfold bits. destruct Hs as [[-> ->]|[-> ->]]; symmetry;
          [apply Z.leb_gt | apply Z.leb_le]; lia.
    + assert (He : e = -1074) by lia. clear H. subst e.
      set (bits := sign + Z.pos m).
      assert (Hq : bits / 4503599627370496 = sign / 4503599627370496
                   /\ bits mod 4503599627370496 = Z.pos m).
      { unfold bits. destruct Hs as [[-> _]|[-> _]].
        - cbn [Z.add]. split; [apply Z.div_small | apply Z.mod_small]; lia.
        - change (9223372036854775808 / 4503599627370496) with 2048.
          split; [symmetry; apply Z.div_unique with (r := Z.pos m)
                 | symmetry; apply Z.mod_unique with (q := 2048)]; lia. }
      destruct Hq as [Hq Hf]. rewrite Hq, Hf.
      replace ((sign / 4503599627370496) mod 2048 =? 0) with true
        by (destruct Hs as [[-> _]|[-> _]]; reflexivity).
      replace (9223372036854775808 <=? bits) with s; [reflexivity|].
      unfold bits. destruct Hs as [[-> ->]|[-> ->]]; symmetry;
        [apply Z.leb_gt | apply Z.leb_le]; lia.
Qed.

(** X6.  [float64ToArray] writes the eight bytes of the IEEE 754 binary64
    format, most significant first: reading them back as a double gives the
    value that was written, for every double (zeros of both signs, subnormal
    and normal numbers, infinities, NaN), whichever of the encodings of NaN
    the platform writes. *)
Theorem float64ToArray_round_trip (nanBits : Z) (value : spec_float) :
  isNaN64 nanBits = true ->
  valid_binary 53 1024 value = true ->
  getFloat64 (float64ToArray nanBits value) = value
  /\ length (float64ToArray nanBits value) = 8%nat.
Proof.
  intros Hn Hv. split; [|reflexivity].
  unfold getFloat64.
  rewrite float64ToArray_bigEndian, beValue_bigEndian.
  rewrite Z.mod_small by (pose proof (float64_bits_range nanBits value Hn Hv) as H;
                          revert H; eval_pows; lia).
  apply float64_of_bits_float64_bits; assumption.
Qed.

(** The double 0.3, the duration of three frames of 100 ms. *)
Lemma float64ToArray_round_trip_witness :
  getFloat64 (float64ToArray quietNaN (S754_finite false 5404319552844595 (-54)))
  = S754_finite false 5404319552844595 (-54)
  /\ length (float64ToArray quietNaN (S754_finite false 5404319552844595 (-54))) = 8%nat.
Proof.
  apply (float64ToArray_round_trip quietNaN (S754_finite false 5404319552844595 (-54)));
    reflexivity.
Defined.

(** ** Concatenation *)

(** X7.  [concatArrays] returns its arguments one after the other, in order,
    and nothing else: the length is the sum of the lengths, and concatenating
    the results of concatenations is concatenating all the pieces, which is
    what lets the assembler build an element from elements. *)
Theorem concatArrays_flatten (arrays : list (list byte))
    (groups : list (list (list byte))) :
  concatArrays arrays = concat arrays
  /\ length (concatArrays arrays) = list_sum (map (@length byte) arrays)
  /\ concatArrays (map concatArrays groups) = concatArrays (concat groups).
Proof.
  split; [apply concatArrays_concat|]. split.
  - rewrite concatArrays_concat. apply length_concat.
  - rewrite !concatArrays_concat.
    induction groups as [|g l IH]; [reflexivity|].
    cbn [map concat]. rewrite concat_app, IH, concatArrays_concat. reflexivity.
Qed.

(** ** The chunk that the scan returns *)

Lemma subarray_prefix (pre rest : list byte) (size : Z) :
  0 <= size ->
  subarray (pre ++ rest) (Z.of_nat (length pre)) (Z.of_nat (length pre) + size)
  = firstn (Z.to_nat size) rest.
Proof.
  intros Hsize. unfold subarray, clampIndex. rewrite length_app, Nat2Z.inj_add.
  replace (Z.of_nat (length pre) <? 0) with false by (symmetry; apply Z.ltb_ge; lia).
  replace (Z.of_nat (length pre) + size <? 0) with false
    by (symmetry; apply Z.ltb_ge; lia).
  rewrite (Z.min_l (Z.of_nat (length pre))) by lia.
  rewrite Nat2Z.id, skipn_app, skipn_all, Nat.sub_diag. cbn [skipn app].
  destruct (Z.le_gt_cases size (Z.of_nat (length rest))) as [Hle|Hgt].
  - rewrite Z.min_l by lia. f_equal. lia.
  - rewrite Z.min_r by lia.
    replace (Z.to_nat (Z.max (Z.of_nat (length pre) + Z.of_nat (length rest)
                              - Z.of_nat (length pre)) 0))
      with (length rest) by lia.
    rewrite firstn_all. symmetry. apply firstn_all2. lia.
Qed.

(** The scan stops at a tag that follows a prefix without one. *)
Lemma extract_after_prefix (pre rest : list byte) :
  (forall j, ~ occursAt pre j) -> (6 <= length rest)%nat ->
  extractVP8Bitstream (pre ++ vp8Tag ++ rest)
  = inr (chunkAt (pre ++ vp8Tag ++ rest) (length pre)).
Proof.
  intros Hclean Hrest. unfold extractVP8Bitstream.
  pose proof (extract_loop_first
                (Z.to_nat (Z.of_nat (length (pre ++ vp8Tag ++ rest)) - 10 + 1))
                (pre ++ vp8Tag ++ rest) 0 (length pre)) as E.
  change (Z.of_nat 0) with 0 in E. apply E; clear E.
  - rewrite !length_app. cbn [length vp8Tag]. lia.
  - unfold occursAt. rewrite skipn_app, skipn_all, Nat.sub_diag. reflexivity.
  - intros i Hi. apply synthetic_no_early_match; [exact Hclean | lia].
Qed.

(** The four bytes after the tag, as the scan combines them. *)
Lemma chunkAt_after_prefix (pre rest : list byte) (size : Z) :
  chunkAt (pre ++ vp8Tag ++ littleEndian32 size ++ rest) (length pre)
  = subarray (pre ++ vp8Tag ++ littleEndian32 size ++ rest)
      (Z.of_nat (length pre) + 8)
      (Z.of_nat (length pre) + 8
       + JS.or (JS.or (JS.or (size mod 256) (shl (size / 256 mod 256) 8))
                      (shl (size / 256 / 256 mod 256) 16))
               (shl (size / 256 / 256 / 256 mod 256) 24)).
Proof.
  unfold chunkAt.
  assert (E : forall j, load (pre ++ vp8Tag ++ littleEndian32 size ++ rest)
                          (Z.of_nat (length pre) + Z.of_nat (4 + j))
                        = nth_error (littleEndian32 size ++ rest) j).
  { intros j. rewrite load_nat, skipn_app, skipn_all, Nat.sub_diag. reflexivity. }
  change (Z.of_nat (length pre) + 4) with (Z.of_nat (length pre) + Z.of_nat (4 + 0)).
  change (Z.of_nat (length pre) + 5) with (Z.of_nat (length pre) + Z.of_nat (4 + 1)).
  change (Z.of_nat (length pre) + 6) with (Z.of_nat (length pre) + Z.of_nat (4 + 2)).
  change (Z.of_nat (length pre) + 7) with (Z.of_nat (length pre) + Z.of_nat (4 + 3)).
  rewrite !E.
  cbn [littleEndian32 bigEndian app rev nth_error num_of].
  rewrite !byte_to_Z_ToUint8. reflexivity.
Qed.

(** X8.  Wherever the first tag stands, the extractor returns the declared
    number of bytes from the ninth byte after it, whatever follows them; when
    fewer bytes are left than the chunk declares, it returns the ones there
    are, and does not throw.  (The prefix must not contain the tag, at least
    two bytes must follow the size, and the declared size is below 2^31.) *)
Theorem extractVP8Bitstream_chunk (pre rest : list byte) (size : Z) :
  (forall j, ~ occursAt pre j) -> 0 <= size < 2 ^ 31 -> (2 <= length rest)%nat ->
  extractVP8Bitstream (pre ++ vp8Tag ++ littleEndian32 size ++ rest)
  = inr (firstn (Z.to_nat size) rest).
Proof.
  intros Hclean Hsize Hrest.
  rewrite extract_after_prefix
    by (try exact Hclean; rewrite length_app, littleEndian32_length; lia).
  f_equal. rewrite chunkAt_after_prefix, littleEndian32_read by exact Hsize.
  replace (pre ++ vp8Tag ++ littleEndian32 size ++ rest)
    with ((pre ++ vp8Tag ++ littleEndian32 size) ++ rest)
    by (now rewrite <- !app_assoc).
  replace (Z.of_nat (length pre) + 8)
    with (Z.of_nat (length (pre ++ vp8Tag ++ littleEndian32 size)))
    by (rewrite !length_app, littleEndian32_length; cbn [length vp8Tag]; lia).
  apply subarray_prefix. lia.
Qed.

Lemma riffHeader_clean (j : nat) : ~ occursAt riffHeader j.
Proof.
  unfold occursAt, riffHeader.
  do 12 (destruct j as [|j]; [discriminate|]).
  cbn [skipn]. rewrite skipn_nil. discriminate.
Qed.

(** A WebP file with one chunk of four bytes. *)
Lemma extractVP8Bitstream_chunk_witness :
  extractVP8Bitstream
    (riffHeader ++ vp8Tag ++ littleEndian32 4 ++ [x9d; x01; x2a; x00])
  = inr [x9d; x01; x2a; x00].
Proof.
  apply (extractVP8Bitstream_chunk riffHeader [x9d; x01; x2a; x00] 4
           riffHeader_clean).
  - lia.
  - simpl. lia.
Defined.

(** X9.  Whatever the size field holds, a result of the extractor is a run of
    bytes of the input that starts at the ninth byte after the first scanned
    tag: it never reaches back into the tag or the size, never goes past the
    end of the input, and a size that is too large or negative as a 32-bit
    value shortens the result instead of raising an error. *)
Theorem extractVP8Bitstream_slice (webp bitstream : list byte) :
  extractVP8Bitstream webp = inr bitstream ->
  exists k n,
    scanned webp k /\ occursAt webp k
    /\ (forall i, (i < k)%nat -> ~ occursAt webp i)
    /\ bitstream = firstn n (skipn (k + 8) webp)
    /\ (k + 8 + length bitstream <= length webp)%nat.
Proof.
  intros H.
  destruct (extractVP8Bitstream_cases webp) as [[E _]|(k & Hs & Ho & Hfirst & E)];
    rewrite E in H; [discriminate H|].
  injection H as <-. unfold chunkAt, subarray.
  set (size := JS.or _ _). clearbody size.
  assert (Hb : Z.to_nat (clampIndex (Z.of_nat (length webp)) (Z.of_nat k + 8))
               = (k + 8)%nat).
  { unfold clampIndex, scanned in *.
    replace (Z.of_nat k + 8 <? 0) with false by (symmetry; apply Z.ltb_ge; lia).
    lia. }
  cbv zeta. rewrite Hb.
  eexists k, _. split; [exact Hs|]. split; [exact Ho|]. split; [exact Hfirst|].
  split; [reflexivity|].
  rewrite length_firstn, length_skipn. unfold scanned in Hs. lia.
Qed.

Lemma extractVP8Bitstream_slice_witness :
  exists k n,
    scanned stillImage k /\ occursAt stillImage k
    /\ (forall i, (i < k)%nat -> ~ occursAt stillImage i)
    /\ [x9d; x01] = firstn n (skipn (k + 8) stillImage)
    /\ (k + 8 + length [x9d; x01] <= length stillImage)%nat.
Proof.
  apply (extractVP8Bitstream_slice stillImage [x9d; x01]). reflexivity.
Defined.

(** ** Data URLs *)

Lemma substring_all (s : string) : substring 0 (String.length s) s = s.
Proof. induction s as [|c s IH]; [reflexivity|]. cbn. now rewrite IH. Qed.

Lemma substring_skip (prefix body : string) (m : nat) :
  substring (String.length prefix + 1) m (prefix ++ "," ++ body)
  = substring 0 m body.
Proof. induction prefix as [|c p IH]; [reflexivity|]. exact IH. Qed.

Lemma length_append (s t : string) :
  String.length (s ++ t) = (String.length s + String.length t)%nat.
Proof. induction s as [|c s IH]; [reflexivity|]. cbn. now rewrite IH. Qed.

(** [indexOf(",")] on a text whose part before the comma has none. *)
Lemma index_first_comma (prefix body : string) :
  String.index 0 "," prefix = None ->
  String.index 0 "," (prefix ++ "," ++ body) = Some (String.length prefix).
Proof.
  induction prefix as [|c p IH]; intros H.
  - cbn. now destruct body.
  - cbn [String.index append String.length] in *.
    cbn [prefix] in *.
    destruct (ascii_dec "," c) as [E|E].
    + destruct p; discriminate H.
    + destruct (String.index 0 "," p) eqn:Ep; [discriminate H|].
      now rewrite IH.
Qed.

(** X10.  [dataURLToUint8Array] decodes what follows the first comma of its
    argument, and the whole argument when there is no comma (the index -1
    plus one is the start of the text); the media type before the comma is
    not looked at.  The result has one byte for each character that [atob]
    returns, and the only exception is the one [atob] raises. *)
Theorem dataURLToUint8Array_first_comma (atob : string -> option string)
    (prefix body : string) :
  String.index 0 "," prefix = None ->
  let decoded (b64 : string) :=
    match atob b64 with
    | Some binaryString => inr (charCodes binaryString)
    | None => inl (DOMException "InvalidCharacterError")
    end in
  dataURLToUint8Array atob (prefix ++ "," ++ body) = decoded body
  /\ dataURLToUint8Array atob prefix = decoded prefix
  /\ (forall binaryString, atob body = Some binaryString ->
        exists bytes,
          dataURLToUint8Array atob (prefix ++ "," ++ body) = inr bytes
          /\ length bytes = String.length binaryString).
Proof.
  intros Hno. cbv zeta.
  assert (E1 : dataURLToUint8Array atob (prefix ++ "," ++ body)
               = match atob body with
                 | Some binaryString => inr (charCodes binaryString)
                 | None => inl (DOMException "InvalidCharacterError")
                 end).
  { unfold dataURLToUint8Array. rewrite index_first_comma by exact Hno.
    replace (Z.to_nat (Z.of_nat (String.length prefix) + 1))
      with (String.length prefix + 1)%nat by lia.
    rewrite substring_skip.
    replace (String.length (prefix ++ "," ++ body) - (String.length prefix + 1))%nat
      with (String.length body)
      by (rewrite length_append; cbn [append String.length]; lia).
    rewrite substring_all. reflexivity. }
  split; [exact E1|]. split.
  - unfold dataURLToUint8Array. rewrite Hno.
    change (Z.to_nat (-1 + 1)) with 0%nat.
    rewrite Nat.sub_0_r, substring_all. reflexivity.
  - intros s Hs. rewrite E1, Hs. eexists. split; [reflexivity|].
    clear. induction s as [|c s IH]; [reflexivity|]. cbn. now rewrite IH.
Qed.

Lemma dataURLToUint8Array_first_comma_witness :
  dataURLToUint8Array Base64.atob ("data:image/webp;base64" ++ "," ++ "AAAA")
  = inr [x00; x00; x00]
  /\ dataURLToUint8Array Base64.atob "data:image/webp;base64"
     = inl (DOMException "InvalidCharacterError").
Proof.
  destruct (dataURLToUint8Array_first_comma Base64.atob
              "data:image/webp;base64" "AAAA" eq_refl) as (H1 & H2 & _).
  split; [exact H1 | exact H2].
Defined.

(** ** The frames of a document *)

Lemma blockFrame_blocksFrom (t d : number) (frames : list (list byte)) :
  map blockFrame (map payloadOf (blocksFrom t d frames)) = frames.
Proof.
  revert t; induction frames as [|f rest IH]; intros t; [reflexivity|].
  cbn [blocksFrom map]. rewrite IH. reflexivity.
Qed.

Lemma length_simpleBlocksOf (nanBits : Z) (frames : list (list byte)) (d : number)
    (width height : Z) :
  length (simpleBlocksOf (document nanBits frames d width height)) = length frames.
Proof.
  rewrite simpleBlocksOf_document, length_map.
  generalize (Int 0). induction frames as [|f rest IH]; intros t; [reflexivity|].
  cbn [blocksFrom length]. now rewrite IH.
Qed.

(** X11.  An output of [createWebM] shorter than 2^31 bytes parses, and the
    frames of its SimpleBlocks are the input frames, byte for byte, as many
    and in the same order, whatever the frame duration (infinite and NaN
    included) and the pixel sizes. *)
Theorem createWebM_frames_round_trip (nanBits : Z) (frames : list (list byte)) (d : number)
    (width height : Z) :
  Z.of_nat (length (createWebM nanBits frames d width height)) < 2 ^ 31 ->
  exists doc,
    readDocument (createWebM nanBits frames d width height) = Some doc
    /\ map blockFrame (simpleBlocksOf doc) = frames
    /\ length (simpleBlocksOf doc) = length frames.
Proof.
  intros Hlen. exists (document nanBits frames d width height).
  split; [apply createWebM_readable; exact Hlen|].
  rewrite simpleBlocksOf_document.
  pose proof (blockFrame_blocksFrom (Int 0) d frames) as E.
  split; [exact E|].
  apply (f_equal (@length _)) in E. now rewrite length_map in E.
Qed.

Lemma createWebM_frames_round_trip_witness :
  exists doc,
    readDocument (createWebM quietNaN [[x9d; x01]; []; [x2a]] NaN 2 2) = Some doc
    /\ map blockFrame (simpleBlocksOf doc) = [[x9d; x01]; []; [x2a]]
    /\ length (simpleBlocksOf doc) = length [[x9d; x01]; []; [x2a]].
Proof.
  apply (createWebM_frames_round_trip quietNaN [[x9d; x01]; []; [x2a]] NaN 2 2).
  reflexivity.
Defined.

(** ** The first timecode that does not fit *)

Lemma int16_bigEndian_wrapped (t : Z) :
  2 ^ 15 <= t < 2 ^ 16 -> int16 (bigEndian 2 t) = t - 2 ^ 16.
Proof.
  intros Ht. unfold int16.
  destruct (int16_bigEndian t) as [E _]. rewrite E.
  rewrite Z.mod_small by lia.
  destruct (Z.ltb_spec t (2 ^ 15)); lia.
Qed.

Lemma stored_timecode (nanBits : Z) (frames : list (list byte)) (r : Z) (width height : Z)
    (k : nat) :
  (k < length frames)%nat ->
  nth_error (map (fun payload => int16 (blockTimecodeField payload))
               (simpleBlocksOf (document nanBits frames (Int r) width height))) k
  = Some (int16 (bigEndian 2 (Z.of_nat k * r))).
Proof.
  intros Hk. rewrite nth_error_map, simpleBlocksOf_nth.
  destruct (nth_error frames k) as [frame|] eqn:E.
  - rewrite running_timecode_Int. reflexivity.
  - apply nth_error_None in E. lia.
Qed.

(** The last frame index whose timecode fits in 15 bits is followed by one
    whose timecode fits in 16. *)
Lemma last_fitting_index (r n : Z) :
  0 < r < 2 ^ 15 -> 2 ^ 15 <= (n - 1) * r ->
  let k := (2 ^ 15 - 1) / r in
  0 <= k /\ k + 1 < n /\ 0 <= k * r < 2 ^ 15 /\ 2 ^ 15 <= (k + 1) * r < 2 ^ 16.
Proof.
  intros Hr Hn. cbv zeta.
  pose proof (Z.div_mod (2 ^ 15 - 1) r ltac:(lia)) as E.
  pose proof (Z.mod_pos_bound (2 ^ 15 - 1) r ltac:(lia)) as B.
  set (k := (2 ^ 15 - 1) / r) in *.
  assert (Hk : 0 <= k) by (apply Z.div_pos; lia).
  revert Hr Hn E B. eval_pows. intros Hr Hn E B.
  split; [exact Hk|]. split; [nia|]. split; nia.
Qed.

(** X12.  The bound under which the stored timecodes are in order is sharp.
    With a frame duration r from 1 to 32767 ms, as soon as the last timecode
    (N - 1) r reaches 2^15 there is a block whose signed 16-bit timecode is
    negative right after one that is not: the block of frame k + 1, for k
    the quotient of 32767 by r.  With r = 42, the frame duration of 24
    frames per second, that is frame 781, 32.8 seconds into the video. *)
Theorem timecodes_wrap (nanBits : Z) (frames : list (list byte)) (r : Z)
    (width height : Z) :
  0 < r < 2 ^ 15 ->
  2 ^ 15 <= (Z.of_nat (length frames) - 1) * r ->
  let doc := document nanBits frames (Int r) width height in
  let stored := map (fun payload => int16 (blockTimecodeField payload))
                    (simpleBlocksOf doc) in
  let k := Z.to_nat ((2 ^ 15 - 1) / r) in
  createWebM nanBits frames (Int r) width height = serializeAll doc
  /\ (S k < length frames)%nat
  /\ nth_error stored k = Some (Z.of_nat k * r)
  /\ nth_error stored (S k) = Some (Z.of_nat (S k) * r - 2 ^ 16)
  /\ Z.of_nat (S k) * r - 2 ^ 16 < 0 <= Z.of_nat k * r.
Proof.
  intros Hr Hn. cbv zeta. split; [apply createWebM_document|].
  destruct (last_fitting_index r (Z.of_nat (length frames)) Hr Hn)
    as (Hk0 & Hk & Hfit & Hnext).
  cbv zeta in Hk0, Hk, Hfit, Hnext.
  set (k := Z.to_nat ((2 ^ 15 - 1) / r)).
  assert (Ek : Z.of_nat k = (2 ^ 15 - 1) / r) by (unfold k; lia).
  assert (ESk : Z.of_nat (S k) = (2 ^ 15 - 1) / r + 1) by lia.
  rewrite <- Ek in Hfit. rewrite <- ESk in Hnext.
  split; [lia|].
  rewrite !stored_timecode by lia.
  destruct (int16_bigEndian (Z.of_nat k * r)) as [_ Es].
  rewrite Es by exact Hfit.
  rewrite int16_bigEndian_wrapped by exact Hnext.
  repeat split; lia.
Qed.

(** 782 frames of 42 ms. *)
Lemma timecodes_wrap_witness :
  let stored :=
    map (fun payload => int16 (blockTimecodeField payload))
        (simpleBlocksOf (document quietNaN (repeat [x9d] 782) (Int 42) 2 2)) in
  nth_error stored 780 = Some 32760
  /\ nth_error stored 781 = Some (-32734).
Proof.
  destruct (timecodes_wrap quietNaN (repeat [x9d] 782) 42 2 2)
    as (_ & _ & H1 & H2 & _).
  - split; reflexivity.
  - vm_compute. discriminate.
  - split; [exact H1 | exact H2].
Defined.

(** ** A frame rate of zero *)

Lemma running_timecode_infinite (d : number) (k : nat) :
  Num.infinite d = true ->
  Num.to_integer (Nat.iter k (fun t => Num.add t d) (Int 0)) = 0.
Proof.
  intros Hd. destruct k as [|k]; [reflexivity|].
  assert (E : Nat.iter (S k) (fun t => Num.add t d) (Int 0) = d).
  { induction k as [|k IH].
    - destruct d; try discriminate Hd; reflexivity.
    - rewrite Nat.iter_succ, IH. destruct d; try discriminate Hd; reflexivity. }
  rewrite E. destruct d; try discriminate Hd; reflexivity.
Qed.

(** X21.  A frame rate of zero is not rejected.  The frame duration is
    [Math.round(1000 / fps)], an infinity with the sign of the zero; the
    running timecode is that infinity from the second frame on and every
    block stores 0, the bitwise operators taking an infinity as 0; the
    stored duration of one frame or more is the infinity,
    [7f f0 00 00 00 00 00 00] for the frame rate 0 and
    [ff f0 00 00 00 00 00 00] for the frame rate -0. *)
Theorem zero_frame_rate (nanBits : Z) (frames : list (list byte)) (negative : bool)
    (width height : Z) :
  (0 < length frames)%nat ->
  let frameDurationMs := Num.Math_round (Num.div1000 (S754_zero negative)) in
  let doc := document nanBits frames frameDurationMs width height in
  let stored := map (fun payload => int16 (blockTimecodeField payload))
                    (simpleBlocksOf doc) in
  frameDurationMs = (if negative then NegInf else PosInf)
  /\ createWebM nanBits frames frameDurationMs width height = serializeAll doc
  /\ stored = repeat 0 (length frames)
  /\ In (Elem Id.Duration
           [if negative then xff else x7f; xf0; x00; x00; x00; x00; x00; x00])
        (descend [Id.Segment; Id.Info] doc).
Proof.
  intros Hlen. cbv zeta.
  assert (E : Num.Math_round (Num.div1000 (S754_zero negative))
              = if negative then NegInf else PosInf)
    by (destruct negative; reflexivity).
  rewrite E. split; [reflexivity|]. split; [apply createWebM_document|].
  set (d := if negative then NegInf else PosInf).
  assert (Hd : Num.infinite d = true) by (unfold d; destruct negative; reflexivity).
  split.
  - apply nth_ext with (d := 0) (d' := 0).
    + rewrite length_map, length_simpleBlocksOf, repeat_length. reflexivity.
    + intros k Hk. rewrite length_map, length_simpleBlocksOf in Hk.
      rewrite nth_repeat.
      apply nth_error_nth.
      rewrite nth_error_map, simpleBlocksOf_nth.
      destruct (nth_error frames k) as [frame|] eqn:Ek.
      * cbn [option_map]. rewrite running_timecode_infinite by exact Hd.
        reflexivity.
      * apply nth_error_None in Ek. lia.
  - right. left. unfold segmentInfo. f_equal.
    destruct (length frames) as [|n]; [lia|].
    unfold d. destruct negative;
      cbn [Num.mul Num.negative Num.infinite Num.is_zero xorb orb];
      replace (Z.of_nat (S n) <? 0) with false by (symmetry; apply Z.ltb_ge; lia);
      replace (Z.of_nat (S n) =? 0) with false by (symmetry; apply Z.eqb_neq; lia);
      reflexivity.
Qed.

(** Three frames at the frame rate -0. *)
Lemma zero_frame_rate_witness :
  let doc := document quietNaN [[x9d; x01]; [x9d; x01]; [x9d; x01]]
               (Num.Math_round (Num.div1000 (S754_zero true))) 2 2 in
  map (fun payload => int16 (blockTimecodeField payload)) (simpleBlocksOf doc)
  = [0; 0; 0]
  /\ In (Elem Id.Duration [xff; xf0; x00; x00; x00; x00; x00; x00])
        (descend [Id.Segment; Id.Info] doc).
Proof.
  destruct (zero_frame_rate quietNaN [[x9d; x01]; [x9d; x01]; [x9d; x01]] true 2 2)
    as (_ & _ & Hs & Hd).
  - simpl. lia.
  - split; [exact Hs | exact Hd].
Defined.

(** ** The size of the output *)

Lemma encodeVint_length_range (value : Z) :
  (1 <= length (encodeVint value) <= 8)%nat.
Proof.
  rewrite encodeVint_length_eq.
  pose proof (encodeVint_length_bound value) as [Hr _]. cbv zeta in Hr. lia.
Qed.

Lemma length_serialize_Master (id : list Z) (children : list ebml) :
  length (serialize (Master id children))
  = (length id
     + length (encodeVint (Z.of_nat (length (serializeAll children))))
     + length (serializeAll children))%nat.
Proof. cbn [serialize]. apply length_framed. Qed.

Lemma length_serializeAll_cons (e : ebml) (es : list ebml) :
  length (serializeAll (e :: es))
  = (length (serialize e) + length (serializeAll es))%nat.
Proof. unfold serializeAll. cbn [map concat]. apply length_app. Qed.

(** The parts of the document whose length does not depend on the input. *)
Lemma length_fixed_parts (nanBits : Z) (duration : spec_float) (width height : Z) :
  length (serialize ebmlHeader) = 36%nat
  /\ length (serialize (segmentInfo nanBits duration)) = 52%nat
  /\ length (serialize (tracks width height)) = 37%nat.
Proof.
  split; [reflexivity|]. split.
  - unfold segmentInfo, float64ToArray. cbn [map].
    repeat match goal with
           | |- context [ToUint8 ?z] => generalize (ToUint8 z); intro
           end.
    reflexivity.
  - unfold tracks. cbn [bigEndian app].
    repeat match goal with
           | |- context [ToUint8 ?z] => generalize (ToUint8 z); intro
           end.
    reflexivity.
Qed.

(** A block takes its frame, the id, four bytes of header, and a size field
    of one to eight bytes. *)
Lemma length_blocksFrom (t d : number) (frames : list (list byte)) :
  (6 * length frames + length (concat frames)
   <= length (serializeAll (blocksFrom t d frames))
   <= 13 * length frames + length (concat frames))%nat.
Proof.
  revert t; induction frames as [|f rest IH]; intros t.
  - cbn. lia.
  - cbn [blocksFrom]. rewrite length_serializeAll_cons.
    cbn [serialize concat length]. rewrite length_framed, length_app.
    specialize (IH (Num.add t d)).
    pose proof (encodeVint_length_range
                  (Z.of_nat (length (simpleBlockPayload 1 (Num.to_integer t) x80 f))))
      as Hv.
    assert (Hp : length (simpleBlockPayload 1 (Num.to_integer t) x80 f)
                 = (4 + length f)%nat).
    { unfold simpleBlockPayload. rewrite !length_app, bigEndian_length. reflexivity. }
    rewrite Hp in *. cbn [Id.SimpleBlock length]. lia.
Qed.

(** X13.  The output holds every byte of every frame and a bounded frame of
    its own: 139 bytes when there is no frame, and in general between
    139 + 6 N and 153 + 13 N bytes on top of the frames' own bytes, for N
    frames, whatever the frame duration and the pixel sizes. *)
Theorem createWebM_size (nanBits : Z) (frames : list (list byte)) (d : number)
    (width height : Z) :
  let N := length frames in
  let total := length (concat frames) in
  (139 + 6 * N + total <= length (createWebM nanBits frames d width height)
   <= 153 + 13 * N + total)%nat
  /\ length (createWebM nanBits [] d width height) = 139%nat.
Proof.
  cbv zeta.
  assert (E : forall fs,
            (139 + 6 * length fs + length (concat fs)
             <= length (createWebM nanBits fs d width height)
             <= 153 + 13 * length fs + length (concat fs))%nat
            /\ (fs = [] -> length (createWebM nanBits fs d width height) = 139%nat)).
  { intros fs. rewrite createWebM_document. unfold document.
    rewrite !length_serializeAll_cons, length_serialize_Master.
    rewrite !length_serializeAll_cons. unfold cluster.
    rewrite length_serialize_Master, length_serializeAll_cons.
    destruct (length_fixed_parts nanBits
                (Num.div (Num.mul d (Int (Z.of_nat (length fs)))) (Int 1000))
                width height) as (-> & -> & ->).
    change (length (serializeAll [])) with 0%nat.
    change (length (serialize (Elem Id.Timecode [x00; x00]))) with 4%nat.
    cbn [Id.Segment Id.Cluster length].
    pose proof (length_blocksFrom (Int 0) d fs) as HB.
    set (B := length (serializeAll (blocksFrom (Int 0) d fs))) in *.
    split.
    - pose proof (encodeVint_length_range (Z.of_nat (4 + B))) as H1.
      set (C := (4 + length (encodeVint (Z.of_nat (4 + B))) + (4 + B))%nat) in *.
      pose proof (encodeVint_length_range (Z.of_nat (52 + (37 + (C + 0))))) as H2.
      lia.
    - intros ->. subst B. reflexivity. }
  split; [apply E | apply E; reflexivity].
Qed.

(** ** The outcomes of the entry point *)

Lemma Array_map_inr {A B} (f : A -> exn + B) (l : list A) (ys : list B) :
  Array_map f l = inr ys <-> Forall2 (fun x y => f x = inr y) l ys.
Proof.
  revert ys; induction l as [|x rest IH]; intros ys; cbn [Array_map].
  - split.
    + intros H. injection H as <-. constructor.
    + intros H. inversion H. reflexivity.
  - split.
    + intros H. unfold bind in H. destruct (f x) as [e|y] eqn:Ex; [discriminate H|].
      destruct (Array_map f rest) as [e|ys'] eqn:Er; [discriminate H|].
      injection H as <-. constructor; [exact Ex|]. apply IH. reflexivity.
    + intros H. inversion H as [|x' y l' ys' Hx Hr]; subst.
      apply IH in Hr. unfold bind. rewrite Hx, Hr. reflexivity.
Qed.

Lemma Array_map_inl {A B} (f : A -> exn + B) (l : list A) (e : exn) :
  Array_map f l = inl e -> exists x, In x l /\ f x = inl e.
Proof.
  induction l as [|x rest IH]; cbn [Array_map]; intros H; [discriminate H|].
  unfold bind in H. destruct (f x) as [e'|y] eqn:Ex.
  - injection H as ->. exists x. split; [left; reflexivity | exact Ex].
  - destruct (Array_map f rest) as [e'|ys] eqn:Er; [|discriminate H].
    injection H as ->. destruct (IH eq_refl) as (x' & Hin & Hx').
    exists x'. split; [right; exact Hin | exact Hx'].
Qed.

(** X14.  [fromImageArray] resolves exactly when every frame decodes and
    holds a scanned tag.  The blob is then of type video/webm and holds the
    output of [createWebM] on the extracted chunks, one for each frame, in
    the order of the frames, with the rounded frame duration. *)
Theorem fromImageArray_resolves (nanBits : Z) (atob : string -> option string)
    (frames : list string) (fps : spec_float) (width height : Z) :
  let extracted (frame : string) (vp8Frame : list byte) :=
    exists webp, dataURLToUint8Array atob frame = inr webp
                 /\ extractVP8Bitstream webp = inr vp8Frame in
  ((exists blob, fromImageArray atob nanBits frames fps width height = inr blob)
   <-> Forall (fun frame => exists vp8Frame, extracted frame vp8Frame) frames)
  /\ (forall blob, fromImageArray atob nanBits frames fps width height = inr blob ->
        type blob = "video/webm"%string
        /\ exists vp8Frames,
             Forall2 extracted frames vp8Frames
             /\ blobParts blob
                = createWebM nanBits vp8Frames (Num.Math_round (Num.div1000 fps))
                    width height).
Proof.
  cbv zeta.
  set (f := fun frame => let* webp := dataURLToUint8Array atob frame in
                         extractVP8Bitstream webp).
  assert (Hf : forall frame vp8Frame,
            f frame = inr vp8Frame
            <-> exists webp, dataURLToUint8Array atob frame = inr webp
                             /\ extractVP8Bitstream webp = inr vp8Frame).
  { intros frame vp8Frame. unfold f, bind. split.
    - destruct (dataURLToUint8Array atob frame) as [e|webp]; [discriminate|].
      intros H. exists webp. split; [reflexivity | exact H].
    - intros (webp & -> & H). exact H. }
  assert (Hall : forall blob, fromImageArray atob nanBits frames fps width height = inr blob ->
            exists vp8Frames,
              Forall2 (fun frame vp8Frame => f frame = inr vp8Frame) frames vp8Frames
              /\ blob = mkBlob (createWebM nanBits vp8Frames
                                  (Num.Math_round (Num.div1000 fps)) width height)
                          "video/webm").
  { intros blob H. unfold fromImageArray in H. fold f in H. unfold bind in H.
    destruct (Array_map f frames) as [e|vp8Frames] eqn:E; [discriminate H|].
    injection H as <-. exists vp8Frames. split; [|reflexivity].
    apply Array_map_inr. exact E. }
  split.
  - split.
    + intros (blob & H). destruct (Hall blob H) as (vp8Frames & HF & _).
      clear -HF Hf. induction HF as [|frame y l l' Hx _ IH]; constructor.
      * exists y. apply Hf. exact Hx.
      * exact IH.
    + intros HF.
      assert (exists vp8Frames, Array_map f frames = inr vp8Frames) as (ys & E).
      { clear -HF Hf. induction HF as [|frame l (y & Hy) _ (ys & IH)].
        - exists []. reflexivity.
        - exists (y :: ys). cbn [Array_map]. unfold bind.
          apply Hf in Hy. rewrite Hy, IH. reflexivity. }
      eexists. unfold fromImageArray. fold f. rewrite E. reflexivity.
  - intros blob H. destruct (Hall blob H) as (vp8Frames & HF & ->).
    split; [reflexivity|]. exists vp8Frames. split; [|reflexivity].
    clear -HF Hf. induction HF as [|frame y l l' Hx _ IH]; constructor.
    + apply Hf. exact Hx.
    + exact IH.
Qed.

(** X15.  [fromImageArray] raises nothing of its own: when it rejects, the
    exception is the one that the decoder or the extractor raised on one of
    the frames, so it is either the InvalidCharacterError of [atob] or the
    error that no VP8 bitstream was found; an empty list of frames is never
    rejected. *)
Theorem fromImageArray_rejects (nanBits : Z) (atob : string -> option string)
    (frames : list string) (fps : spec_float) (width height : Z) (e : exn) :
  fromImageArray atob nanBits frames fps width height = inl e ->
  (exists frame, In frame frames
     /\ (dataURLToUint8Array atob frame = inl e
         \/ exists webp, dataURLToUint8Array atob frame = inr webp
                         /\ extractVP8Bitstream webp = inl e))
  /\ (e = DOMException "InvalidCharacterError" \/ e = notFound).
Proof.
  intros H. unfold fromImageArray in H. unfold bind at 1 in H.
  destruct (Array_map _ frames) as [e'|ys] eqn:E; [|discriminate H].
  injection H as ->. apply Array_map_inl in E. destruct E as (frame & Hin & Hf).
  unfold bind in Hf.
  destruct (dataURLToUint8Array atob frame) as [e'|webp] eqn:Ed.
  - injection Hf as ->. split.
    + exists frame. split; [exact Hin | left; exact Ed].
    + left. unfold dataURLToUint8Array in Ed.
      destruct (atob _); [discriminate Ed|]. now injection Ed as <-.
  - split.
    + exists frame. split; [exact Hin|]. right. exists webp.
      split; [exact Ed | exact Hf].
    + right. apply (extractVP8Bitstream_error webp). exact Hf.
Qed.

Lemma fromImageArray_rejects_witness :
  (exists frame, In frame [stillImageURL; "data:,A"%string]
     /\ (dataURLToUint8Array Base64.atob frame
         = inl (DOMException "InvalidCharacterError")
         \/ exists webp, dataURLToUint8Array Base64.atob frame = inr webp
                         /\ extractVP8Bitstream webp
                            = inl (DOMException "InvalidCharacterError")))
  /\ (DOMException "InvalidCharacterError" = DOMException "InvalidCharacterError"
      \/ DOMException "InvalidCharacterError" = notFound).
Proof.
  apply (fromImageArray_rejects quietNaN Base64.atob [stillImageURL; "data:,A"%string]
           (Num.to_double (Int 24)) 2 2 (DOMException "InvalidCharacterError")).
  reflexivity.
Defined.

(** * The preview exporter *)

(** ** The duration of the timeline *)

Lemma Qgtb_true (a b : Q) : Exporter.Qgtb a b = true <-> (b < a)%Q.
Proof.
  unfold Exporter.Qgtb. rewrite negb_true_iff. split.
  - intros H. apply Qnot_le_lt. intros Hle. apply Qle_bool_iff in Hle. congruence.
  - intros H. destruct (Qle_bool a b) eqn:E; [|reflexivity].
    apply Qle_bool_iff in E. exfalso. exact (Qlt_not_le _ _ H E).
Qed.

Lemma Qgtb_false (a b : Q) : Exporter.Qgtb a b = false <-> (a <= b)%Q.
Proof.
  unfold Exporter.Qgtb. rewrite negb_false_iff. apply Qle_bool_iff.
Qed.

(** [Math.max] returns one of its arguments, and none of them exceeds it. *)
Lemma Math_max_spec (x : Q) (xs : list Q) :
  let m := Exporter.Math_max x xs in
  (x <= m)%Q /\ (forall y, In y xs -> (y <= m)%Q) /\ (m = x \/ In m xs).
Proof.
  cbv zeta. unfold Exporter.Math_max. revert x.
  induction xs as [|y rest IH]; intros x; cbn [fold_left].
  - split; [apply Qle_refl|]. split; [intros y []|left; reflexivity].
  - destruct (Exporter.Qgtb y x) eqn:E.
    + apply Qgtb_true in E. destruct (IH y) as (H1 & H2 & H3).
      split; [apply Qle_trans with y; [apply Qlt_le_weak, E | exact H1]|].
      split.
      * intros z [<-|Hz]; [exact H1 | apply H2, Hz].
      * right. destruct H3 as [->|H3]; [left; reflexivity | right; exact H3].
    + apply Qgtb_false in E. destruct (IH x) as (H1 & H2 & H3).
      split; [exact H1|]. split.
      * intros z [<-|Hz]; [apply Qle_trans with x; assumption | apply H2, Hz].
      * destruct H3 as [->|H3]; [left; reflexivity | right; right; exact H3].
Qed.

Lemma maxEnd_Math_max (arr : list Exporter.clip) :
  Exporter._maxEndFromArray (Some arr)
  = Exporter.Math_max 0%Q (map Exporter.en arr).
Proof.
  unfold Exporter._maxEndFromArray, Exporter.Math_max. cbv zeta.
  generalize 0%Q. induction arr as [|c rest IH]; intros m; [reflexivity|].
  cbn [map fold_left]. apply IH.
Qed.

Lemma maxEnd_spec (arr : list Exporter.clip) :
  let m := Exporter._maxEndFromArray (Some arr) in
  (0 <= m)%Q
  /\ (forall c, In c arr -> (Exporter.en c <= m)%Q)
  /\ (m = 0%Q \/ exists c, In c arr /\ m = Exporter.en c).
Proof.
  cbv zeta. rewrite maxEnd_Math_max.
  destruct (Math_max_spec 0%Q (map Exporter.en arr)) as (H1 & H2 & H3).
  cbv zeta in H1, H2, H3.
  split; [exact H1|]. split.
  - intros c Hc. apply H2. apply in_map. exact Hc.
  - destruct H3 as [->|H3]; [left; reflexivity|].
    right. apply in_map_iff in H3. destruct H3 as (c & Ec & Hc).
    exists c. split; [exact Hc | symmetry; exact Ec].
Qed.

(** X16.  [_maxEndFromArray] returns the latest end among its objects, and 0
    when none ends after 0 or the array is empty or left out: the result is
    never negative, no object ends after it, and it is 0 or the end of one of
    the objects. *)
Theorem maxEndFromArray_latest_end (arr : list Exporter.clip) :
  let m := Exporter._maxEndFromArray (Some arr) in
  (0 <= m)%Q
  /\ (forall c, In c arr -> (Exporter.en c <= m)%Q)
  /\ (m = 0%Q \/ exists c, In c arr /\ m = Exporter.en c)
  /\ Exporter._maxEndFromArray None = 0%Q.
Proof.
  cbv zeta. destruct (maxEnd_spec arr) as (H1 & H2 & H3).
  repeat split; try assumption; reflexivity.
Qed.

Lemma maxEnd_orEmpty (arr : option (list Exporter.clip)) :
  Exporter._maxEndFromArray arr
  = Exporter._maxEndFromArray (Some (Exporter.orEmpty arr)).
Proof. destruct arr; reflexivity. Qed.

(** The duration is at least half a second, and no object ends after it. *)
Lemma duration_bounds (t : Exporter.timeline) :
  let D := Exporter.computeTimelineDurationSec t in
  (1 # 2 <= D)%Q
  /\ (forall c, In c (Exporter.timedObjects t) -> (Exporter.en c <= D)%Q).
Proof.
  cbv zeta. unfold Exporter.computeTimelineDurationSec, Exporter.timedObjects.
  rewrite (maxEnd_orEmpty (Exporter.audioTracks t)),
          (maxEnd_orEmpty (Exporter.graphics t)).
  set (perTrack := map (fun l => Exporter._maxEndFromArray
                                   (Some (Exporter.orEmpty (Exporter.clips l))))
                       (Exporter.orEmpty (Exporter.tracks t))).
  set (bg := flat_map _ (Exporter.orEmpty (Exporter.backgroundTracks t))).
  destruct (Math_max_spec 0%Q perTrack) as (_ & T2 & _).
  destruct (maxEnd_spec (Exporter.orEmpty (Exporter.audioTracks t)))
    as (_ & A2 & _).
  destruct (maxEnd_spec bg) as (_ & B2 & _).
  destruct (maxEnd_spec (Exporter.orEmpty (Exporter.graphics t)))
    as (_ & G2 & _).
  cbv zeta in *.
  match goal with
  | |- context [Exporter.Math_max ?x ?l] =>
      destruct (Math_max_spec x l) as (D1 & D2 & _); cbv zeta in D1, D2
  end.
  split; [apply D2; simpl; auto|].
  intros c Hc. rewrite !in_app_iff in Hc. destruct Hc as [Hc|[Hc|[Hc|Hc]]].
  - apply in_flat_map in Hc. destruct Hc as (l & Hl & Hc).
    destruct (maxEnd_spec (Exporter.orEmpty (Exporter.clips l))) as (_ & L2 & _).
    cbv zeta in L2.
    eapply Qle_trans; [apply L2, Hc|]. eapply Qle_trans; [|exact D1].
    apply T2. unfold perTrack.
    apply (in_map (fun l => Exporter._maxEndFromArray
                              (Some (Exporter.orEmpty (Exporter.clips l))))).
    exact Hl.
  - eapply Qle_trans; [apply A2, Hc | apply D2; simpl; auto].
  - eapply Qle_trans; [apply B2, Hc | apply D2; simpl; auto].
  - eapply Qle_trans; [apply G2, Hc | apply D2; simpl; auto].
Qed.

(** X17.  The duration of the timeline is the latest end among the clips of
    the tracks, the audio tracks, the clips of the backgrounds (or the
    backgrounds themselves when they have no clips) and the graphics, and
    half a second when none ends later: it is never below 0.5, no object
    ends after it, and it is 0.5 or the end of one of them. *)
Theorem computeTimelineDurationSec_latest_end (t : Exporter.timeline) :
  let D := Exporter.computeTimelineDurationSec t in
  (1 # 2 <= D)%Q
  /\ (forall c, In c (Exporter.timedObjects t) -> (Exporter.en c <= D)%Q)
  /\ (D = (1 # 2)%Q
      \/ exists c, In c (Exporter.timedObjects t) /\ D = Exporter.en c).
Proof.
  cbv zeta. destruct (duration_bounds t) as [Hhalf Hle]. cbv zeta in Hhalf, Hle.
  split; [exact Hhalf|]. split; [exact Hle|].
  assert (Hzero : Exporter.computeTimelineDurationSec t = 0%Q -> False).
  { intros E. rewrite E in Hhalf. apply Hhalf. reflexivity. }
  revert Hzero. clear Hhalf Hle.
  unfold Exporter.computeTimelineDurationSec, Exporter.timedObjects.
  rewrite (maxEnd_orEmpty (Exporter.audioTracks t)),
          (maxEnd_orEmpty (Exporter.graphics t)).
  set (perTrack := map (fun l => Exporter._maxEndFromArray
                                   (Some (Exporter.orEmpty (Exporter.clips l))))
                       (Exporter.orEmpty (Exporter.tracks t))).
  set (bg := flat_map _ (Exporter.orEmpty (Exporter.backgroundTracks t))).
  destruct (Math_max_spec 0%Q perTrack) as (_ & _ & T3).
  destruct (maxEnd_spec (Exporter.orEmpty (Exporter.audioTracks t)))
    as (_ & _ & A3).
  destruct (maxEnd_spec bg) as (_ & _ & B3).
  destruct (maxEnd_spec (Exporter.orEmpty (Exporter.graphics t)))
    as (_ & _ & G3).
  cbv zeta in *.
  match goal with
  | |- context [Exporter.Math_max ?x ?l] =>
      destruct (Math_max_spec x l) as (_ & _ & D3); cbv zeta in D3;
      set (D := Exporter.Math_max x l) in *
  end.
  intros Hzero. clearbody D.
  destruct D3 as [E|[E|[E|[E|[E|[]]]]]].
  - destruct T3 as [T3|T3]; [exfalso; apply Hzero; rewrite E; assumption|].
    unfold perTrack in *. apply in_map_iff in T3.
    destruct T3 as (l & El & Hl).
    destruct (maxEnd_spec (Exporter.orEmpty (Exporter.clips l)))
      as (_ & _ & [L3|(c & Hc & L3)]); cbv zeta in *.
    + exfalso. apply Hzero. rewrite E, <- El. exact L3.
    + right. exists c. split; [|rewrite E, <- El; exact L3].
      rewrite !in_app_iff. left. apply in_flat_map. exists l. auto.
  - destruct A3 as [A3|(c & Hc & A3)]; [exfalso; apply Hzero; rewrite <- E; assumption|].
    right. exists c. split; [|rewrite <- E; assumption]. rewrite !in_app_iff. auto.
  - destruct B3 as [B3|(c & Hc & B3)]; [exfalso; apply Hzero; rewrite <- E; assumption|].
    right. exists c. split; [|rewrite <- E; assumption]. rewrite !in_app_iff. auto.
  - destruct G3 as [G3|(c & Hc & G3)]; [exfalso; apply Hzero; rewrite <- E; assumption|].
    right. exists c. split; [|rewrite <- E; assumption]. rewrite !in_app_iff. auto.
  - left. symmetry. exact E.
Qed.

(** ** The timecodes of an export *)

Lemma stored_timecodes_sorted (nanBits : Z) (frames : list (list byte)) (r : Z)
    (width height : Z) (j k : nat) (tj tk : Z) :
  0 <= r -> (Z.of_nat (length frames) - 1) * r < 2 ^ 15 -> (j <= k)%nat ->
  let stored :=
    map (fun payload => int16 (blockTimecodeField payload))
        (simpleBlocksOf (document nanBits frames (Int r) width height)) in
  nth_error stored j = Some tj -> nth_error stored k = Some tk -> tj <= tk.
Proof.
  intros Hr Hb Hjk. cbv zeta. intros Hj Hk.
  assert (Hlen : length (map (fun payload => int16 (blockTimecodeField payload))
                           (simpleBlocksOf (document nanBits frames (Int r) width height)))
                 = length frames).
  { rewrite length_map. apply length_simpleBlocksOf. }
  assert (Hkl : (k < length frames)%nat).
  { rewrite <- Hlen. apply nth_error_Some. rewrite Hk. discriminate. }
  rewrite stored_timecode in Hj, Hk by lia.
  destruct (int16_bigEndian (Z.of_nat j * r)) as [_ Ej].
  destruct (int16_bigEndian (Z.of_nat k * r)) as [_ Ek].
  rewrite Ej in Hj by nia. rewrite Ek in Hk by nia.
  injection Hj as <-. injection Hk as <-. nia.
Qed.

(** X19.  What the preview exporter writes.  It muxes the frames it has
    captured at its constant 24 frames per second, for which the entry point
    computes the frame duration 42 ms.  With 782 frames or more, the block
    of frame 781 carries the negative timecode -32734 right after the 32760
    of frame 780; with 781 frames at most (32.5 seconds of video), the
    stored timecodes are in order. *)
Theorem export_timecodes (nanBits : Z) (frames : list (list byte)) (width height : Z) :
  let FPS_LOCAL := Num.to_double (Int Exporter.FPS) in
  let frameDurationMs := Num.Math_round (Num.div1000 FPS_LOCAL) in
  let doc := document nanBits frames frameDurationMs width height in
  let stored := map (fun payload => int16 (blockTimecodeField payload))
                    (simpleBlocksOf doc) in
  frameDurationMs = Int 42
  /\ createWebM nanBits frames frameDurationMs width height = serializeAll doc
  /\ (782 <= Z.of_nat (length frames) ->
      nth_error stored 780 = Some 32760
      /\ nth_error stored 781 = Some (-32734))
  /\ (Z.of_nat (length frames) <= 781 ->
      forall j k tj tk, (j <= k)%nat ->
        nth_error stored j = Some tj -> nth_error stored k = Some tk ->
        tj <= tk).
Proof.
  cbv zeta.
  change (Num.Math_round (Num.div1000 (Num.to_double (Int Exporter.FPS))))
    with (Int 42).
  split; [reflexivity|]. split; [apply createWebM_document|]. split.
  - intros HN. rewrite !stored_timecode by lia. split; reflexivity.
  - intros HN j k tj tk Hjk.
    apply stored_timecodes_sorted; [lia | | exact Hjk].
    eval_pows. lia.
Qed.

(** 793 frames, the frames of a timeline of 33 seconds. *)
Lemma export_timecodes_witness :
  let stored :=
    map (fun payload => int16 (blockTimecodeField payload))
        (simpleBlocksOf
           (document quietNaN (repeat [x9d] 793)
              (Num.Math_round
                 (Num.div1000 (Num.to_double (Int Exporter.FPS)))) 2 2)) in
  nth_error stored 780 = Some 32760
  /\ nth_error stored 781 = Some (-32734).
Proof.
  destruct (export_timecodes quietNaN (repeat [x9d] 793) 2 2) as (_ & _ & Hwrap & _).
  apply Hwrap. vm_compute. discriminate.
Defined.

(** ** The size of the stage *)

Lemma to_integer_Math_round (q : Q) :
  Num.to_integer (Num.Math_roundQ q) = roundQ q.
Proof.
  unfold Num.Math_roundQ, roundQ. cbv zeta.
  destruct ((Qfloor (q + (1 # 2)) =? 0) && negb (Qle_bool 0 q)) eqn:E;
    [|reflexivity].
  apply andb_prop in E. destruct E as [E _]. apply Z.eqb_eq in E.
  rewrite E. reflexivity.
Qed.

(** [v & ~1] clears the lowest bit of a 32-bit value. *)
Lemma and_not_1 (v : Z) :
  - 2 ^ 31 <= v < 2 ^ 31 -> JS.and v (Z.lnot 1) = 2 * (v / 2).
Proof.
  intros Hv. unfold JS.and.
  rewrite (ToInt32_small v) by exact Hv.
  rewrite (ToInt32_small (Z.lnot 1)) by (vm_compute; split; congruence).
  rewrite <- Z.ldiff_land. change 1 with (Z.ones 1).
  rewrite Z.ldiff_ones_r by lia.
  rewrite Z.shiftr_div_pow2, Z.shiftl_mul_pow2 by lia.
  change (2 ^ 1) with 2. lia.
Qed.

Lemma even_size (x : Q) :
  roundQ x < 2 ^ 31 ->
  let w := Exporter.W x in
  w = 2 * (Z.max 2 (roundQ x) / 2) /\ 2 <= w /\ w <= Z.max 2 (roundQ x) <= w + 1.
Proof.
  intros Hx. cbv zeta. unfold Exporter.W.
  rewrite to_integer_Math_round, and_not_1 by (revert Hx; eval_pows; lia).
  pose proof (Z.div_mod (Z.max 2 (roundQ x)) 2 ltac:(lia)) as E.
  pose proof (Z.mod_pos_bound (Z.max 2 (roundQ x)) 2 ltac:(lia)) as B.
  lia.
Qed.

(** X20.  The exporter rounds the width and the height of the stage to the
    nearest integer, raises them to 2 at least and clears the lowest bit:
    each side is even, at least 2, and the rounded side or one less.  A
    stage of no size is therefore exported as 2 x 2 pixels, and the guard
    that should stop with "Stage too small" never fires (as long as the
    rounded sides are below 2^31).  A side below 65536 fits the two bytes
    that [createWebM] gives it. *)
Theorem stage_size (rect_width rect_height : Q) :
  roundQ rect_width < 2 ^ 31 -> roundQ rect_height < 2 ^ 31 ->
  let w := Exporter.W rect_width in
  let h := Exporter.H rect_height in
  Exporter.stageTooSmall w h = false
  /\ 2 <= w /\ Z.even w = true /\ w <= Z.max 2 (roundQ rect_width) <= w + 1
  /\ 2 <= h /\ Z.even h = true /\ h <= Z.max 2 (roundQ rect_height) <= h + 1
  /\ (roundQ rect_width < 65536 -> beValue (uintToArray w 2) = w)
  /\ (roundQ rect_height < 65536 -> beValue (uintToArray h 2) = h).
Proof.
  intros Hw Hh. cbv zeta.
  destruct (even_size rect_width Hw) as (Ew & Hw2 & Hwr).
  destruct (even_size rect_height Hh) as (Eh & Hh2 & Hhr).
  cbv zeta in *. change (Exporter.H rect_height) with (Exporter.W rect_height).
  set (w := Exporter.W rect_width) in *. set (h := Exporter.W rect_height) in *.
  assert (Hfit : forall v, 2 <= v < 65536 -> beValue (uintToArray v 2) = v).
  { intros v Hv. rewrite uintToArray_bigEndian, beValue_bigEndian by lia.
    apply Z.mod_small. change (256 ^ Z.of_nat 2) with 65536. lia. }
  split.
  { unfold Exporter.stageTooSmall.
    replace (w <? 2) with false by (symmetry; apply Z.ltb_ge; lia).
    replace (h <? 2) with false by (symmetry; apply Z.ltb_ge; lia).
    reflexivity. }
  split; [exact Hw2|]. split; [rewrite Ew; apply Z.even_mul|].
  split; [exact Hwr|].
  split; [exact Hh2|]. split; [rewrite Eh; apply Z.even_mul|].
  split; [exact Hhr|].
  split; intros Hs; apply Hfit; lia.
Qed.

(** A stage of no size, and one of 1280.4 by 719.5 pixels. *)
Lemma stage_size_witness :
  Exporter.stageTooSmall (Exporter.W 0) (Exporter.H 0) = false
  /\ Exporter.W 0 = 2 /\ Exporter.H 0 = 2
  /\ Exporter.W (12804 # 10) = 1280 /\ Exporter.H (7195 # 10) = 720.
Proof.
  destruct (stage_size 0 0 eq_refl eq_refl) as (Hguard & _).
  split; [exact Hguard|]. repeat split.
Defined.
